(** * Planning graph of [my_planning_graph.py]: a shallow embedding

    The Python module builds a planning graph out of node objects that refer
    to one another (parents, children, mutex).  The embedding keeps that
    object structure: every [PgNode] lives in a store at an address, and the
    sets of the source hold references to those objects.  The fields of a
    node that never change after its constructor ran (symbol, polarity,
    action, prenodes, effnodes, is_persistent) travel with the reference;
    the three mutable sets of the base class are looked up in the store.

    A Python [set] is a list without two [==]-equal members.  Python leaves
    the order in which a set is visited open; here a set is visited in the
    order of insertion.  The order decides which of several equal nodes a
    set keeps, not which keys it holds. *)

From Stdlib Require Import ZArith Lia Ascii.
From stdpp Require Import base strings list gmap.

Local Open Scope string_scope.
Local Open Scope list_scope.
Local Open Scope nat_scope.

(** ** Python equality and sets *)

(** [__eq__] of a class. *)
Class PyEq (A : Type) := py_eq : A → A → bool.

(** The key that [__eq__] (and [__hash__]) look at. *)
Class PyKey (A K : Type) := py_key : A → K.

(** [__eq__] compares exactly the key. *)
Class PyKeyLaw (A K : Type) `{PyEq A} `{PyKey A K} :=
  py_eq_key : ∀ x y : A, py_eq x y = true ↔ py_key x = py_key y.

(** The address of the object a reference points to. *)
Class HasAddr (A : Type) := addr : A → nat.

Section pyset.
Context {A : Type} `{PyEq A}.

(** [x in s] *)
Definition set_in (x : A) (s : list A) : bool :=
  existsb (λ y, py_eq y x) s.

(** [s.add(x)]: an equal member already present is kept. *)
Definition set_add (x : A) (s : list A) : list A :=
  if set_in x s then s else s ++ [x].

(** [s.update(xs)] *)
Definition set_update (s xs : list A) : list A :=
  fold_left (λ s x, set_add x s) xs s.

(** [s1 == s2] *)
Definition set_eq (s1 s2 : list A) : bool :=
  Nat.eqb (length s1) (length s2) && forallb (λ x, set_in x s2) s1.
End pyset.

(** [l[i]] with Python's negative indices; [None] stands for IndexError. *)
Definition py_index {A} (l : list A) (i : Z) : option A :=
  if (i <? 0)%Z
  then if (- i <=? Z.of_nat (length l))%Z
       then l !! Z.to_nat (Z.of_nat (length l) + i)
       else None
  else l !! Z.to_nat i.

(** ** class PgNode: the mutable part of every node *)

Record PgNode (P M : Type) := mkPgNode {
  parents : list P;
  children : list P;
  mutex : list M
}.
Arguments mkPgNode {P M} _ _ _.
Arguments parents {P M} _.
Arguments children {P M} _.
Arguments mutex {P M} _.

Record Store (P M : Type) := mkStore {
  next_addr : nat;
  objs : gmap nat (PgNode P M)
}.
Arguments mkStore {P M} _ _.
Arguments next_addr {P M} _.
Arguments objs {P M} _.

Section store.
Context {P M : Type}.

(** [PgNode.__init__]: three empty sets. *)
Definition PgNode_init : PgNode P M := mkPgNode [] [] [].

Definition empty_store : Store P M := mkStore 0 ∅.

Definition deref (st : Store P M) (i : nat) : PgNode P M :=
  default PgNode_init (objs st !! i).

Definition alloc (st : Store P M) : nat * Store P M :=
  (next_addr st,
   mkStore (S (next_addr st)) (<[next_addr st := PgNode_init]> (objs st))).

Definition modify (f : PgNode P M → PgNode P M) (i : nat)
    (st : Store P M) : Store P M :=
  mkStore (next_addr st) (<[i := f (deref st i)]> (objs st)).

Definition with_parents (f : list P → list P) (o : PgNode P M) :=
  mkPgNode (f (parents o)) (children o) (mutex o).
Definition with_children (f : list P → list P) (o : PgNode P M) :=
  mkPgNode (parents o) (f (children o)) (mutex o).
Definition with_mutex (f : list M → list M) (o : PgNode P M) :=
  mkPgNode (parents o) (children o) (f (mutex o)).

Context `{PyEq M} `{HasAddr M}.

(** [PgNode.is_mutex] *)
Definition is_mutex (st : Store P M) (self other : M) : bool :=
  if set_in other (mutex (deref st (addr self))) then true else false.

(** [mutexify]; both arguments have one node type here, so the TypeError
    branch of the source cannot be taken. *)
Definition mutexify (st : Store P M) (node1 node2 : M) : Store P M :=
  let st := modify (with_mutex (set_add node2)) (addr node1) st in
  modify (with_mutex (set_add node1)) (addr node2) st.
End store.

(** ** class PgNode_s and class PgNode_a *)

Record PgNode_s := mkPgNode_s {
  s_addr : nat;
  symbol : string;
  is_pos : bool
}.

(** Modelled from the spec: the class [Action] of aimacode.planning is not
    part of the module.  A ground action has the name and the arguments of
    its expression and four literal lists: positive and negative
    preconditions, positive and negative effects. *)
Record Action := mkAction {
  name : string;
  args : list string;
  precond_pos : list string;
  precond_neg : list string;
  effect_add : list string;
  effect_rem : list string
}.

Record PgNode_a := mkPgNode_a {
  a_addr : nat;
  action : Action;
  prenodes : list PgNode_s;
  effnodes : list PgNode_s;
  is_persistent : bool
}.

#[global] Instance PgNode_s_addr : HasAddr PgNode_s := s_addr.
#[global] Instance PgNode_a_addr : HasAddr PgNode_a := a_addr.

(** [PgNode_s.__eq__] *)
#[global] Instance PgNode_s_eq : PyEq PgNode_s := λ self other,
  bool_decide (is_pos self = is_pos other) &&
  bool_decide (symbol self = symbol other).

(** [PgNode_a.__eq__] *)
#[global] Instance PgNode_a_eq : PyEq PgNode_a := λ self other,
  bool_decide (is_persistent self = is_persistent other) &&
  bool_decide (name (action self) = name (action other)) &&
  bool_decide (args (action self) = args (action other)).

Abbreviation literal := (string * bool)%type.
Abbreviation action_id := (string * list string * bool)%type.

Definition s_key (n : PgNode_s) : literal := (symbol n, is_pos n).
Definition a_key (n : PgNode_a) : action_id :=
  (name (action n), args (action n), is_persistent n).

#[global] Instance PgNode_s_key : PyKey PgNode_s literal := s_key.
#[global] Instance PgNode_a_key : PyKey PgNode_a action_id := a_key.

Abbreviation SHeap := (Store PgNode_a PgNode_s).
Abbreviation AHeap := (Store PgNode_s PgNode_a).

(** [PgNode_s(symbol, is_pos)] *)
Definition PgNode_s_init (symbol : string) (is_pos : bool) (sh : SHeap)
    : PgNode_s * SHeap :=
  let '(a, sh) := alloc sh in (mkPgNode_s a symbol is_pos, sh).

(** One loop of [precond_s_nodes] / [effect_s_nodes]:
    [for p in ps: nodes.add(PgNode_s(p, polarity))]. *)
Definition add_s_nodes (polarity : bool) (ps : list string)
    (acc : list PgNode_s * SHeap) : list PgNode_s * SHeap :=
  fold_left (λ '(nodes, sh) p,
               let '(n, sh) := PgNode_s_init p polarity sh in
               (set_add n nodes, sh)) ps acc.

Definition precond_s_nodes (act : Action) (sh : SHeap) : list PgNode_s * SHeap :=
  add_s_nodes false (precond_neg act) (add_s_nodes true (precond_pos act) ([], sh)).

Definition effect_s_nodes (act : Action) (sh : SHeap) : list PgNode_s * SHeap :=
  add_s_nodes false (effect_rem act) (add_s_nodes true (effect_add act) ([], sh)).

(** [PgNode_a(action)] *)
Definition PgNode_a_init (act : Action) (sh : SHeap) (ah : AHeap)
    : PgNode_a * SHeap * AHeap :=
  let '(a, ah) := alloc ah in
  let '(pre, sh) := precond_s_nodes act sh in
  let '(eff, sh) := effect_s_nodes act sh in
  (mkPgNode_a a act pre eff (set_eq pre eff), sh, ah).

(** ** class PlanningGraph *)

(** Modelled from the spec: the problem is an external collaborator.  The
    module reads its list of ground actions, its literal vocabulary in a
    fixed order, and its goal literals. *)
Record Problem := mkProblem {
  actions_list : list Action;
  state_map : list string;
  goal : list string
}.

(** Modelled from the spec: [FluentState] of lp_utils, a decoded state as
    the lists of its positive and of its negative literals. *)
Record FluentState := mkFluentState {
  pos : list string;
  neg : list string
}.

Record PlanningGraph := mkPlanningGraph {
  problem : Problem;
  fs : FluentState;
  serial : bool;
  all_actions : list Action;
  s_levels : list (list PgNode_s);
  a_levels : list (list PgNode_a);
  goal_states : list PgNode_s;
  s_heap : SHeap;
  a_heap : AHeap
}.

Definition with_s_levels (v : list (list PgNode_s)) (pg : PlanningGraph) :=
  mkPlanningGraph (problem pg) (fs pg) (serial pg) (all_actions pg)
    v (a_levels pg) (goal_states pg) (s_heap pg) (a_heap pg).
Definition with_a_levels (v : list (list PgNode_a)) (pg : PlanningGraph) :=
  mkPlanningGraph (problem pg) (fs pg) (serial pg) (all_actions pg)
    (s_levels pg) v (goal_states pg) (s_heap pg) (a_heap pg).
Definition with_goal_states (v : list PgNode_s) (pg : PlanningGraph) :=
  mkPlanningGraph (problem pg) (fs pg) (serial pg) (all_actions pg)
    (s_levels pg) (a_levels pg) v (s_heap pg) (a_heap pg).
Definition with_s_heap (v : SHeap) (pg : PlanningGraph) :=
  mkPlanningGraph (problem pg) (fs pg) (serial pg) (all_actions pg)
    (s_levels pg) (a_levels pg) (goal_states pg) v (a_heap pg).
Definition with_a_heap (v : AHeap) (pg : PlanningGraph) :=
  mkPlanningGraph (problem pg) (fs pg) (serial pg) (all_actions pg)
    (s_levels pg) (a_levels pg) (goal_states pg) (s_heap pg) v.

Inductive exn :=
  | Exception (msg : string)
  | IndexError
  | DecodeError.

(** How a method of the graph ends: it returns, it raises (the graph is
    left as it was when the exception was raised), or the loop of
    [create_graph] was still running when the fuel ran out. *)
Inductive outcome :=
  | Returned (pg : PlanningGraph)
  | Raised (e : exn) (pg : PlanningGraph)
  | OutOfFuel.

Definition and_then (o : outcome) (k : PlanningGraph → outcome) : outcome :=
  match o with
  | Returned pg => k pg
  | _ => o
  end.

Notation "o >>> k" := (and_then o k) (at level 60, right associativity).

Fixpoint for_each {X} (xs : list X) (body : X → PlanningGraph → outcome)
    (pg : PlanningGraph) : outcome :=
  match xs with
  | [] => Returned pg
  | x :: xs => body x pg >>> for_each xs body
  end.

(** [noop_actions]; the expression [Noop_pos(f)] has the operator
    [Noop_pos], which becomes the name of the action, and the single
    argument [f]. *)
Definition noop_actions (literal_list : list string) : list Action :=
  flat_map (λ fluent,
    [ mkAction "Noop_pos" [fluent] [fluent] [] [fluent] [];
      mkAction "Noop_neg" [fluent] [] [fluent] [] [fluent] ]) literal_list.

(** *** add_action_level *)

(** One of the two precondition loops of [add_action_level]: each
    precondition becomes a new [PgNode_s]; the loop breaks at the first one
    that is not in [previous_s] ([None]), otherwise the new node joins
    [parent_s_nodes]. *)
Fixpoint scan_preconds (polarity : bool) (previous_s : list PgNode_s)
    (preconds : list string) (parent_s_nodes : list PgNode_s) (sh : SHeap)
    : option (list PgNode_s) * SHeap :=
  match preconds with
  | [] => (Some parent_s_nodes, sh)
  | p :: rest =>
      let node_s := PgNode_s_init p polarity sh in
      if negb (set_in node_s.1 previous_s) then (None, node_s.2)
      else scan_preconds polarity previous_s rest
             (set_add node_s.1 parent_s_nodes) node_s.2
  end.

(** [for s_node in self.s_levels[level]: if s_node in parent_s_nodes:
    s_node.children.add(a_node)] *)
Definition link_children (level_nodes parent_s_nodes : list PgNode_s)
    (a_node : PgNode_a) (sh : SHeap) : SHeap :=
  fold_left (λ sh s_node,
               if set_in s_node parent_s_nodes
               then modify (with_children (set_add a_node)) (addr s_node) sh
               else sh) level_nodes sh.

(** The body of [for action in self.all_actions]; [previous_s] is the set
    [self.s_levels[level]], which the body visits but does not change. *)
Definition add_action (level : nat) (previous_s : list PgNode_s)
    (act : Action) (pg : PlanningGraph) : outcome :=
  let r1 := scan_preconds true previous_s (precond_pos act) [] (s_heap pg) in
  match r1.1 with
  | None => Returned (with_s_heap r1.2 pg)
  | Some parents1 =>
      let r2 := scan_preconds false previous_s (precond_neg act) parents1 r1.2 in
      match r2.1 with
      | None => Returned (with_s_heap r2.2 pg)
      | Some parent_s_nodes =>
          let r3 := PgNode_a_init act r2.2 (a_heap pg) in
          let a_node := r3.1.1 in
          let sh := link_children previous_s parent_s_nodes a_node r3.1.2 in
          let ah := modify (with_parents (λ s, set_update s parent_s_nodes))
                      (addr a_node) r3.2 in
          let pg := with_a_heap ah (with_s_heap sh pg) in
          match a_levels pg !! level with
          | None => Raised IndexError pg
          | Some nodes =>
              Returned (with_a_levels (<[level := set_add a_node nodes]> (a_levels pg)) pg)
          end
      end
  end.

Definition add_action_level (level : nat) (pg : PlanningGraph) : outcome :=
  let pg := with_a_levels (a_levels pg ++ [[]]) pg in
  match s_levels pg !! level with
  | None => Raised IndexError pg
  | Some previous_s => for_each (all_actions pg) (add_action level previous_s) pg
  end.

(** *** add_literal_level *)

(** The body of [for effnode in pre_a_node.effnodes]. *)
Definition add_effnode (level : nat) (pre_a_node : PgNode_a)
    (effnode : PgNode_s) (pg : PlanningGraph) : outcome :=
  let sh := modify (with_parents (set_add pre_a_node)) (addr effnode) (s_heap pg) in
  let ah := modify (with_children (set_add effnode)) (addr pre_a_node) (a_heap pg) in
  let pg := with_a_heap ah (with_s_heap sh pg) in
  match s_levels pg !! level with
  | None => Raised IndexError pg
  | Some nodes =>
      Returned (with_s_levels (<[level := set_add effnode nodes]> (s_levels pg)) pg)
  end.

Definition add_literal_level (level : nat) (pg : PlanningGraph) : outcome :=
  let pg := with_s_levels (s_levels pg ++ [[]]) pg in
  match py_index (a_levels pg) (Z.of_nat level - 1) with
  | None => Raised IndexError pg
  | Some pre_a_level =>
      for_each pre_a_level
        (λ pre_a_node, for_each (effnodes pre_a_node) (add_effnode level pre_a_node)) pg
  end.

(** *** The mutex tests between two action nodes *)

Definition serialize_actions (pg : PlanningGraph) (node_a1 node_a2 : PgNode_a) : bool :=
  if negb (serial pg) then false
  else if is_persistent node_a1 || is_persistent node_a2 then false
  else true.

(** [x in xs] for a Python list of expressions. *)
Definition list_in (x : string) (xs : list string) : bool := bool_decide (x ∈ xs).

Definition inconsistent_effects_mutex (node_a1 node_a2 : PgNode_a) : bool :=
  if existsb (λ a1_effect_add, list_in a1_effect_add (effect_rem (action node_a2)))
       (effect_add (action node_a1)) then true
  else if existsb (λ a1_effect_rem, list_in a1_effect_rem (effect_add (action node_a2)))
       (effect_rem (action node_a1)) then true
  else false.

Definition interference_mutex (node_a1 node_a2 : PgNode_a) : bool :=
  if existsb (λ a1_effect_add, list_in a1_effect_add (precond_neg (action node_a2)))
       (effect_add (action node_a1)) then true
  else if existsb (λ a1_effect_rem, list_in a1_effect_rem (precond_pos (action node_a2)))
       (effect_rem (action node_a1)) then true
  else if existsb (λ a1_precond_pos, list_in a1_precond_pos (effect_rem (action node_a2)))
       (precond_pos (action node_a1)) then true
  else if existsb (λ a1_precond_neg, list_in a1_precond_neg (effect_add (action node_a2)))
       (precond_neg (action node_a1)) then true
  else false.

Definition competing_needs_mutex (pg : PlanningGraph) (node_a1 node_a2 : PgNode_a) : bool :=
  existsb (λ a1_parent_s,
     existsb (λ a2_parent_s, is_mutex (s_heap pg) a2_parent_s a1_parent_s)
       (parents (deref (a_heap pg) (addr node_a2))))
    (parents (deref (a_heap pg) (addr node_a1))).

(** *** update_a_mutex *)

(** The double loop shared by [update_a_mutex] and [update_s_mutex]:
    [for i, n1 in enumerate(nodelist[:-1]): for n2 in nodelist[i + 1:]:
       if test(n1, n2): mutexify(n1, n2)]. *)
Definition update_mutex {N} (test : PlanningGraph → N → N → bool)
    (mark : N → N → PlanningGraph → PlanningGraph)
    (nodeset : list N) (pg : PlanningGraph) : PlanningGraph :=
  let nodelist := nodeset in
  fold_left (λ pg '(i, n1),
     fold_left (λ pg n2, if test pg n1 n2 then mark n1 n2 pg else pg)
       (drop (i + 1) nodelist) pg)
    (imap pair (take (length nodelist - 1) nodelist)) pg.

Definition a_mutex_test (pg : PlanningGraph) (n1 n2 : PgNode_a) : bool :=
  serialize_actions pg n1 n2 || inconsistent_effects_mutex n1 n2 ||
  interference_mutex n1 n2 || competing_needs_mutex pg n1 n2.

Definition mutexify_a (n1 n2 : PgNode_a) (pg : PlanningGraph) : PlanningGraph :=
  with_a_heap (mutexify (a_heap pg) n1 n2) pg.

Definition update_a_mutex (nodeset : list PgNode_a) (pg : PlanningGraph) : PlanningGraph :=
  update_mutex a_mutex_test mutexify_a nodeset pg.

(** *** The mutex tests between two literal nodes *)

Definition negation_mutex (node_s1 node_s2 : PgNode_s) : bool :=
  if bool_decide (symbol node_s1 = symbol node_s2)
  then if negb (py_eq node_s1 node_s2) then true else false
  else false.

(** The inner loop of [inconsistent_support_mutex] either runs to its end
    with the current [result], or returns from the function. *)
Inductive loop_exit :=
  | Finished (result : bool)
  | ReturnValue (v : bool).

Fixpoint support_inner (pg : PlanningGraph) (node_s1 node_s2 : PgNode_s)
    (parent_a : PgNode_a) (parents_b : list PgNode_a) (result : bool) : loop_exit :=
  match parents_b with
  | [] => Finished result
  | parent_b :: rest =>
      if is_mutex (a_heap pg) parent_a parent_b then
        let ca := children (deref (a_heap pg) (addr parent_a)) in
        let cb := children (deref (a_heap pg) (addr parent_b)) in
        if (set_in node_s1 ca && set_in node_s2 ca) ||
           (set_in node_s1 cb && set_in node_s2 cb)
        then ReturnValue false
        else support_inner pg node_s1 node_s2 parent_a rest true
      else support_inner pg node_s1 node_s2 parent_a rest result
  end.

Fixpoint support_outer (pg : PlanningGraph) (node_s1 node_s2 : PgNode_s)
    (parents_a parents_b : list PgNode_a) (result : bool) : bool :=
  match parents_a with
  | [] => result
  | parent_a :: rest =>
      match support_inner pg node_s1 node_s2 parent_a parents_b result with
      | ReturnValue v => v
      | Finished result => support_outer pg node_s1 node_s2 rest parents_b result
      end
  end.

Definition inconsistent_support_mutex (pg : PlanningGraph)
    (node_s1 node_s2 : PgNode_s) : bool :=
  support_outer pg node_s1 node_s2
    (parents (deref (s_heap pg) (addr node_s1)))
    (parents (deref (s_heap pg) (addr node_s2))) false.

(** *** update_s_mutex *)

Definition s_mutex_test (pg : PlanningGraph) (n1 n2 : PgNode_s) : bool :=
  negation_mutex n1 n2 || inconsistent_support_mutex pg n1 n2.

Definition mutexify_s (n1 n2 : PgNode_s) (pg : PlanningGraph) : PlanningGraph :=
  with_s_heap (mutexify (s_heap pg) n1 n2) pg.

Definition update_s_mutex (nodeset : list PgNode_s) (pg : PlanningGraph) : PlanningGraph :=
  update_mutex s_mutex_test mutexify_s nodeset pg.

(** *** create_graph *)

(** [self.s_levels[level].add(PgNode_s(literal, polarity))] *)
Definition add_initial (level : nat) (polarity : bool) (lit : string)
    (pg : PlanningGraph) : outcome :=
  let node := PgNode_s_init lit polarity (s_heap pg) in
  let pg := with_s_heap node.2 pg in
  match s_levels pg !! level with
  | None => Raised IndexError pg
  | Some nodes =>
      Returned (with_s_levels (<[level := set_add node.1 nodes]> (s_levels pg)) pg)
  end.

(** One round of [while not leveled]; [continue] is the loop, entered again
    when the new literal level differs from the one before. *)
Definition level_round (level : nat) (pg : PlanningGraph)
    (continue : nat → PlanningGraph → outcome) : outcome :=
  add_action_level level pg >>> λ pg,
  match a_levels pg !! level with
  | None => Raised IndexError pg
  | Some a_level =>
      let pg := update_a_mutex a_level pg in
      let level := level + 1 in
      add_literal_level level pg >>> λ pg,
      match s_levels pg !! level with
      | None => Raised IndexError pg
      | Some s_level =>
          let pg := update_s_mutex s_level pg in
          match s_levels pg !! level, py_index (s_levels pg) (Z.of_nat level - 1) with
          | Some cur, Some prev =>
              if set_eq cur prev then Returned pg else continue level pg
          | _, _ => Raised IndexError pg
          end
      end
  end.

Fixpoint level_loop (fuel : nat) (level : nat) (pg : PlanningGraph) : outcome :=
  match fuel with
  | 0 => OutOfFuel
  | S fuel => level_round level pg (level_loop fuel)
  end.

Definition already_created : string :=
  "Planning Graph already created; construct a new planning graph for each new state in the planning sequence".

Definition create_graph (fuel : nat) (pg : PlanningGraph) : outcome :=
  if negb (Nat.eqb (length (s_levels pg)) 0) || negb (Nat.eqb (length (a_levels pg)) 0)
  then Raised (Exception already_created) pg
  else
    let level := 0 in
    let pg := with_s_levels (s_levels pg ++ [[]]) pg in
    for_each (pos (fs pg)) (add_initial level true) pg >>> λ pg,
    for_each (neg (fs pg)) (add_initial level false) pg >>> λ pg,
    level_loop fuel level pg.

(** *** h_levelsum *)

(** The inner loop of [h_levelsum]: the index of the first level that holds
    the goal, if there is one. *)
Fixpoint first_level (goal_fluent : PgNode_s) (levels : list (list PgNode_s))
    (i : nat) : option nat :=
  match levels with
  | [] => None
  | s_level :: rest =>
      if set_in goal_fluent s_level then Some i
      else first_level goal_fluent rest (S i)
  end.

Definition h_levelsum (pg : PlanningGraph) : nat :=
  fold_left (λ level_sum goal_fluent,
               match first_level goal_fluent (s_levels pg) 0 with
               | Some i => level_sum + i
               | None => level_sum
               end) (goal_states pg) 0.

(** *** The constructor *)

(** Modelled from the spec: [decode_state] of lp_utils is not part of the
    module.  The state string has one character per fluent of the
    vocabulary, in its order; [T] puts the fluent among the positive
    literals and [F] among the negative ones.  A length mismatch or another
    character is a malformed state. *)
Fixpoint decode_state (state : string) (fluent_map : list string)
    : option FluentState :=
  match state, fluent_map with
  | EmptyString, [] => Some (mkFluentState [] [])
  | String c rest, fluent :: fluents =>
      match decode_state rest fluents with
      | None => None
      | Some fs =>
          if bool_decide (c = "T"%char) then Some (mkFluentState (fluent :: pos fs) (neg fs))
          else if bool_decide (c = "F"%char) then Some (mkFluentState (pos fs) (fluent :: neg fs))
          else None
      end
  | _, _ => None
  end.

(** [goal_states.update(set(PgNode_s(s, True) for s in goal))] *)
Definition add_goal (acc : list PgNode_s * SHeap) (s : string) : list PgNode_s * SHeap :=
  let node := PgNode_s_init s true acc.2 in (set_add node.1 acc.1, node.2).

(** [PlanningGraph(problem, state, serial_planning)] *)
Definition PlanningGraph_init (problem : Problem) (state : string)
    (serial_planning : bool) (fuel : nat) : outcome :=
  let blank fs :=
    mkPlanningGraph problem fs serial_planning
      (actions_list problem ++ noop_actions (state_map problem))
      [] [] [] empty_store empty_store in
  match decode_state state (state_map problem) with
  | None => Raised DecodeError (blank (mkFluentState [] []))
  | Some fs =>
      create_graph fuel (blank fs) >>> λ pg,
      let goals := fold_left add_goal (goal problem) ([], s_heap pg) in
      Returned (with_goal_states (set_update [] goals.1) (with_s_heap goals.2 pg))
  end.


(** * Invariants of the construction *)

Section invariants.
Context {P M K : Type} `{PyKey M K} `{HasAddr M}.

(** [st'] comes from [st] by steps that create objects and touch no
    mutex set: the mutex sets of the old objects are as they were and those
    of the new objects are empty. *)
Definition mutex_ext (st st' : Store P M) : Prop :=
  next_addr st ≤ next_addr st' ∧
  (∀ i, i < next_addr st → mutex (deref st' i) = mutex (deref st i)) ∧
  (∀ i, next_addr st ≤ i → i < next_addr st' → mutex (deref st' i) = []).

(** The state of one level: its members differ in key and in address,
    and every mutex entry of a member is another member of the level that
    lists the first one in turn. *)
Definition level_ok (st : Store P M) (L : list M) : Prop :=
  NoDup (py_key <$> L) ∧ NoDup (addr <$> L) ∧
  ∀ x m, x ∈ L → m ∈ mutex (deref st (addr x)) →
    m ∈ L ∧ py_key m ≠ py_key x ∧ x ∈ mutex (deref st (addr m)).

(** The same for the parents sets. *)
Definition parents_ext (st st' : Store P M) : Prop :=
  next_addr st ≤ next_addr st' ∧
  (∀ i, i < next_addr st → parents (deref st' i) = parents (deref st i)) ∧
  (∀ i, next_addr st ≤ i → i < next_addr st' → parents (deref st' i) = []).

(** A set of new objects: different addresses, all of them from [lo] on
    and below [hi]. *)
Definition fresh_set (lo hi : nat) (nodes : list M) : Prop :=
  NoDup (addr <$> nodes) ∧ ∀ n, n ∈ nodes → lo ≤ addr n ∧ addr n < hi.

(** All levels in [Ls] are in order and their nodes are allocated. *)
Definition levels_ok (st : Store P M) (Ls : list (list M)) : Prop :=
  ∀ L, L ∈ Ls → level_ok st L ∧ ∀ x, x ∈ L → addr x < next_addr st.

(** [st'] comes from [st] by [mutexify] on members of [L]. *)
Definition marks_only (L : list M) (st st' : Store P M) : Prop :=
  next_addr st' = next_addr st ∧
  (∀ i, i ∉ addr <$> L → deref st' i = deref st i) ∧
  (∀ i, parents (deref st' i) = parents (deref st i) ∧
        children (deref st' i) = children (deref st i)).
End invariants.

(** The fields of the graph that construction only reads. *)
Definition same_static (pg pg' : PlanningGraph) : Prop :=
  problem pg' = problem pg ∧ fs pg' = fs pg ∧ serial pg' = serial pg ∧
  all_actions pg' = all_actions pg ∧ goal_states pg' = goal_states pg.

(** Every level built so far is in order, and its nodes are allocated. *)
Definition graph_ok (pg : PlanningGraph) : Prop :=
  levels_ok (s_heap pg) (s_levels pg) ∧ levels_ok (a_heap pg) (a_levels pg).

(** ** The links between the levels *)

(** How the graph is linked: a literal node has at most one parent, and the
    parents of an action node are allocated nodes with an empty mutex
    set. *)
Definition links_ok (pg : PlanningGraph) : Prop :=
  (∀ i, i < next_addr (s_heap pg) →
     length (parents (deref (s_heap pg) i)) ≤ 1) ∧
  (∀ i p, i < next_addr (a_heap pg) → p ∈ parents (deref (a_heap pg) i) →
     addr p < next_addr (s_heap pg) ∧ mutex (deref (s_heap pg) (addr p)) = []).

(** The links while [add_action_level] runs: the parents of the literal
    nodes and of the older action nodes are untouched; the parents of a new
    action node are new literal nodes, none of them an effect node of the
    level under construction. *)
Definition action_level_links (pg0 pg : PlanningGraph) : Prop :=
  parents_ext (s_heap pg0) (s_heap pg) ∧
  (∀ i, i < next_addr (a_heap pg0) →
     parents (deref (a_heap pg) i) = parents (deref (a_heap pg0) i)) ∧
  (∀ i p Lcur, last (a_levels pg) = Some Lcur →
     next_addr (a_heap pg0) ≤ i → i < next_addr (a_heap pg) →
     p ∈ parents (deref (a_heap pg) i) →
     next_addr (s_heap pg0) ≤ addr p ∧ addr p < next_addr (s_heap pg) ∧
     addr p ∉ addr <$> (Lcur ≫= effnodes)).

(** The links while [add_literal_level] runs, after the effect nodes
    [Eseen]: the parents of the action nodes are untouched, and so are those
    of the literal nodes other than [Eseen], which have one parent at
    most. *)
Definition literal_level_links (pg0 : PlanningGraph) (Eseen : list PgNode_s)
    (pg : PlanningGraph) : Prop :=
  (∀ i, parents (deref (a_heap pg) i) = parents (deref (a_heap pg0) i)) ∧
  (∀ i, i ∉ addr <$> Eseen →
     parents (deref (s_heap pg) i) = parents (deref (s_heap pg0) i)) ∧
  (∀ i, i ∈ addr <$> Eseen → length (parents (deref (s_heap pg) i)) ≤ 1).

(** * The levels as sets of literals

    What a level contains does not depend on the addresses of its nodes.
    The functions below compute the members of the next action level and of
    the next literal level from the literals of the current one, with the
    same set operations as the module, on keys instead of nodes. *)

#[global] Instance literal_eq : PyEq literal := λ a b, bool_decide (a = b).
#[global] Instance literal_key : PyKey literal literal := id.

Definition lits (polarity : bool) (ps : list string) : list literal :=
  (λ p, (p, polarity)) <$> ps.

(** The keys of [precond_s_nodes] and of [effect_s_nodes]. *)
Definition pre_keys (act : Action) : list literal :=
  set_update (set_update [] (lits true (precond_pos act))) (lits false (precond_neg act)).
Definition eff_keys (act : Action) : list literal :=
  set_update (set_update [] (lits true (effect_add act))) (lits false (effect_rem act)).

(** [is_persistent] of the node of an action. *)
Definition persistent (act : Action) : bool := set_eq (pre_keys act) (eff_keys act).

Definition act_key (act : Action) : action_id := (name act, args act, persistent act).

#[global] Instance action_id_eq : PyEq action_id := λ a b, bool_decide (a = b).
#[global] Instance action_id_key : PyKey action_id action_id := id.
#[global] Instance Action_eq : PyEq Action := λ a b, bool_decide (act_key a = act_key b).
#[global] Instance Action_key : PyKey Action action_id := act_key.

(** The action passes both precondition loops of [add_action_level]. *)
Definition enabled (ks : list literal) (act : Action) : bool :=
  forallb (λ p, set_in (p, true) ks) (precond_pos act) &&
  forallb (λ p, set_in (p, false) ks) (precond_neg act).

Definition next_actions (acts : list Action) (ks : list literal) : list Action :=
  fold_left (λ L act, if enabled ks act then set_add act L else L) acts [].

Definition next_literals (acts : list Action) (ks : list literal) : list literal :=
  set_update [] (next_actions acts ks ≫= eff_keys).

(** The state of the graph while [add_action_level] runs, after the
    actions [seen]: [pg0] is the graph at the call, [prev] the literal
    level the actions are matched against. *)
Definition action_level_inv (pg0 : PlanningGraph) (prev : list PgNode_s)
    (seen : list Action) (pg : PlanningGraph) : Prop :=
  same_static pg0 pg ∧ s_levels pg = s_levels pg0 ∧
  mutex_ext (s_heap pg0) (s_heap pg) ∧ mutex_ext (a_heap pg0) (a_heap pg) ∧
  ∃ Lcur, a_levels pg = a_levels pg0 ++ [Lcur] ∧
    NoDup (py_key <$> Lcur) ∧
    fresh_set (next_addr (a_heap pg0)) (next_addr (a_heap pg)) Lcur ∧
    fresh_set (next_addr (s_heap pg0)) (next_addr (s_heap pg)) (Lcur ≫= effnodes) ∧
    (∀ a, a ∈ Lcur → is_persistent a = persistent (action a) ∧
                      py_key <$> effnodes a = eff_keys (action a)) ∧
    action <$> Lcur = next_actions seen (py_key <$> prev).

(** The state of the graph while [add_literal_level] runs: [pg0] is the
    graph at the call and [L] the new level so far. *)
Definition literal_level_inv (pg0 : PlanningGraph) (L : list PgNode_s)
    (pg : PlanningGraph) : Prop :=
  same_static pg0 pg ∧ a_levels pg = a_levels pg0 ∧
  s_levels pg = s_levels pg0 ++ [L] ∧
  mutex_ext (s_heap pg0) (s_heap pg) ∧ mutex_ext (a_heap pg0) (a_heap pg) ∧
  next_addr (s_heap pg) = next_addr (s_heap pg0) ∧
  next_addr (a_heap pg) = next_addr (a_heap pg0).

(** * Example problems *)

(** Two actions without preconditions, one adds [P], the other adds [Q];
    both fluents are false in the initial state [FF]. *)
Definition two_adds : Problem :=
  mkProblem
    [ mkAction "A1" [] [] [] ["P"] [];
      mkAction "A2" [] [] [] ["Q"] [] ]
    ["P"; "Q"] ["P"; "Q"].

(** No action at all; in the state [TF] the goal [G] is false and nothing
    can make it true. *)
Definition unreachable_goal : Problem := mkProblem [] ["P"; "G"] ["G"].

(** The same vocabulary with a goal that holds in the state [TF]. *)
Definition goal_at_start : Problem := mkProblem [] ["P"; "G"] ["P"].

(** A vocabulary of one fluent.  Two actions of the problem carry the names
    and arguments of the no-op actions of [P] and have neither
    preconditions nor effects; [Off] turns [P] off and [On] turns it on. *)
Definition flip_flop : Problem :=
  mkProblem
    [ mkAction "Noop_pos" ["P"] [] [] [] [];
      mkAction "Noop_neg" ["P"] [] [] [] [];
      mkAction "Off" ["P"] ["P"] [] [] ["P"];
      mkAction "On" ["P"] [] ["P"] ["P"] [] ]
    ["P"] ["P"].

(** A vocabulary of one fluent and four actions whose effects [R1] to [R4]
    are not fluents of the vocabulary; each action needs the effect of the
    one before. *)
Definition chain_outside : Problem :=
  mkProblem
    [ mkAction "Step1" [] ["P"] [] ["R1"] [];
      mkAction "Step2" [] ["R1"] [] ["R2"] [];
      mkAction "Step3" [] ["R2"] [] ["R3"] [];
      mkAction "Step4" [] ["R3"] [] ["R4"] [] ]
    ["P"] ["R4"].

Definition blank_graph : PlanningGraph :=
  mkPlanningGraph (mkProblem [] [] []) (mkFluentState [] []) true [] [] [] []
    empty_store empty_store.

(** The graph a call returned, for use in examples. *)
Definition returned (o : outcome) : PlanningGraph :=
  match o with
  | Returned pg => pg
  | _ => blank_graph
  end.

(** Five nodes set up by hand, as a test of [inconsistent_support_mutex]
    would: the literal [s1] has the two producers [a1] and [a2], the literal
    [s2] has the producer [b], and only [a1] and [b] are mutex. *)
Record support_nodes := mkSupportNodes {
  sn_graph : PlanningGraph;
  sn_s1 : PgNode_s;
  sn_s2 : PgNode_s;
  sn_a1 : PgNode_a;
  sn_a2 : PgNode_a;
  sn_b : PgNode_a
}.

Definition support_case : support_nodes :=
  let s1 := PgNode_s_init "P" true empty_store in
  let s2 := PgNode_s_init "Q" true s1.2 in
  let a1 := PgNode_a_init (mkAction "A1" [] [] [] ["P"] []) s2.2 empty_store in
  let a2 := PgNode_a_init (mkAction "A2" [] [] [] ["P"] []) a1.1.2 a1.2 in
  let b := PgNode_a_init (mkAction "B" [] [] [] ["Q"] []) a2.1.2 a2.2 in
  let sh := b.1.2 in
  let ah := b.2 in
  (* s1.parents = {a1, a2}; s2.parents = {b} *)
  let sh := modify (with_parents (set_add a1.1.1)) (addr s1.1) sh in
  let sh := modify (with_parents (set_add a2.1.1)) (addr s1.1) sh in
  let sh := modify (with_parents (set_add b.1.1)) (addr s2.1) sh in
  (* a1.children = {s1}; a2.children = {s1}; b.children = {s2} *)
  let ah := modify (with_children (set_add s1.1)) (addr a1.1.1) ah in
  let ah := modify (with_children (set_add s1.1)) (addr a2.1.1) ah in
  let ah := modify (with_children (set_add s2.1)) (addr b.1.1) ah in
  (* mutexify(a1, b) *)
  let ah := mutexify ah a1.1.1 b.1.1 in
  mkSupportNodes (with_a_heap ah (with_s_heap sh blank_graph))
    s1.1 s2.1 a1.1.1 a2.1.1 b.1.1.

(** The test at the heart of [inconsistent_support_mutex]: one of the two
    parents has both literals among its children. *)
Definition produces_both (pg : PlanningGraph) (node_s1 node_s2 : PgNode_s)
    (parent_a parent_b : PgNode_a) : bool :=
  (set_in node_s1 (children (deref (a_heap pg) (addr parent_a))) &&
   set_in node_s2 (children (deref (a_heap pg) (addr parent_a)))) ||
  (set_in node_s1 (children (deref (a_heap pg) (addr parent_b))) &&
   set_in node_s2 (children (deref (a_heap pg) (addr parent_b)))).

(** The members of a level with a given key. *)
Definition find_s (sym : string) (polarity : bool) (L : list PgNode_s) : list PgNode_s :=
  filter (λ n, s_key n = (sym, polarity)) L.
Definition find_a (nm : string) (ar : list string) (L : list PgNode_a) : list PgNode_a :=
  filter (λ n, (name (action n), args (action n)) = (nm, ar)) L.

(** * Leveling off *)

(** Both polarities of every fluent of the vocabulary. *)
Definition vocabulary_literals (vocabulary : list string) : list literal :=
  lits true vocabulary ++ lits false vocabulary.

(** No two actions of the list have the same name and arguments. *)
Definition distinct_names (acts : list Action) : Prop :=
  NoDup ((λ act, (name act, args act)) <$> acts).

(** The effects of the action are fluents of the vocabulary. *)
Definition effects_within (vocabulary : list string) (act : Action) : Prop :=
  Forall (λ e, e ∈ vocabulary) (effect_add act ++ effect_rem act).

#[global] Instance distinct_names_dec acts : Decision (distinct_names acts).
Proof. unfold distinct_names. apply _. Defined.

#[global] Instance effects_within_dec vocabulary act :
  Decision (effects_within vocabulary act).
Proof. unfold effects_within. apply _. Defined.

(** Every literal level is contained in the next one. *)
Definition levels_monotone (Ls : list (list PgNode_s)) : Prop :=
  ∀ k L L', Ls !! k = Some L → Ls !! S k = Some L' →
    ∀ x, x ∈ L → set_in x L' = true.

(** * The rest of the module *)

(** ** The pairs that a mutex update visits *)

(** The double loop of [update_mutex] by recursion on the node list: a
    node is paired with every node that comes after it. *)
Fixpoint pairs_loop {N} (test : PlanningGraph → N → N → bool)
    (mark : N → N → PlanningGraph → PlanningGraph)
    (nodelist : list N) (pg : PlanningGraph) : PlanningGraph :=
  match nodelist with
  | [] => pg
  | n1 :: rest =>
      pairs_loop test mark rest
        (fold_left (λ pg n2, if test pg n1 n2 then mark n1 n2 pg else pg) rest pg)
  end.

(** The tests of [update_a_mutex] that read the two actions and the serial
    switch of the graph, and nothing of the links. *)
Definition static_a_test (pg : PlanningGraph) (n1 n2 : PgNode_a) : bool :=
  serialize_actions pg n1 n2 || inconsistent_effects_mutex n1 n2 ||
  interference_mutex n1 n2.

(** ** The level cost of a goal *)

(** The index of the first literal level that holds the positive literal
    of the fluent [g]; 0 when no level holds it. *)
Definition level_cost (levels : list (list PgNode_s)) (g : string) : nat :=
  from_option fst 0 (list_find (λ L, (g, true) ∈ s_key <$> L) levels).

(** Two action nodes set up by hand, as a test of [update_a_mutex] would:
    two actions of a problem without preconditions, each adding a fluent
    of its own. *)
Definition hand_a1 : PgNode_a :=
  mkPgNode_a 0 (mkAction "A1" [] [] [] ["P"] []) [] [mkPgNode_s 0 "P" true] false.
Definition hand_a2 : PgNode_a :=
  mkPgNode_a 1 (mkAction "A2" [] [] [] ["Q"] []) [] [mkPgNode_s 1 "Q" true] false.

(** Two literal nodes set up by hand: a fluent and its negation. *)
Definition hand_p : PgNode_s := mkPgNode_s 0 "P" true.
Definition hand_not_p : PgNode_s := mkPgNode_s 1 "P" false.

(** * The rounds of [create_graph] *)

(** What [add_action_level] does to the heap of the action nodes: the
    objects that were there are left alone, a new object has no children,
    and the parents of a node of the new level are nodes for the
    preconditions of its action. *)
Definition action_level_heap (pg0 pg : PlanningGraph) : Prop :=
  (∀ i, i < next_addr (a_heap pg0) → deref (a_heap pg) i = deref (a_heap pg0) i) ∧
  (∀ i, next_addr (a_heap pg0) ≤ i → i < next_addr (a_heap pg) →
     children (deref (a_heap pg) i) = []) ∧
  (∀ Lcur a, last (a_levels pg) = Some Lcur → a ∈ Lcur →
     py_key <$> parents (deref (a_heap pg) (addr a)) = pre_keys (action a)).

(** The action passes the precondition loops of [add_action_level] on the
    literals [ks] and has the literal [k] among its preconditions. *)
Definition feeds (ks : list literal) (k : literal) (act : Action) : Prop :=
  enabled ks act = true ∧ k ∈ pre_keys act.

#[global] Instance feeds_dec ks k act : Decision (feeds ks k act).
Proof. unfold feeds. apply _. Defined.

(** What [add_action_level] has done to the children of the literal
    nodes after the actions [seen]: only the nodes of the level [prev] get
    children, a new object has none, and a node of [prev] has got the
    nodes of the actions that it feeds. *)
Definition action_level_children (pg0 : PlanningGraph) (prev : list PgNode_s)
    (seen : list Action) (pg : PlanningGraph) : Prop :=
  (∀ i, i ∉ addr <$> prev → i < next_addr (s_heap pg0) →
     children (deref (s_heap pg) i) = children (deref (s_heap pg0) i)) ∧
  (∀ i, next_addr (s_heap pg0) ≤ i → i < next_addr (s_heap pg) →
     children (deref (s_heap pg) i) = []) ∧
  (∀ s, s ∈ prev →
     py_key <$> children (deref (s_heap pg) (addr s)) =
       set_update (py_key <$> children (deref (s_heap pg0) (addr s)))
         (act_key <$> filter (feeds (py_key <$> prev) (py_key s)) seen) ∧
     ∀ c, c ∈ children (deref (s_heap pg) (addr s)) →
       c ∈ children (deref (s_heap pg0) (addr s)) ∨
       (action c ∈ seen ∧ feeds (py_key <$> prev) (py_key s) (action c) ∧
        is_persistent c = persistent (action c))).

(** The pairs of an action node and one of its effect nodes, in the order
    in which [add_literal_level] visits them. *)
Definition effect_pairs (A : list PgNode_a) : list (PgNode_a * PgNode_s) :=
  A ≫= λ a, pair a <$> effnodes a.

(** What [add_literal_level] has done to the two heaps after the pairs
    [visited]: an action node has its effect nodes as further children, an
    effect node has its action node as a further parent. *)
Definition literal_level_heap (pg0 : PlanningGraph)
    (visited : list (PgNode_a * PgNode_s)) (pg : PlanningGraph) : Prop :=
  (∀ i, deref (a_heap pg) i =
        with_children
          (λ c, set_update c (snd <$> filter (λ p, addr p.1 = i) visited))
          (deref (a_heap pg0) i)) ∧
  (∀ i, deref (s_heap pg) i =
        with_parents
          (λ c, set_update c (fst <$> filter (λ p, addr p.2 = i) visited))
          (deref (s_heap pg0) i)).

(** One round of the loop of [create_graph] takes [pg], with [level]
    action levels and the last literal level [prev], to [pg']: [pg1] is the
    graph after [add_action_level], [A] the new action level, [pg3] the
    graph after [add_literal_level] and [L] the new literal level. *)
Record round_of (level : nat) (pg : PlanningGraph) (prev : list PgNode_s)
    (A : list PgNode_a) (L : list PgNode_s) (pg1 pg3 pg' : PlanningGraph) : Prop :=
  mk_round_of {
    ro_prev : s_levels pg !! level = Some prev;
    ro_action : action_level_inv pg prev (all_actions pg) pg1;
    ro_a_level : a_levels pg1 = a_levels pg ++ [A];
    ro_action_links : action_level_links pg pg1;
    ro_action_heap : action_level_heap pg pg1;
    ro_action_children : action_level_children pg prev (all_actions pg) pg1;
    ro_literal : literal_level_inv (update_a_mutex A pg1) L pg3;
    ro_literal_links :
      literal_level_links (update_a_mutex A pg1) (A ≫= effnodes) pg3;
    ro_literal_heap :
      literal_level_heap (update_a_mutex A pg1) (effect_pairs A) pg3;
    ro_L : L = set_update [] (A ≫= effnodes);
    ro_result : pg' = update_s_mutex L pg3
  }.

(** The graph when the loop of [create_graph] is entered: one literal
    level of new nodes for the state, no action level, and no link or mark
    anywhere. *)
Record initial_of (pb : Problem) (fs0 : FluentState) (serial_planning : bool)
    (L0 : list PgNode_s) (pg : PlanningGraph) : Prop :=
  mk_initial_of {
    io_problem : problem pg = pb;
    io_fs : fs pg = fs0;
    io_serial : serial pg = serial_planning;
    io_actions : all_actions pg = actions_list pb ++ noop_actions (state_map pb);
    io_a_levels : a_levels pg = [];
    io_s_levels : s_levels pg = [L0];
    io_a_heap : a_heap pg = empty_store;
    io_s_heap : ∀ i, deref (s_heap pg) i = PgNode_init;
    io_fresh : fresh_set 0 (next_addr (s_heap pg)) L0;
    io_keys :
      py_key <$> L0 =
        set_update (set_update [] (lits true (pos fs0))) (lits false (neg fs0))
  }.

(** [st'] comes from [st] by creating objects. *)
Definition alloc_ext {P M : Type} (st st' : Store P M) : Prop :=
  next_addr st ≤ next_addr st' ∧
  (∀ i, i < next_addr st → deref st' i = deref st i) ∧
  (∀ i, next_addr st ≤ i → i < next_addr st' → deref st' i = PgNode_init).

(** How the levels of a graph hang together: one literal level more than
    action levels; the actions of an action level are those that the
    literal level before it enables, its nodes carry the persistence flag
    and the effect literals of their actions, and the literal level after
    it is the set of the effect nodes of its nodes. *)
Definition levels_linked (pg : PlanningGraph) : Prop :=
  length (s_levels pg) = S (length (a_levels pg)) ∧
  ∀ i prev A L,
    s_levels pg !! i = Some prev → a_levels pg !! i = Some A →
    s_levels pg !! S i = Some L →
    NoDup (py_key <$> A) ∧
    action <$> A = next_actions (all_actions pg) (py_key <$> prev) ∧
    (∀ a, a ∈ A → is_persistent a = persistent (action a) ∧
                   py_key <$> effnodes a = eff_keys (action a)) ∧
    L = set_update [] (A ≫= effnodes).

(** The initial literal level is as [create_graph] made it: no node of it
    has a parent or is marked mutex with another node. *)
Definition initial_level_clean (pg : PlanningGraph) : Prop :=
  ∃ L0, s_levels pg !! 0 = Some L0 ∧
    py_key <$> L0 =
      set_update (set_update [] (lits true (pos (fs pg)))) (lits false (neg (fs pg))) ∧
    ∀ n, n ∈ L0 →
      parents (deref (s_heap pg) (addr n)) = [] ∧
      mutex (deref (s_heap pg) (addr n)) = [].

(** The graph of [two_adds] in the state [FF], and the nodes of a graph by
    level and by place in the level. *)
Definition two_adds_graph : PlanningGraph :=
  returned (PlanningGraph_init two_adds "FF" true 2).

Definition s_level (pg : PlanningGraph) (level : nat) : list PgNode_s :=
  default [] (s_levels pg !! level).
Definition a_level (pg : PlanningGraph) (level : nat) : list PgNode_a :=
  default [] (a_levels pg !! level).
Definition s_node (pg : PlanningGraph) (level k : nat) : PgNode_s :=
  default hand_p (s_level pg level !! k).
Definition a_node (pg : PlanningGraph) (level k : nat) : PgNode_a :=
  default hand_a1 (a_level pg level !! k).

(** The links of a graph, level by level: the children of an action node
    are its effect nodes; its parents are nodes for its preconditions, and
    they are objects of their own, none of them a node of a literal level;
    a node of a literal level after the initial one has one parent, the
    action node whose effect node it is. *)
Definition levels_wired (pg : PlanningGraph) : Prop :=
  (∀ A a, A ∈ a_levels pg → a ∈ A →
     children (deref (a_heap pg) (addr a)) = effnodes a ∧
     py_key <$> parents (deref (a_heap pg) (addr a)) = pre_keys (action a) ∧
     ∀ p, p ∈ parents (deref (a_heap pg) (addr a)) →
       addr p < next_addr (s_heap pg) ∧
       ∀ L x, L ∈ s_levels pg → x ∈ L → addr x ≠ addr p) ∧
  (∀ i A L x, a_levels pg !! i = Some A → s_levels pg !! S i = Some L → x ∈ L →
     ∃ a, a ∈ A ∧ x ∈ effnodes a ∧ parents (deref (s_heap pg) (addr x)) = [a]).

(** ** Hashing *)

(** [PgNode_s.__hash__] and [PgNode_a.__hash__].  Python's [hash] of a
    symbol or name and of a tuple of arguments are given; [hash(True)] is 1
    and [hash(False)] is 0.  A node keeps the hash of the first call in its
    attribute [__hash], which starts as [None]; [cached or fresh] takes the
    fresh value when the cached one is [None] or 0. *)
Section hashing.
Variable hash_expr : string → Z.
Variable hash_args : list string → Z.

Definition hash_bool (b : bool) : Z := if b then 1%Z else 0%Z.

Definition cached_or (cached : option Z) (fresh : Z) : Z :=
  match cached with
  | Some h => if (h =? 0)%Z then fresh else h
  | None => fresh
  end.

Definition PgNode_s_hash (self : PgNode_s) (cache : option Z) : Z * option Z :=
  let h := cached_or cache
             (Z.lxor (hash_expr (symbol self)) (hash_bool (is_pos self))) in
  (h, Some h).

Definition PgNode_a_hash (self : PgNode_a) (cache : option Z) : Z * option Z :=
  let h := cached_or cache
             (Z.lxor (hash_expr (name (action self)))
                     (hash_args (args (action self)))) in
  (h, Some h).

(** The attribute [__hash] of a node after a number of calls. *)
Definition s_hash_cache (self : PgNode_s) (calls : nat) : option Z :=
  Nat.iter calls (λ cache, (PgNode_s_hash self cache).2) None.
Definition a_hash_cache (self : PgNode_a) (calls : nat) : option Z :=
  Nat.iter calls (λ cache, (PgNode_a_hash self cache).2) None.
End hashing.

(** No two levels of the graph share a node object: the objects of a
    level are older than those of every later level. *)
Definition levels_apart {M : Type} `{HasAddr M} (Ls : list (list M)) : Prop :=
  ∀ i j Li Lj x y, Ls !! i = Some Li → Ls !! j = Some Lj → i < j →
    x ∈ Li → y ∈ Lj → addr x < addr y.

(** The children of the nodes of the literal levels.  The children of a
    node of the literal level [i] are nodes of actions that have its
    literal as a precondition, each equal to a node of the action level
    [i]; among them is one equal to every node of that level whose action
    has the literal as a precondition.  A node of the last literal level
    has no children. *)
Definition levels_fed (pg : PlanningGraph) : Prop :=
  ∀ i L s, s_levels pg !! i = Some L → s ∈ L →
    match a_levels pg !! i with
    | Some A =>
        (∀ a, a ∈ A → py_key s ∈ pre_keys (action a) →
           set_in a (children (deref (s_heap pg) (addr s))) = true) ∧
        (∀ c, c ∈ children (deref (s_heap pg) (addr s)) →
           py_key s ∈ pre_keys (action c) ∧ set_in c A = true)
    | None => children (deref (s_heap pg) (addr s)) = []
    end.

(** The literal of the node is among the preconditions of the action. *)
Definition precondition_of (s : PgNode_s) (act : Action) : Prop :=
  if is_pos s then symbol s ∈ precond_pos act else symbol s ∈ precond_neg act.
(** * Properties *)

(** ** Node equality *)

#[global] Instance PgNode_s_key_law : PyKeyLaw PgNode_s literal.
Proof.
  intros x y. unfold py_eq, PgNode_s_eq, py_key, PgNode_s_key, s_key.
  rewrite andb_true_iff, !bool_decide_eq_true. split.
  - intros [-> ->]. done.
  - intros [= -> ->]. done.
Qed.

#[global] Instance PgNode_a_key_law : PyKeyLaw PgNode_a action_id.
Proof.
  intros x y. unfold py_eq, PgNode_a_eq, py_key, PgNode_a_key, a_key.
  rewrite !andb_true_iff, !bool_decide_eq_true. split.
  - intros [[-> ->] ->]. done.
  - intros [= -> -> ->]. done.
Qed.


(** ** Folds and loops *)

Lemma fold_left_inv {A B} (I : A → Prop) (f : A → B → A) (l : list B) (a : A) :
  I a → (∀ a x, x ∈ l → I a → I (f a x)) → I (fold_left f l a).
Proof.
  revert a. induction l as [|x l IH]; intros a Ha Hstep; simpl; [done|].
  apply IH.
  - apply Hstep; [left | done].
  - intros a' y Hy. apply Hstep. by right.
Qed.

(** A loop whose body always returns, with an invariant indexed by the
    part of the list already visited. *)
Lemma for_each_inv {X} (I : list X → PlanningGraph → Prop)
    (xs : list X) (body : X → PlanningGraph → outcome) (pg : PlanningGraph) :
  I [] pg →
  (∀ seen x pg, I seen pg → x ∈ xs →
     ∃ pg', body x pg = Returned pg' ∧ I (seen ++ [x]) pg') →
  ∃ pg', for_each xs body pg = Returned pg' ∧ I xs pg'.
Proof.
  intros H0 Hstep.
  assert (∀ seen rest pg, seen ++ rest = xs → I seen pg →
            ∃ pg', for_each rest body pg = Returned pg' ∧ I xs pg') as Hgen.
  { intros seen rest. revert seen.
    induction rest as [|x rest IH]; intros seen pg0 Heq HI; simpl.
    - rewrite app_nil_r in Heq. subst. eauto.
    - destruct (Hstep seen x pg0 HI) as (pg1 & -> & HI1).
      { rewrite <- Heq. apply elem_of_app. right. left. }
      simpl. apply (IH (seen ++ [x])); [|done].
      by rewrite <- app_assoc. }
  by apply (Hgen [] xs).
Qed.

(** The same, where the body may use what is left of the list. *)
Lemma for_each_inv_pos {X} (I : list X → PlanningGraph → Prop)
    (xs : list X) (body : X → PlanningGraph → outcome) (pg : PlanningGraph) :
  I [] pg →
  (∀ seen x rest pg, xs = seen ++ x :: rest → I seen pg →
     ∃ pg', body x pg = Returned pg' ∧ I (seen ++ [x]) pg') →
  ∃ pg', for_each xs body pg = Returned pg' ∧ I xs pg'.
Proof.
  intros H0 Hstep.
  assert (∀ seen rest pg, seen ++ rest = xs → I seen pg →
            ∃ pg', for_each rest body pg = Returned pg' ∧ I xs pg') as Hgen.
  { intros seen rest. revert seen.
    induction rest as [|x rest IH]; intros seen pg0 Heq HI; simpl.
    - rewrite app_nil_r in Heq. subst. eauto.
    - destruct (Hstep seen x rest pg0 (eq_sym Heq) HI) as (pg1 & -> & HI1).
      simpl. apply (IH (seen ++ [x])); [|done].
      by rewrite <- app_assoc. }
  by apply (Hgen [] xs).
Qed.

(** ** Python sets *)

Section pyset_facts.
Context {A K : Type} `{PyKeyLaw A K}.

Lemma set_in_true (x : A) (s : list A) :
  set_in x s = true ↔ ∃ y, y ∈ s ∧ py_key y = py_key x.
Proof.
  unfold set_in. rewrite existsb_exists. split.
  - intros (y & Hy & Heq). exists y. split; [by apply list_elem_of_In|].
    by apply py_eq_key.
  - intros (y & Hy & Heq). exists y. split; [by apply list_elem_of_In|].
    by apply py_eq_key.
Qed.

Lemma set_in_key (x : A) (s : list A) :
  set_in x s = true ↔ py_key x ∈ py_key <$> s.
Proof.
  rewrite set_in_true, list_elem_of_fmap. split.
  - intros (y & Hy & Heq). eauto.
  - intros (y & Heq & Hy). eauto.
Qed.

Lemma set_in_false (x : A) (s : list A) :
  set_in x s = false ↔ py_key x ∉ py_key <$> s.
Proof. rewrite <- set_in_key. by destruct (set_in x s). Qed.

Lemma set_in_same_key (x y : A) (s : list A) :
  py_key x = py_key y → set_in x s = set_in y s.
Proof.
  intros Heq. apply eq_true_iff_eq. rewrite !set_in_key. by rewrite Heq.
Qed.

Lemma elem_of_set_add (y x : A) (s : list A) :
  y ∈ set_add x s ↔ y ∈ s ∨ (set_in x s = false ∧ y = x).
Proof.
  unfold set_add. destruct (set_in x s) eqn:E.
  - split; [by left | by intros [?|[? ?]]].
  - rewrite elem_of_app, list_elem_of_singleton. split.
    + intros [?|?]; [by left | by right].
    + intros [?|[_ ?]]; [by left | by right].
Qed.

Lemma set_add_incl (y x : A) (s : list A) : y ∈ s → y ∈ set_add x s.
Proof. intros. apply elem_of_set_add. by left. Qed.

Lemma set_in_set_add (y x : A) (s : list A) :
  set_in y (set_add x s) = set_in y s || py_eq x y.
Proof.
  unfold set_add. destruct (set_in x s) eqn:E.
  - destruct (py_eq x y) eqn:E2; [|by rewrite orb_false_r].
    apply py_eq_key in E2. rewrite <- (set_in_same_key x y s E2), E. done.
  - unfold set_in. rewrite existsb_app. simpl. by rewrite orb_false_r.
Qed.

Lemma set_add_NoDup_key (x : A) (s : list A) :
  NoDup (py_key <$> s) → NoDup (py_key <$> set_add x s).
Proof.
  intros Hnd. unfold set_add. destruct (set_in x s) eqn:E; [done|].
  rewrite fmap_app. apply NoDup_app. split; [done|]. split.
  - intros k Hk. simpl. rewrite list_elem_of_singleton. intros ->.
    by apply set_in_false in E.
  - simpl. apply NoDup_singleton.
Qed.

Lemma elem_of_set_update (y : A) (s xs : list A) :
  y ∈ set_update s xs → y ∈ s ∨ y ∈ xs.
Proof.
  unfold set_update. revert s. induction xs as [|x xs IH]; intros s; simpl.
  - by left.
  - intros Hy. apply IH in Hy as [Hy|Hy]; [|right; by right].
    apply elem_of_set_add in Hy as [Hy|[_ ->]]; [by left|right; left].
Qed.

Lemma set_in_set_update (y : A) (s xs : list A) :
  set_in y (set_update s xs) = set_in y s || set_in y xs.
Proof.
  unfold set_update. revert s. induction xs as [|x xs IH]; intros s; simpl.
  - by rewrite orb_false_r.
  - rewrite IH, set_in_set_add. unfold set_in at 3. simpl.
    by rewrite orb_assoc.
Qed.

Lemma set_update_NoDup_key (s xs : list A) :
  NoDup (py_key <$> s) → NoDup (py_key <$> set_update s xs).
Proof.
  unfold set_update. revert s. induction xs as [|x xs IH]; intros s; simpl; [done|].
  intros Hnd. apply IH. by apply set_add_NoDup_key.
Qed.

Lemma set_update_sublist (s xs : list A) : set_update s xs `sublist_of` s ++ xs.
Proof.
  unfold set_update. revert s. induction xs as [|x xs IH]; intros s; simpl.
  - by rewrite app_nil_r.
  - etrans; [apply IH|]. unfold set_add. destruct (set_in x s).
    + apply sublist_app; [done|]. by apply sublist_cons.
    + by rewrite <- app_assoc.
Qed.

(** The key of a member decides which member it is. *)
Lemma NoDup_key_inj (s : list A) (x y : A) :
  NoDup (py_key <$> s) → x ∈ s → y ∈ s → py_key x = py_key y → x = y.
Proof.
  intros Hnd Hx Hy Heq.
  apply list_elem_of_lookup in Hx as [i Hi].
  apply list_elem_of_lookup in Hy as [j Hj].
  assert (i = j) as ->.
  { eapply NoDup_lookup; [exact Hnd| |];
      rewrite list_lookup_fmap; [rewrite Hi|rewrite Hj]; simpl; by rewrite ?Heq. }
  congruence.
Qed.

Lemma forallb_set_in (s1 s2 : list A) :
  forallb (λ x, set_in x s2) s1 = true ↔ ∀ x, x ∈ s1 → set_in x s2 = true.
Proof.
  rewrite forallb_forall. split; intros Hall x Hx; apply Hall;
    by apply list_elem_of_In.
Qed.
End pyset_facts.

(** ** The store *)

Section store_facts.
Context {P M : Type}.
Implicit Types st : Store P M.

Lemma deref_modify (f : PgNode P M → PgNode P M) i j st :
  deref (modify f i st) j = if decide (i = j) then f (deref st i) else deref st j.
Proof.
  unfold deref at 1, modify. simpl. destruct (decide (i = j)) as [->|Hne].
  - by rewrite lookup_insert_eq.
  - by rewrite lookup_insert_ne.
Qed.

Lemma deref_alloc st j :
  deref (alloc st).2 j = if decide (next_addr st = j) then PgNode_init else deref st j.
Proof.
  unfold deref at 1, alloc. simpl. destruct (decide (next_addr st = j)) as [->|Hne].
  - by rewrite lookup_insert_eq.
  - by rewrite lookup_insert_ne.
Qed.

Lemma mutex_ext_refl st : mutex_ext st st.
Proof. split; [done|]. split; [done|]. intros; lia. Qed.

Lemma mutex_ext_trans st1 st2 st3 :
  mutex_ext st1 st2 → mutex_ext st2 st3 → mutex_ext st1 st3.
Proof.
  intros (Hle1 & Hold1 & Hnew1) (Hle2 & Hold2 & Hnew2).
  split; [lia|]. split.
  - intros i Hi. rewrite Hold2 by lia. by apply Hold1.
  - intros i Hlo Hhi. destruct (decide (i < next_addr st2)).
    + rewrite Hold2 by done. by apply Hnew1.
    + apply Hnew2; lia.
Qed.

Lemma mutex_ext_alloc st : mutex_ext st (alloc st).2.
Proof.
  split; [simpl; lia|]. split.
  - intros i Hi. rewrite deref_alloc. case_decide; [lia|done].
  - intros i Hlo Hhi. rewrite deref_alloc. simpl in Hhi. case_decide; [done|lia].
Qed.

Lemma mutex_ext_with_parents (f : list P → list P) i st :
  mutex_ext st (modify (with_parents f) i st).
Proof.
  split; [done|]. split.
  - intros j _. rewrite deref_modify. by case_decide; subst.
  - simpl. intros; lia.
Qed.

Lemma mutex_ext_with_children (f : list P → list P) i st :
  mutex_ext st (modify (with_children f) i st).
Proof.
  split; [done|]. split.
  - intros j _. rewrite deref_modify. by case_decide; subst.
  - simpl. intros; lia.
Qed.

Lemma parents_ext_refl st : parents_ext st st.
Proof. split; [done|]. split; [done|]. intros; lia. Qed.

Lemma parents_ext_trans st1 st2 st3 :
  parents_ext st1 st2 → parents_ext st2 st3 → parents_ext st1 st3.
Proof.
  intros (Hle1 & Hold1 & Hnew1) (Hle2 & Hold2 & Hnew2).
  split; [lia|]. split.
  - intros i Hi. rewrite Hold2 by lia. by apply Hold1.
  - intros i Hlo Hhi. destruct (decide (i < next_addr st2)).
    + rewrite Hold2 by done. by apply Hnew1.
    + apply Hnew2; lia.
Qed.

Lemma parents_ext_alloc st : parents_ext st (alloc st).2.
Proof.
  split; [simpl; lia|]. split.
  - intros i Hi. rewrite deref_alloc. case_decide; [lia|done].
  - intros i Hlo Hhi. rewrite deref_alloc. simpl in Hhi. case_decide; [done|lia].
Qed.

Lemma parents_ext_with_children (f : list P → list P) i st :
  parents_ext st (modify (with_children f) i st).
Proof.
  split; [done|]. split.
  - intros j _. rewrite deref_modify. by case_decide; subst.
  - simpl. intros; lia.
Qed.

Context {K : Type} `{PyKeyLaw M K} `{HasAddr M}.
Implicit Types L : list M.

Lemma is_mutex_set_in st (a b : M) :
  is_mutex st a b = set_in b (mutex (deref st (addr a))).
Proof. unfold is_mutex. by destruct (set_in _ _). Qed.

Lemma mutexify_other st (n1 n2 : M) i :
  addr n1 ≠ i → addr n2 ≠ i → deref (mutexify st n1 n2) i = deref st i.
Proof.
  intros Hn1 Hn2. unfold mutexify. rewrite !deref_modify.
  by rewrite !decide_False.
Qed.

Lemma mutexify_parents st (n1 n2 : M) i :
  parents (deref (mutexify st n1 n2) i) = parents (deref st i).
Proof.
  unfold mutexify. rewrite !deref_modify.
  repeat case_decide; subst; simpl; rewrite ?deref_modify;
    repeat case_decide; subst; simpl; congruence.
Qed.

Lemma mutexify_children st (n1 n2 : M) i :
  children (deref (mutexify st n1 n2) i) = children (deref st i).
Proof.
  unfold mutexify. rewrite !deref_modify.
  repeat case_decide; subst; simpl; rewrite ?deref_modify;
    repeat case_decide; subst; simpl; congruence.
Qed.

(** What [mutexify] does to the mutex sets, for two distinct objects. *)
Lemma mutexify_mutex st (n1 n2 : M) i :
  addr n1 ≠ addr n2 →
  mutex (deref (mutexify st n1 n2) i) =
    if decide (addr n1 = i) then set_add n2 (mutex (deref st i))
    else if decide (addr n2 = i) then set_add n1 (mutex (deref st i))
    else mutex (deref st i).
Proof.
  intros Hne. unfold mutexify. rewrite !deref_modify.
  destruct (decide (addr n2 = i)) as [<-|Hn2].
  - rewrite (decide_False (P := addr n1 = addr n2)) by done. simpl.
    rewrite decide_False by done. done.
  - destruct (decide (addr n1 = i)) as [<-|Hn1]; done.
Qed.

Lemma NoDup_addr_inj (L : list M) (x y : M) :
  NoDup (addr <$> L) → x ∈ L → y ∈ L → addr x = addr y → x = y.
Proof.
  intros Hnd Hx Hy Heq.
  apply list_elem_of_lookup in Hx as [i Hi].
  apply list_elem_of_lookup in Hy as [j Hj].
  assert (i = j) as ->.
  { eapply NoDup_lookup; [exact Hnd| |];
      rewrite list_lookup_fmap; [rewrite Hi|rewrite Hj]; simpl; by rewrite ?Heq. }
  congruence.
Qed.

Lemma level_ok_fresh st (L : list M) :
  NoDup (py_key <$> L) → NoDup (addr <$> L) →
  (∀ x, x ∈ L → mutex (deref st (addr x)) = []) → level_ok st L.
Proof.
  intros Hk Ha Hempty. split; [done|]. split; [done|].
  intros x m Hx Hm. rewrite Hempty in Hm by done. by apply elem_of_nil in Hm.
Qed.

Lemma level_ok_frame st st' (L : list M) :
  (∀ x, x ∈ L → mutex (deref st' (addr x)) = mutex (deref st (addr x))) →
  level_ok st L → level_ok st' L.
Proof.
  intros Hsame (Hk & Ha & Hm). split; [done|]. split; [done|].
  intros x m Hx Hin. rewrite Hsame in Hin by done.
  destruct (Hm x m Hx Hin) as (HmL & Hne & Hback).
  split; [done|]. split; [done|]. by rewrite Hsame.
Qed.

Lemma mutexify_level_ok st (L : list M) (n1 n2 : M) :
  level_ok st L → n1 ∈ L → n2 ∈ L → py_key n1 ≠ py_key n2 →
  level_ok (mutexify st n1 n2) L.
Proof.
  intros (Hk & Ha & Hm) Hin1 Hin2 Hne.
  assert (addr n1 ≠ addr n2) as Hane.
  { intros Heq. apply Hne. f_equal. by eapply NoDup_addr_inj. }
  (* a member that had an entry keeps it *)
  assert (∀ y m, m ∈ mutex (deref st (addr y)) →
            m ∈ mutex (deref (mutexify st n1 n2) (addr y))) as Hkeep.
  { intros y m Hin. rewrite mutexify_mutex by done.
    repeat case_decide; try done; by apply set_add_incl. }
  (* the two new entries are there *)
  assert (n2 ∈ mutex (deref (mutexify st n1 n2) (addr n1))) as Hnew1.
  { rewrite mutexify_mutex by done. rewrite decide_True by done.
    apply elem_of_set_add. destruct (set_in n2 (mutex (deref st (addr n1)))) eqn:E.
    - left. apply set_in_true in E as (m & Hin & Hkey).
      destruct (Hm n1 m Hin1 Hin) as (HmL & _ & _).
      by rewrite <- (NoDup_key_inj L m n2 Hk HmL Hin2 Hkey).
    - by right. }
  assert (n1 ∈ mutex (deref (mutexify st n1 n2) (addr n2))) as Hnew2.
  { rewrite mutexify_mutex by done. rewrite decide_False by done.
    rewrite decide_True by done.
    apply elem_of_set_add. destruct (set_in n1 (mutex (deref st (addr n2)))) eqn:E.
    - left. apply set_in_true in E as (m & Hin & Hkey).
      destruct (Hm n2 m Hin2 Hin) as (HmL & _ & _).
      by rewrite <- (NoDup_key_inj L m n1 Hk HmL Hin1 Hkey).
    - by right. }
  split; [done|]. split; [done|].
  intros x m Hx Hin. rewrite mutexify_mutex in Hin by done.
  destruct (decide (addr n1 = addr x)) as [E1|E1].
  { assert (x = n1) as -> by (symmetry; by eapply NoDup_addr_inj).
    apply elem_of_set_add in Hin as [Hin|[_ ->]].
    - destruct (Hm n1 m Hin1 Hin) as (HmL & Hkne & Hback). eauto.
    - split; [done|]. split; [by intros ?|done]. }
  destruct (decide (addr n2 = addr x)) as [E2|E2].
  { assert (x = n2) as -> by (symmetry; by eapply NoDup_addr_inj).
    apply elem_of_set_add in Hin as [Hin|[_ ->]].
    - destruct (Hm n2 m Hin2 Hin) as (HmL & Hkne & Hback). eauto.
    - split; [done|]. split; [done|done]. }
  destruct (Hm x m Hx Hin) as (HmL & Hkne & Hback). eauto.
Qed.

Lemma level_ok_sym st (L : list M) (a b : M) :
  level_ok st L → a ∈ L → b ∈ L → is_mutex st a b = is_mutex st b a.
Proof.
  intros (Hk & Ha & Hm) HaL HbL. rewrite !is_mutex_set_in.
  apply eq_true_iff_eq. rewrite !set_in_true. split.
  - intros (m & Hin & Hkey). destruct (Hm a m HaL Hin) as (HmL & _ & Hback).
    assert (m = b) as -> by by eapply NoDup_key_inj. eauto.
  - intros (m & Hin & Hkey). destruct (Hm b m HbL Hin) as (HmL & _ & Hback).
    assert (m = a) as -> by by eapply NoDup_key_inj. eauto.
Qed.

Lemma level_ok_irrefl st (L : list M) (a : M) :
  level_ok st L → a ∈ L → is_mutex st a a = false.
Proof.
  intros (Hk & Ha & Hm) HaL. rewrite is_mutex_set_in.
  apply not_true_is_false. rewrite set_in_true.
  intros (m & Hin & Hkey). by destruct (Hm a m HaL Hin) as (_ & Hne & _).
Qed.

Lemma level_ok_new st st' L :
  mutex_ext st st' → NoDup (py_key <$> L) →
  fresh_set (next_addr st) (next_addr st') L → level_ok st' L.
Proof.
  intros (_ & _ & Hnew) Hk [Ha Hb]. apply level_ok_fresh; [done..|].
  intros x Hx. destruct (Hb x Hx). by apply Hnew.
Qed.

Lemma levels_ok_mutex_ext st st' (Ls : list (list M)) :
  mutex_ext st st' → levels_ok st Ls → levels_ok st' Ls.
Proof.
  intros (Hle & Hold & _) Hok L HL. destruct (Hok L HL) as [HLok Hb]. split.
  - eapply level_ok_frame; [|done]. intros x Hx. apply Hold. by apply Hb.
  - intros x Hx. specialize (Hb x Hx). lia.
Qed.

Lemma levels_ok_snoc st (Ls : list (list M)) L :
  levels_ok st Ls → level_ok st L → (∀ x, x ∈ L → addr x < next_addr st) →
  levels_ok st (Ls ++ [L]).
Proof.
  intros Hok HL Hb L' [HL'|HL']%elem_of_app; [by apply Hok|].
  apply list_elem_of_singleton in HL' as ->. done.
Qed.

Lemma marks_only_mutexify L st st' (n1 n2 : M) :
  marks_only L st st' → n1 ∈ L → n2 ∈ L →
  marks_only L st (mutexify st' n1 n2).
Proof.
  intros (Hnext & Hother & Hpc) Hn1 Hn2. split; [done|]. split.
  - intros i Hi. rewrite mutexify_other; [by apply Hother|..].
    + intros <-. apply Hi. apply list_elem_of_fmap. eauto.
    + intros <-. apply Hi. apply list_elem_of_fmap. eauto.
  - intros i. rewrite mutexify_parents, mutexify_children. apply Hpc.
Qed.

(** Marking the members of a new level leaves the older levels alone. *)
Lemma levels_ok_marks_only st st' (Ls : list (list M)) L lo :
  marks_only L st st' → levels_ok st Ls →
  (∀ L' x, L' ∈ Ls → x ∈ L' → addr x < lo) →
  (∀ x, x ∈ L → lo ≤ addr x) →
  levels_ok st' Ls.
Proof.
  intros (Hnext & Hother & _) Hok Hold Hnew L' HL'.
  destruct (Hok L' HL') as [HLok Hb]. split.
  - eapply level_ok_frame; [|done]. intros x Hx. rewrite Hother; [done|].
    intros (y & Heq & Hy)%list_elem_of_fmap.
    specialize (Hold L' x HL' Hx). specialize (Hnew y Hy). lia.
  - intros x Hx. rewrite Hnext. by apply Hb.
Qed.
End store_facts.

(** ** The double loop of the mutex updates *)

(** Every pair the loop hands to [mark] consists of two members of the set
    with different keys. *)
Lemma update_mutex_inv {N K : Type} `{PyKeyLaw N K}
    (test : PlanningGraph → N → N → bool)
    (mark : N → N → PlanningGraph → PlanningGraph)
    (I : PlanningGraph → Prop) (nodeset : list N) (pg : PlanningGraph) :
  NoDup (py_key <$> nodeset) →
  I pg →
  (∀ pg n1 n2, I pg → n1 ∈ nodeset → n2 ∈ nodeset →
     py_key n1 ≠ py_key n2 → I (mark n1 n2 pg)) →
  I (update_mutex test mark nodeset pg).
Proof.
  intros Hnd HI Hstep. unfold update_mutex.
  apply fold_left_inv; [done|].
  intros pg1 [i n1] Hin HI1.
  apply elem_of_lookup_imap in Hin as (i' & y & [= <- <-] & Hlook).
  apply lookup_take_Some in Hlook as [Hlook _].
  apply fold_left_inv; [done|].
  intros pg2 n2 Hn2 HI2.
  destruct (test pg2 n1 n2); [|done].
  apply list_elem_of_lookup in Hn2 as [j Hj]. rewrite lookup_drop in Hj.
  apply Hstep; [done| | |].
  - by eapply list_elem_of_lookup_2.
  - by eapply list_elem_of_lookup_2.
  - intros Heq.
    assert (i = i + 1 + j); [|lia].
    eapply NoDup_lookup; [exact Hnd| |]; rewrite list_lookup_fmap.
    + by rewrite Hlook.
    + rewrite Hj. simpl. by rewrite Heq.
Qed.

(** ** Sets of nodes and sets of keys *)

#[global] Instance literal_key_law : PyKeyLaw literal literal.
Proof. intros x y. unfold py_eq, literal_eq. apply bool_decide_eq_true. Qed.

#[global] Instance action_id_key_law : PyKeyLaw action_id action_id.
Proof. intros x y. unfold py_eq, action_id_eq. apply bool_decide_eq_true. Qed.

#[global] Instance Action_key_law : PyKeyLaw Action action_id.
Proof. intros x y. unfold py_eq, Action_eq. apply bool_decide_eq_true. Qed.

Section key_abstraction.
Context {A K : Type} `{PyKeyLaw A K} `{PyEq K} `{PyKey K K} `{!PyKeyLaw K K}.
Context (key_id : ∀ k : K, py_key k = k).

Lemma set_in_fmap (x : A) (s : list A) :
  set_in (py_key x) (py_key <$> s) = set_in x s.
Proof.
  unfold set_in. induction s as [|y s IH]; [done|].
  rewrite fmap_cons. cbn [existsb]. rewrite IH. f_equal.
  apply eq_true_iff_eq. by rewrite !py_eq_key, !key_id.
Qed.

Lemma set_add_fmap (x : A) (s : list A) :
  py_key <$> set_add x s = set_add (py_key x) (py_key <$> s).
Proof.
  unfold set_add. rewrite set_in_fmap. destruct (set_in x s); [done|].
  by rewrite fmap_app.
Qed.

Lemma set_update_fmap (s xs : list A) :
  py_key <$> set_update s xs = set_update (py_key <$> s) (py_key <$> xs).
Proof.
  unfold set_update. revert s. induction xs as [|x xs IH]; intros s; [done|].
  rewrite fmap_cons. cbn [fold_left]. by rewrite IH, set_add_fmap.
Qed.

Lemma set_eq_fmap (s1 s2 : list A) :
  set_eq (py_key <$> s1) (py_key <$> s2) = set_eq s1 s2.
Proof.
  unfold set_eq. rewrite !length_fmap. f_equal.
  induction s1 as [|x s1 IH]; [done|].
  rewrite fmap_cons. cbn [forallb]. by rewrite IH, set_in_fmap.
Qed.
End key_abstraction.

Lemma literal_key_id (k : literal) : py_key k = k.
Proof. done. Qed.

Lemma action_id_key_id (k : action_id) : py_key k = k.
Proof. done. Qed.

Lemma set_update_app {A : Type} `{PyEq A} (s xs ys : list A) :
  set_update s (xs ++ ys) = set_update (set_update s xs) ys.
Proof. unfold set_update. by rewrite fold_left_app. Qed.

(** ** New objects *)

Section fresh.
Context {M : Type} `{HasAddr M}.
Implicit Types nodes : list M.

Lemma fresh_set_nil lo hi : fresh_set lo hi (@nil M).
Proof. split; [constructor|]. intros n Hn. by apply elem_of_nil in Hn. Qed.

Lemma fresh_set_weaken lo hi lo' hi' nodes :
  fresh_set lo hi nodes → lo' ≤ lo → hi ≤ hi' → fresh_set lo' hi' nodes.
Proof.
  intros [Hnd Hb] Hlo Hhi. split; [done|].
  intros n Hn. destruct (Hb n Hn). lia.
Qed.

Lemma fresh_set_app lo mid hi nodes1 nodes2 :
  lo ≤ mid → mid ≤ hi →
  fresh_set lo mid nodes1 → fresh_set mid hi nodes2 →
  fresh_set lo hi (nodes1 ++ nodes2).
Proof.
  intros Hlo Hhi [Hnd1 Hb1] [Hnd2 Hb2]. split.
  - rewrite fmap_app. apply NoDup_app. split; [done|]. split; [|done].
    intros a Ha1 Ha2.
    apply list_elem_of_fmap in Ha1 as (n1 & -> & Hn1).
    apply list_elem_of_fmap in Ha2 as (n2 & Heq & Hn2).
    destruct (Hb1 n1 Hn1), (Hb2 n2 Hn2). lia.
  - intros n Hn. apply elem_of_app in Hn as [Hn|Hn].
    + destruct (Hb1 n Hn). lia.
    + destruct (Hb2 n Hn). lia.
Qed.
End fresh.

(** ** The constructors *)

Lemma fresh_set_add {M : Type} `{PyEq M} `{HasAddr M} lo hi (n : M) (nodes : list M) :
  lo ≤ hi → addr n = hi → fresh_set lo hi nodes →
  fresh_set lo (S hi) (set_add n nodes).
Proof.
  intros Hlo Hn Hfresh. unfold set_add. destruct (set_in n nodes).
  - eapply fresh_set_weaken; [done|lia..].
  - apply (fresh_set_app lo hi (S hi)); [lia..|done|].
    split; [apply NoDup_singleton|].
    intros ? ->%list_elem_of_singleton. lia.
Qed.

Lemma add_s_nodes_cons polarity p ps nodes (sh : SHeap) :
  add_s_nodes polarity (p :: ps) (nodes, sh) =
    add_s_nodes polarity ps
      (set_add (mkPgNode_s (next_addr sh) p polarity) nodes, (alloc sh).2).
Proof. done. Qed.

Lemma add_s_nodes_spec polarity ps nodes (sh : SHeap) lo :
  lo ≤ next_addr sh →
  fresh_set lo (next_addr sh) nodes →
  mutex_ext sh (add_s_nodes polarity ps (nodes, sh)).2 ∧
  fresh_set lo (next_addr (add_s_nodes polarity ps (nodes, sh)).2)
    (add_s_nodes polarity ps (nodes, sh)).1 ∧
  py_key <$> (add_s_nodes polarity ps (nodes, sh)).1 =
    set_update (py_key <$> nodes) (lits polarity ps).
Proof.
  revert nodes sh. induction ps as [|p ps IH]; intros nodes sh Hlo Hfresh.
  - split; [apply mutex_ext_refl|]. done.
  - rewrite add_s_nodes_cons.
    set (n := mkPgNode_s (next_addr sh) p polarity).
    destruct (IH (set_add n nodes) (alloc sh).2) as (Hext & Hfr & Hkeys).
    + simpl; lia.
    + by apply fresh_set_add.
    + split; [|split; [done|]].
      * eapply mutex_ext_trans; [apply (mutex_ext_alloc sh)|done].
      * rewrite Hkeys. rewrite (set_add_fmap literal_key_id). done.
Qed.

Lemma precond_s_nodes_spec act (sh : SHeap) :
  mutex_ext sh (precond_s_nodes act sh).2 ∧
  fresh_set (next_addr sh) (next_addr (precond_s_nodes act sh).2) (precond_s_nodes act sh).1 ∧
  py_key <$> (precond_s_nodes act sh).1 = pre_keys act.
Proof.
  unfold precond_s_nodes, pre_keys.
  destruct (add_s_nodes_spec true (precond_pos act) [] sh (next_addr sh))
    as (Hext1 & Hfr1 & Hk1); [done|apply fresh_set_nil|].
  destruct (add_s_nodes true (precond_pos act) ([], sh)) as [nodes1 sh1].
  simpl in *.
  destruct (add_s_nodes_spec false (precond_neg act) nodes1 sh1 (next_addr sh))
    as (Hext2 & Hfr2 & Hk2); [by destruct Hext1|done|].
  split; [by eapply mutex_ext_trans|]. split; [done|].
  by rewrite Hk2, Hk1.
Qed.

Lemma effect_s_nodes_spec act (sh : SHeap) :
  mutex_ext sh (effect_s_nodes act sh).2 ∧
  fresh_set (next_addr sh) (next_addr (effect_s_nodes act sh).2) (effect_s_nodes act sh).1 ∧
  py_key <$> (effect_s_nodes act sh).1 = eff_keys act.
Proof.
  unfold effect_s_nodes, eff_keys.
  destruct (add_s_nodes_spec true (effect_add act) [] sh (next_addr sh))
    as (Hext1 & Hfr1 & Hk1); [done|apply fresh_set_nil|].
  destruct (add_s_nodes true (effect_add act) ([], sh)) as [nodes1 sh1].
  simpl in *.
  destruct (add_s_nodes_spec false (effect_rem act) nodes1 sh1 (next_addr sh))
    as (Hext2 & Hfr2 & Hk2); [by destruct Hext1|done|].
  split; [by eapply mutex_ext_trans|]. split; [done|].
  by rewrite Hk2, Hk1.
Qed.

Lemma PgNode_a_init_spec act (sh : SHeap) (ah : AHeap) :
  let r := PgNode_a_init act sh ah in
  addr r.1.1 = next_addr ah ∧ next_addr r.2 = S (next_addr ah) ∧
  mutex_ext ah r.2 ∧ mutex_ext sh r.1.2 ∧
  action r.1.1 = act ∧ is_persistent r.1.1 = persistent act ∧
  py_key <$> effnodes r.1.1 = eff_keys act ∧
  fresh_set (next_addr sh) (next_addr r.1.2) (effnodes r.1.1).
Proof.
  unfold PgNode_a_init. cbn [alloc].
  destruct (precond_s_nodes_spec act sh) as (Hext1 & Hfr1 & Hk1).
  destruct (precond_s_nodes act sh) as [pre sh1]. simpl in Hext1, Hfr1, Hk1.
  destruct (effect_s_nodes_spec act sh1) as (Hext2 & Hfr2 & Hk2).
  destruct (effect_s_nodes act sh1) as [eff sh2]. simpl in Hext2, Hfr2, Hk2.
  cbn [fst snd addr PgNode_a_addr a_addr action is_persistent effnodes next_addr].
  split; [done|]. split; [done|].
  split; [apply (mutex_ext_alloc ah)|].
  split; [by eapply mutex_ext_trans|].
  split; [done|]. split.
  - unfold persistent. rewrite <- Hk1, <- Hk2.
    by rewrite (set_eq_fmap literal_key_id).
  - split; [done|]. eapply fresh_set_weaken; [done| |done]. by destruct Hext1.
Qed.

(** ** add_action_level *)

Lemma scan_preconds_spec polarity prev ps parent_s_nodes (sh : SHeap) :
  mutex_ext sh (scan_preconds polarity prev ps parent_s_nodes sh).2 ∧
  match (scan_preconds polarity prev ps parent_s_nodes sh).1 with
  | Some _ => forallb (λ p, set_in (p, polarity) (py_key <$> prev)) ps = true
  | None => forallb (λ p, set_in (p, polarity) (py_key <$> prev)) ps = false
  end.
Proof.
  revert parent_s_nodes sh.
  induction ps as [|p ps IH]; intros parent_s_nodes sh; cbn [scan_preconds forallb].
  - split; [apply mutex_ext_refl|done].
  - unfold PgNode_s_init. cbn [alloc fst snd].
    set (n := mkPgNode_s (next_addr sh) p polarity).
    rewrite <- (set_in_fmap literal_key_id n prev).
    change (py_key n) with (p, polarity).
    destruct (set_in (p, polarity) (py_key <$> prev)); cbn [negb andb].
    + destruct (IH (set_add n parent_s_nodes) (alloc sh).2) as [Hext Hres].
      split; [|done]. eapply mutex_ext_trans; [apply (mutex_ext_alloc sh)|done].
    + split; [apply (mutex_ext_alloc sh)|done].
Qed.

Lemma link_children_spec level_nodes parent_s_nodes a_node (sh : SHeap) :
  mutex_ext sh (link_children level_nodes parent_s_nodes a_node sh) ∧
  next_addr (link_children level_nodes parent_s_nodes a_node sh) = next_addr sh.
Proof.
  unfold link_children.
  apply (fold_left_inv (λ sh', mutex_ext sh sh' ∧ next_addr sh' = next_addr sh)).
  - split; [apply mutex_ext_refl|done].
  - intros sh' s_node _ [Hext Hnext].
    destruct (set_in s_node parent_s_nodes); [|done]. split; [|done].
    eapply mutex_ext_trans; [done|apply mutex_ext_with_children].
Qed.

Lemma next_actions_snoc seen act ks :
  next_actions (seen ++ [act]) ks =
    if enabled ks act then set_add act (next_actions seen ks) else next_actions seen ks.
Proof. unfold next_actions. by rewrite fold_left_app. Qed.

(** Among nodes whose persistence flag is the one of their action, the
    node set and the action set agree. *)
Lemma a_level_set_in (a_node : PgNode_a) (L : list PgNode_a) :
  (∀ a, a ∈ L → is_persistent a = persistent (action a)) →
  is_persistent a_node = persistent (action a_node) →
  set_in (action a_node) (action <$> L) = set_in a_node L.
Proof.
  intros HL Ha.
  rewrite <- (set_in_fmap action_id_key_id a_node L).
  rewrite <- (set_in_fmap action_id_key_id (action a_node) (action <$> L)).
  rewrite <- list_fmap_compose. f_equal.
  - unfold py_key, Action_key, PgNode_a_key, act_key, a_key. by rewrite Ha.
  - apply list_fmap_ext. intros i a Hi. simpl.
    unfold py_key, Action_key, PgNode_a_key, act_key, a_key.
    rewrite HL; [done|]. by eapply list_elem_of_lookup_2.
Qed.

Lemma a_level_set_add (a_node : PgNode_a) (L : list PgNode_a) :
  (∀ a, a ∈ L → is_persistent a = persistent (action a)) →
  is_persistent a_node = persistent (action a_node) →
  action <$> set_add a_node L = set_add (action a_node) (action <$> L).
Proof.
  intros HL Ha. unfold set_add. rewrite a_level_set_in by done.
  destruct (set_in a_node L); [done|]. by rewrite fmap_app.
Qed.

Lemma enabled_false_pos ks act :
  forallb (λ p, set_in (p, true) ks) (precond_pos act) = false → enabled ks act = false.
Proof. unfold enabled. by intros ->. Qed.

Lemma enabled_false_neg ks act :
  forallb (λ p, set_in (p, false) ks) (precond_neg act) = false → enabled ks act = false.
Proof. unfold enabled. intros ->. apply andb_false_r. Qed.

Lemma snoc_lookup_length {A} (l : list A) (x : A) : (l ++ [x]) !! length l = Some x.
Proof. by rewrite list_lookup_middle. Qed.

Lemma snoc_insert_length {A} (l : list A) (x y : A) :
  <[length l := y]> (l ++ [x]) = l ++ [y].
Proof. rewrite insert_app_r_alt by done. by rewrite Nat.sub_diag. Qed.

Lemma action_level_inv_skip pg0 prev seen act pg (sh : SHeap) :
  action_level_inv pg0 prev seen pg →
  mutex_ext (s_heap pg) sh →
  enabled (py_key <$> prev) act = false →
  action_level_inv pg0 prev (seen ++ [act]) (with_s_heap sh pg).
Proof.
  intros (Hstat & Hs & Hexts & Hexta & Lcur & Hal & Hnd & Hfa & Hfe & Hper & Hact)
    Hext Hen.
  split; [done|]. split; [done|].
  split; [by eapply mutex_ext_trans|]. split; [done|].
  exists Lcur. cbn [a_levels with_s_heap s_heap a_heap].
  split; [done|]. split; [done|]. split; [done|]. split.
  - eapply fresh_set_weaken; [done..|]. by destruct Hext.
  - split; [done|]. by rewrite next_actions_snoc, Hen.
Qed.

Lemma add_action_spec level prev act pg0 seen pg :
  length (a_levels pg0) = level →
  action_level_inv pg0 prev seen pg →
  ∃ pg', add_action level prev act pg = Returned pg' ∧
         action_level_inv pg0 prev (seen ++ [act]) pg'.
Proof.
  intros Hlen Hinv. unfold add_action.
  destruct (scan_preconds_spec true prev (precond_pos act) [] (s_heap pg))
    as [Hext1 Hres1].
  destruct (scan_preconds true prev (precond_pos act) [] (s_heap pg))
    as [[parents1|] sh1]; cbn [fst snd] in *.
  2:{ eexists. split; [done|].
      apply action_level_inv_skip; [done..|]. by apply enabled_false_pos. }
  destruct (scan_preconds_spec false prev (precond_neg act) parents1 sh1)
    as [Hext2 Hres2].
  destruct (scan_preconds false prev (precond_neg act) parents1 sh1)
    as [[parent_s_nodes|] sh2]; cbn [fst snd] in *.
  2:{ eexists. split; [done|].
      apply action_level_inv_skip; [done| |by apply enabled_false_neg].
      by eapply mutex_ext_trans. }
  assert (enabled (py_key <$> prev) act = true) as Hen.
  { unfold enabled. by rewrite Hres1, Hres2. }
  destruct Hinv as (Hstat & Hs & Hexts & Hexta & Lcur & Hal & Hnd & Hfa & Hfe & Hper & Hact).
  destruct (PgNode_a_init_spec act sh2 (a_heap pg))
    as (Haddr & Hnext & Hexta3 & Hexts3 & Hacta & Hpers & Hkeys & Hfresh).
  destruct (PgNode_a_init act sh2 (a_heap pg)) as [[a_node sh3] ah3].
  cbn [fst snd] in *.
  destruct (link_children_spec prev parent_s_nodes a_node sh3) as [Hext4 Hnext4].
  set (sh4 := link_children prev parent_s_nodes a_node sh3) in *.
  set (ah4 := modify _ (addr a_node) ah3).
  cbn [a_levels with_a_heap with_s_heap].
  rewrite Hal, <- Hlen, snoc_lookup_length, snoc_insert_length.
  eexists. split; [done|].
  assert (mutex_ext (s_heap pg) sh4) as Hexts4.
  { eapply mutex_ext_trans; [exact Hext1|]. eapply mutex_ext_trans; [exact Hext2|].
    eapply mutex_ext_trans; [exact Hexts3|exact Hext4]. }
  assert (mutex_ext (a_heap pg) ah4) as Hexta4.
  { eapply mutex_ext_trans; [exact Hexta3|]. apply mutex_ext_with_parents. }
  assert (next_addr (s_heap pg) ≤ next_addr sh2) as Hle2.
  { destruct Hext1 as [? _], Hext2 as [? _]. lia. }
  split; [done|]. split; [done|].
  split; [by eapply mutex_ext_trans|]. split; [by eapply mutex_ext_trans|].
  exists (set_add a_node Lcur).
  cbn [a_levels with_a_levels with_a_heap with_s_heap s_heap a_heap].
  split; [done|]. split; [by apply set_add_NoDup_key|]. split.
  { change (next_addr ah4) with (next_addr ah3). rewrite Hnext.
    apply fresh_set_add; [by destruct Hexta|done|done]. }
  split.
  { rewrite Hnext4. unfold set_add. destruct (set_in a_node Lcur).
    - eapply fresh_set_weaken; [done..|]. destruct Hexts3 as [? _]. lia.
    - rewrite bind_app. cbn [mbind list_bind]. rewrite app_nil_r.
      apply (fresh_set_app _ (next_addr sh2)); [|by destruct Hexts3| |done].
      + destruct Hexts as [? _]. lia.
      + eapply fresh_set_weaken; [done..|]. done. }
  split.
  { intros a [Ha|[_ ->]]%elem_of_set_add; [by apply Hper|].
    by rewrite Hacta. }
  rewrite next_actions_snoc, Hen, <- Hact, <- Hacta at 1.
  apply a_level_set_add.
  - intros a Ha. by apply Hper.
  - by rewrite Hacta.
Qed.

Lemma same_static_refl pg : same_static pg pg.
Proof. by repeat split. Qed.

Lemma same_static_trans pg1 pg2 pg3 :
  same_static pg1 pg2 → same_static pg2 pg3 → same_static pg1 pg3.
Proof.
  intros (? & ? & ? & ? & ?) (? & ? & ? & ? & ?).
  repeat split; congruence.
Qed.

Lemma add_action_level_spec level pg prev :
  length (a_levels pg) = level →
  s_levels pg !! level = Some prev →
  ∃ pg', add_action_level level pg = Returned pg' ∧
         action_level_inv pg prev (all_actions pg) pg'.
Proof.
  intros Hlen Hprev. unfold add_action_level.
  cbn [s_levels with_a_levels all_actions]. rewrite Hprev.
  apply (for_each_inv (action_level_inv pg prev)).
  - split; [by repeat split|]. split; [done|].
    split; [apply mutex_ext_refl|]. split; [apply mutex_ext_refl|].
    exists []. cbn [a_levels with_a_levels s_heap a_heap].
    split; [done|]. split; [constructor|].
    split; [apply fresh_set_nil|]. split; [apply fresh_set_nil|].
    split; [|done]. intros a Ha. by apply elem_of_nil in Ha.
  - intros seen act pg1 Hinv _. by apply add_action_spec.
Qed.

(** ** add_literal_level *)

Lemma py_index_pred {A} (l : list A) (lvl : nat) :
  0 < lvl → py_index l (Z.of_nat lvl - 1) = l !! (lvl - 1).
Proof.
  intros Hpos. unfold py_index.
  destruct (Z.ltb_spec (Z.of_nat lvl - 1) 0); [lia|].
  f_equal. lia.
Qed.

Lemma add_effnode_spec lvl pre_a_node effnode pg0 L pg :
  length (s_levels pg0) = lvl →
  literal_level_inv pg0 L pg →
  ∃ pg', add_effnode lvl pre_a_node effnode pg = Returned pg' ∧
         literal_level_inv pg0 (set_add effnode L) pg'.
Proof.
  intros Hlen (Hstat & Ha & Hs & Hexts & Hexta & Hns & Hna).
  unfold add_effnode. cbn [s_levels with_a_heap with_s_heap].
  rewrite Hs, <- Hlen, snoc_lookup_length, snoc_insert_length.
  eexists. split; [done|].
  split; [done|]. split; [done|]. split; [done|].
  cbn [s_heap a_heap with_s_levels with_a_heap with_s_heap].
  split; [eapply mutex_ext_trans; [done|apply mutex_ext_with_parents]|].
  split; [eapply mutex_ext_trans; [done|apply mutex_ext_with_children]|].
  done.
Qed.

(** ** update_a_mutex and update_s_mutex *)

Lemma update_a_mutex_spec L pg :
  level_ok (a_heap pg) L →
  same_static pg (update_a_mutex L pg) ∧
  s_levels (update_a_mutex L pg) = s_levels pg ∧
  a_levels (update_a_mutex L pg) = a_levels pg ∧
  s_heap (update_a_mutex L pg) = s_heap pg ∧
  marks_only L (a_heap pg) (a_heap (update_a_mutex L pg)) ∧
  level_ok (a_heap (update_a_mutex L pg)) L.
Proof.
  intros Hok. unfold update_a_mutex.
  apply (update_mutex_inv a_mutex_test mutexify_a
    (λ pg', same_static pg pg' ∧ s_levels pg' = s_levels pg ∧
            a_levels pg' = a_levels pg ∧ s_heap pg' = s_heap pg ∧
            marks_only L (a_heap pg) (a_heap pg') ∧ level_ok (a_heap pg') L)).
  - by destruct Hok.
  - split; [apply same_static_refl|]. done.
  - intros pg' n1 n2 (Hstat & Hs & Ha & Hsh & Hmarks & HL) Hn1 Hn2 Hne.
    split; [done|]. split; [done|]. split; [done|]. split; [done|].
    cbn [a_heap mutexify_a with_a_heap]. split.
    + by apply marks_only_mutexify.
    + by apply mutexify_level_ok.
Qed.

Lemma update_s_mutex_spec L pg :
  level_ok (s_heap pg) L →
  same_static pg (update_s_mutex L pg) ∧
  s_levels (update_s_mutex L pg) = s_levels pg ∧
  a_levels (update_s_mutex L pg) = a_levels pg ∧
  a_heap (update_s_mutex L pg) = a_heap pg ∧
  marks_only L (s_heap pg) (s_heap (update_s_mutex L pg)) ∧
  level_ok (s_heap (update_s_mutex L pg)) L.
Proof.
  intros Hok. unfold update_s_mutex.
  apply (update_mutex_inv s_mutex_test mutexify_s
    (λ pg', same_static pg pg' ∧ s_levels pg' = s_levels pg ∧
            a_levels pg' = a_levels pg ∧ a_heap pg' = a_heap pg ∧
            marks_only L (s_heap pg) (s_heap pg') ∧ level_ok (s_heap pg') L)).
  - by destruct Hok.
  - split; [apply same_static_refl|]. done.
  - intros pg' n1 n2 (Hstat & Hs & Ha & Hah & Hmarks & HL) Hn1 Hn2 Hne.
    split; [done|]. split; [done|]. split; [done|]. split; [done|].
    cbn [s_heap mutexify_s with_s_heap]. split.
    + by apply marks_only_mutexify.
    + by apply mutexify_level_ok.
Qed.

(** ** The links between the levels *)

Lemma add_s_nodes_parents polarity ps nodes (sh : SHeap) :
  parents_ext sh (add_s_nodes polarity ps (nodes, sh)).2.
Proof.
  revert nodes sh. induction ps as [|p ps IH]; intros nodes sh.
  - apply parents_ext_refl.
  - rewrite add_s_nodes_cons.
    eapply parents_ext_trans; [apply (parents_ext_alloc sh)|apply IH].
Qed.

Lemma PgNode_a_init_links act (sh : SHeap) (ah : AHeap) :
  parents_ext sh (PgNode_a_init act sh ah).1.2 ∧
  (PgNode_a_init act sh ah).2 = (alloc ah).2.
Proof.
  unfold PgNode_a_init, precond_s_nodes, effect_s_nodes. cbn [alloc].
  pose proof (add_s_nodes_parents true (precond_pos act) [] sh) as H1.
  destruct (add_s_nodes true (precond_pos act) ([], sh)) as [n1 sh1].
  pose proof (add_s_nodes_parents false (precond_neg act) n1 sh1) as H2.
  destruct (add_s_nodes false (precond_neg act) (n1, sh1)) as [n2 sh2].
  pose proof (add_s_nodes_parents true (effect_add act) [] sh2) as H3.
  destruct (add_s_nodes true (effect_add act) ([], sh2)) as [n3 sh3].
  pose proof (add_s_nodes_parents false (effect_rem act) n3 sh3) as H4.
  destruct (add_s_nodes false (effect_rem act) (n3, sh3)) as [n4 sh4].
  cbn [fst snd] in *. split; [|done].
  eapply parents_ext_trans; [done|]. eapply parents_ext_trans; [done|].
  by eapply parents_ext_trans.
Qed.

Lemma scan_preconds_links polarity prev ps parent_s_nodes (sh : SHeap) :
  parents_ext sh (scan_preconds polarity prev ps parent_s_nodes sh).2 ∧
  ∀ found, (scan_preconds polarity prev ps parent_s_nodes sh).1 = Some found →
    ∀ p, p ∈ found →
      p ∈ parent_s_nodes ∨
      (next_addr sh ≤ addr p ∧
       addr p < next_addr (scan_preconds polarity prev ps parent_s_nodes sh).2).
Proof.
  revert parent_s_nodes sh.
  induction ps as [|x ps IH]; intros parent_s_nodes sh; cbn [scan_preconds].
  - split; [apply parents_ext_refl|]. intros found [= <-] p Hp. by left.
  - unfold PgNode_s_init. cbn [alloc fst snd].
    set (n := mkPgNode_s (next_addr sh) x polarity).
    destruct (set_in n prev); cbn [negb].
    + destruct (IH (set_add n parent_s_nodes) (alloc sh).2) as [Hext Hres].
      split; [eapply parents_ext_trans; [apply (parents_ext_alloc sh)|done]|].
      intros found Hfound p Hp.
      destruct (Hres found Hfound p Hp) as [Hin|[Hlo Hhi]].
      * apply elem_of_set_add in Hin as [Hin|[_ ->]]; [by left|].
        right. split; [done|]. destruct Hext as [Hle _]. simpl in Hle.
        change (addr n) with (next_addr sh). lia.
      * right. simpl in Hlo. split; [lia|done].
    + split; [apply (parents_ext_alloc sh)|done].
Qed.

Lemma link_children_parents level_nodes parent_s_nodes a_node (sh : SHeap) :
  parents_ext sh (link_children level_nodes parent_s_nodes a_node sh).
Proof.
  unfold link_children.
  apply (fold_left_inv (λ sh', parents_ext sh sh')).
  - apply parents_ext_refl.
  - intros sh' s_node _ Hext.
    destruct (set_in s_node parent_s_nodes); [|done].
    eapply parents_ext_trans; [done|apply parents_ext_with_children].
Qed.

Lemma action_level_links_skip pg0 pg (sh : SHeap) :
  action_level_links pg0 pg → parents_ext (s_heap pg) sh →
  action_level_links pg0 (with_s_heap sh pg).
Proof.
  intros (Hps & Hold & Hnew) Hext.
  split; [by eapply parents_ext_trans|]. split; [done|].
  intros i p Lcur Hlast Hlo Hhi Hp.
  destruct (Hnew i p Lcur Hlast Hlo Hhi Hp) as (? & ? & ?).
  split; [done|]. split; [|done].
  destruct Hext as [Hle _]. cbn [s_heap with_s_heap]. lia.
Qed.

Lemma add_action_links level prev act pg0 seen pg pg' :
  length (a_levels pg0) = level →
  action_level_inv pg0 prev seen pg → action_level_links pg0 pg →
  add_action level prev act pg = Returned pg' →
  action_level_links pg0 pg'.
Proof.
  intros Hlen Hinv Hlinks. unfold add_action.
  destruct (scan_preconds_links true prev (precond_pos act) [] (s_heap pg))
    as [Hp1 Hf1].
  destruct (scan_preconds true prev (precond_pos act) [] (s_heap pg))
    as [[parents1|] sh1]; cbn [fst snd] in *.
  2:{ intros [= <-]. by apply action_level_links_skip. }
  destruct (scan_preconds_links false prev (precond_neg act) parents1 sh1)
    as [Hp2 Hf2].
  destruct (scan_preconds false prev (precond_neg act) parents1 sh1)
    as [[parent_s_nodes|] sh2]; cbn [fst snd] in *.
  2:{ intros [= <-]. apply action_level_links_skip; [done|].
      by eapply parents_ext_trans. }
  destruct Hinv as (Hstat & Hs & Hexts & Hexta & Lcur & Hal & Hnd & Hfa & Hfe & Hper & Hact).
  destruct Hlinks as (Hps & Hold & Hnew).
  destruct (PgNode_a_init_spec act sh2 (a_heap pg))
    as (Haddr & Hnext & Hexta3 & Hexts3 & Hacta & Hpers & Hkeys & Hfresh).
  destruct (PgNode_a_init_links act sh2 (a_heap pg)) as [Hp3 Hah3].
  destruct (PgNode_a_init act sh2 (a_heap pg)) as [[a_node sh3] ah3].
  cbn [fst snd] in *.
  pose proof (link_children_parents prev parent_s_nodes a_node sh3) as Hp4.
  destruct (link_children_spec prev parent_s_nodes a_node sh3) as [_ Hnext4].
  set (sh4 := link_children prev parent_s_nodes a_node sh3) in *.
  cbn [a_levels with_a_heap with_s_heap].
  rewrite Hal, <- Hlen, snoc_lookup_length, snoc_insert_length.
  intros [= <-].
  assert (next_addr (s_heap pg) ≤ next_addr sh1) as Hle1 by by destruct Hp1.
  assert (next_addr sh1 ≤ next_addr sh2) as Hle2 by by destruct Hp2.
  assert (next_addr sh2 ≤ next_addr sh3) as Hle3 by by destruct Hp3.
  assert (next_addr (s_heap pg0) ≤ next_addr (s_heap pg)) as Hle0 by by destruct Hps.
  assert (next_addr (a_heap pg0) ≤ next_addr (a_heap pg)) as Hlea by by destruct Hexta.
  (* the parents found by the two scans are new nodes *)
  assert (∀ p, p ∈ parent_s_nodes →
            next_addr (s_heap pg) ≤ addr p ∧ addr p < next_addr sh2) as Hpsn.
  { intros p Hp. destruct (Hf2 _ eq_refl p Hp) as [Hin|[? ?]]; [|lia].
    destruct (Hf1 _ eq_refl p Hin) as [[]%elem_of_nil|[? ?]]. lia. }
  (* the effect nodes of the level: the older ones and those of [a_node] *)
  assert (∀ e, e ∈ set_add a_node Lcur ≫= effnodes →
            (e ∈ Lcur ≫= effnodes ∧ addr e < next_addr (s_heap pg)) ∨
            next_addr sh2 ≤ addr e) as Heff.
  { intros e (a & He & [Ha|[_ ->]]%elem_of_set_add)%list_elem_of_bind.
    - left. assert (e ∈ Lcur ≫= effnodes) as HeL by (apply list_elem_of_bind; eauto).
      split; [done|]. by apply Hfe.
    - right. by apply Hfresh. }
  split; [|split]; cbn [s_heap a_heap a_levels with_a_levels with_a_heap with_s_heap].
  - eapply parents_ext_trans; [exact Hps|]. eapply parents_ext_trans; [exact Hp1|].
    eapply parents_ext_trans; [exact Hp2|]. by eapply parents_ext_trans.
  - intros i Hi. rewrite deref_modify, decide_False by (rewrite Haddr; lia).
    rewrite Hah3, deref_alloc, decide_False by lia. by apply Hold.
  - intros i p Lc Hlast Hlo Hhi Hp. rewrite last_snoc in Hlast. injection Hlast as <-.
    cbn [next_addr modify] in Hhi. rewrite Hnext in Hhi.
    rewrite deref_modify in Hp. destruct (decide (addr a_node = i)) as [Hi|Hi].
    + rewrite Hah3, Haddr, deref_alloc, decide_True in Hp by done.
      cbn in Hp. apply elem_of_set_update in Hp as [[]%elem_of_nil|Hp].
      destruct (Hpsn p Hp). split; [lia|]. split; [rewrite Hnext4; lia|].
      intros (e & Heq & He)%list_elem_of_fmap. destruct (Heff e He) as [[_ ?]|?]; lia.
    + rewrite Hah3, deref_alloc, decide_False in Hp by (rewrite <- Haddr; done).
      assert (i < next_addr (a_heap pg)) as Hi' by (rewrite Haddr in Hi; lia).
      destruct (Hnew i p Lcur) as (? & ? & Hnot); [by rewrite Hal, last_snoc|done..|].
      split; [done|]. split; [rewrite Hnext4; lia|].
      intros (e & Heq & He)%list_elem_of_fmap. destruct (Heff e He) as [[HeL _]|?]; [|lia].
      apply Hnot. apply list_elem_of_fmap. eauto.
Qed.

Lemma add_action_level_links level pg prev :
  length (a_levels pg) = level →
  s_levels pg !! level = Some prev →
  ∃ pg', add_action_level level pg = Returned pg' ∧
         action_level_inv pg prev (all_actions pg) pg' ∧
         action_level_links pg pg'.
Proof.
  intros Hlen Hprev.
  destruct (add_action_level_spec level pg prev Hlen Hprev) as (pg' & Hrun & Hinv).
  exists pg'. split; [done|]. split; [done|].
  revert Hrun. unfold add_action_level.
  cbn [s_levels with_a_levels all_actions]. rewrite Hprev. intros Hrun.
  destruct (for_each_inv
              (λ seen pg1, action_level_inv pg prev seen pg1 ∧ action_level_links pg pg1)
              (all_actions pg) (add_action level prev)
              (with_a_levels (a_levels pg ++ [[]]) pg))
    as (pg'' & Hrun' & _ & Hlinks).
  - split.
    + split; [by repeat split|]. split; [done|].
      split; [apply mutex_ext_refl|]. split; [apply mutex_ext_refl|].
      exists []. cbn [a_levels with_a_levels s_heap a_heap].
      split; [done|]. split; [constructor|].
      split; [apply fresh_set_nil|]. split; [apply fresh_set_nil|].
      split; [|done]. intros a Ha. by apply elem_of_nil in Ha.
    + split; [apply parents_ext_refl|]. split; [done|].
      intros i p Lcur _ Hlo Hhi. cbn [a_heap with_a_levels] in Hhi. lia.
  - intros seen act pg1 [Hinv1 Hlinks1] _.
    destruct (add_action_spec level prev act pg seen pg1 Hlen Hinv1) as (pg2 & Hrun2 & Hinv2).
    exists pg2. split; [done|]. split; [done|].
    exact (add_action_links level prev act pg seen pg1 pg2 Hlen Hinv1 Hlinks1 Hrun2).
  - congruence.
Qed.

Lemma add_effnode_links lvl pre_a_node effnode pg0 Eseen pg pg' :
  literal_level_links pg0 Eseen pg →
  addr effnode ∉ addr <$> Eseen →
  parents (deref (s_heap pg0) (addr effnode)) = [] →
  add_effnode lvl pre_a_node effnode pg = Returned pg' →
  literal_level_links pg0 (Eseen ++ [effnode]) pg'.
Proof.
  intros (Ha & Hother & Hone) Hnew Hempty. unfold add_effnode.
  cbn [s_levels with_a_heap with_s_heap].
  destruct (s_levels pg !! lvl); [|done]. intros [= <-].
  unfold literal_level_links.
  cbn [s_heap a_heap with_s_levels with_a_heap with_s_heap].
  split; [|split].
  - intros i. rewrite deref_modify. case_decide; subst; simpl; apply Ha.
  - intros i Hi. rewrite fmap_app, elem_of_app in Hi.
    rewrite deref_modify, decide_False; [apply Hother; tauto|].
    intros <-. apply Hi. right. simpl. left.
  - intros i Hi. rewrite deref_modify.
    destruct (decide (addr effnode = i)) as [<-|Hne].
    + simpl. rewrite Hother, Hempty by done. done.
    + apply Hone. rewrite fmap_app, elem_of_app in Hi.
      destruct Hi as [Hi|Hi]; [done|].
      simpl in Hi. by apply list_elem_of_singleton in Hi.
Qed.

Lemma add_literal_level_links lvl pg A :
  length (s_levels pg) = lvl → 0 < lvl →
  a_levels pg !! (lvl - 1) = Some A →
  NoDup (addr <$> (A ≫= effnodes)) →
  (∀ e, e ∈ A ≫= effnodes → parents (deref (s_heap pg) (addr e)) = []) →
  ∃ pg', add_literal_level lvl pg = Returned pg' ∧
         literal_level_inv pg (set_update [] (A ≫= effnodes)) pg' ∧
         literal_level_links pg (A ≫= effnodes) pg'.
Proof.
  intros Hlen Hpos HA Hnd Hempty. unfold add_literal_level.
  cbn [a_levels with_s_levels]. rewrite py_index_pred, HA by done.
  apply (for_each_inv_pos (λ seen pg',
           literal_level_inv pg (set_update [] (seen ≫= effnodes)) pg' ∧
           literal_level_links pg (seen ≫= effnodes) pg')).
  - split.
    + split; [by repeat split|]. split; [done|]. split; [done|].
      split; [apply mutex_ext_refl|]. split; [apply mutex_ext_refl|]. done.
    + split; [done|]. split; [done|]. by intros i []%elem_of_nil.
  - intros seen a rest pg1 HeqA [Hinv Hlinks].
    rewrite bind_app. cbn [mbind list_bind]. rewrite app_nil_r, set_update_app.
    apply (for_each_inv_pos (λ seen_e pg',
             literal_level_inv pg
               (set_update (set_update [] (seen ≫= effnodes)) seen_e) pg' ∧
             literal_level_links pg ((seen ≫= effnodes) ++ seen_e) pg')).
    + by rewrite app_nil_r.
    + intros seen_e e rest_e pg2 Heqe [Hinv2 Hlinks2].
      rewrite set_update_app, app_assoc.
      destruct (add_effnode_spec lvl a e pg _ pg2 Hlen Hinv2) as (pg3 & Hrun & Hinv3).
      exists pg3. split; [done|]. split; [done|].
      apply (add_effnode_links lvl a e pg _ pg2 pg3); [done| | |done].
      * rewrite HeqA, bind_app in Hnd. cbn [mbind list_bind] in Hnd.
        rewrite Heqe in Hnd.
        rewrite <- !app_assoc, (app_assoc (seen ≫= effnodes)) in Hnd.
        rewrite fmap_app in Hnd. apply NoDup_app in Hnd as (_ & Hdisj & _).
        intros Hin. apply (Hdisj _ Hin). simpl. left.
      * apply Hempty. rewrite HeqA, bind_app, elem_of_app. right.
        cbn [mbind list_bind]. rewrite Heqe, !elem_of_app. left. right. left.
Qed.

(** Allocation of literal nodes keeps the links in order. *)
Lemma links_ok_ext pg pg' :
  links_ok pg → a_heap pg' = a_heap pg →
  mutex_ext (s_heap pg) (s_heap pg') → parents_ext (s_heap pg) (s_heap pg') →
  links_ok pg'.
Proof.
  intros [Hs Ha] Hah (Hle & Hmold & Hmnew) (_ & Hpold & Hpnew). split.
  - intros i Hi. destruct (decide (i < next_addr (s_heap pg))) as [Hlt|Hge].
    + rewrite Hpold by done. by apply Hs.
    + rewrite Hpnew by lia. simpl. lia.
  - rewrite Hah. intros i p Hi Hp. destruct (Ha i p Hi Hp) as [Hlt Hm].
    split; [lia|]. by rewrite Hmold.
Qed.

(** ** One round of the level-off loop *)

Lemma fresh_set_sublist {M : Type} `{HasAddr M} lo hi (l1 l2 : list M) :
  l1 `sublist_of` l2 → fresh_set lo hi l2 → fresh_set lo hi l1.
Proof.
  intros Hsub [Hnd Hb]. split.
  - apply (sublist_NoDup (addr <$> l1) (addr <$> l2)); [done|by apply fmap_sublist].
  - intros n Hn. apply Hb. by eapply elem_of_sublist.
Qed.

Lemma effnodes_keys (A : list PgNode_a) :
  (∀ a, a ∈ A → is_persistent a = persistent (action a) ∧
                 py_key <$> effnodes a = eff_keys (action a)) →
  py_key <$> (A ≫= effnodes) = (action <$> A) ≫= eff_keys.
Proof.
  induction A as [|a A IH]; intros Hper; [done|].
  rewrite fmap_cons. cbn [mbind list_bind]. rewrite fmap_app. f_equal.
  - apply Hper. left.
  - apply IH. intros a' Ha'. apply Hper. by right.
Qed.

Lemma level_round_spec level pg (continue : nat → PlanningGraph → outcome) :
  graph_ok pg → length (a_levels pg) = level → length (s_levels pg) = S level →
  ∃ pg' prev A L,
    s_levels pg !! level = Some prev ∧ same_static pg pg' ∧
    a_levels pg' = a_levels pg ++ [A] ∧ s_levels pg' = s_levels pg ++ [L] ∧
    graph_ok pg' ∧ (links_ok pg → links_ok pg') ∧
    py_key <$> L = next_literals (all_actions pg) (py_key <$> prev) ∧
    level_round level pg continue =
      if set_eq L prev then Returned pg' else continue (level + 1) pg'.
Proof.
  intros [Hsok Haok] Hla Hls.
  destruct (lookup_lt_is_Some_2 (s_levels pg) level) as [prev Hprev]; [lia|].
  destruct (add_action_level_links level pg prev Hla Hprev)
    as (pg1 & Hrun1 & Hinv1 & Hlinks1).
  destruct Hinv1 as (Hstat1 & Hs1 & Hexts1 & Hexta1 & A & Hal1 & HndA & HfA & HfE & Hper & Hact).
  assert (level_ok (a_heap pg1) A) as HAok1 by by eapply level_ok_new.
  destruct (update_a_mutex_spec A pg1 HAok1)
    as (Hstat2 & Hs2 & Ha2 & Hsh2 & Hmarks2 & HAok2).
  set (pg2 := update_a_mutex A pg1) in *.
  destruct (add_literal_level_links (level + 1) pg2 A)
    as (pg3 & Hrun3 & Hinv3 & Hlinks3).
  { rewrite Hs2, Hs1. lia. }
  { lia. }
  { rewrite Ha2, Hal1. replace (level + 1 - 1) with (length (a_levels pg)) by lia.
    apply snoc_lookup_length. }
  { by destruct HfE. }
  { intros e He. rewrite Hsh2. destruct Hlinks1 as ((_ & _ & Hpnew) & _).
    destruct HfE as [_ Hb]. destruct (Hb e He). by apply Hpnew. }
  destruct Hinv3 as (Hstat3 & Ha3 & Hs3 & Hexts3 & Hexta3 & Hns3 & Hna3).
  set (L := set_update [] (A ≫= effnodes)) in *.
  assert (NoDup (py_key <$> L)) as HndL.
  { apply set_update_NoDup_key. constructor. }
  assert (L `sublist_of` A ≫= effnodes) as HsubL.
  { exact (set_update_sublist [] (A ≫= effnodes)). }
  assert (fresh_set (next_addr (s_heap pg)) (next_addr (s_heap pg3)) L) as HfL.
  { rewrite Hns3, Hsh2. by eapply fresh_set_sublist. }
  assert (mutex_ext (s_heap pg) (s_heap pg3)) as Hexts.
  { eapply mutex_ext_trans; [done|]. by rewrite <- Hsh2. }
  assert (level_ok (s_heap pg3) L) as HLok3 by by eapply level_ok_new.
  destruct (update_s_mutex_spec L pg3 HLok3)
    as (Hstat4 & Hs4 & Ha4 & Hah4 & Hmarks4 & HLok4).
  set (pg4 := update_s_mutex L pg3) in *.
  assert (s_levels pg4 = s_levels pg ++ [L]) as Hs.
  { by rewrite Hs4, Hs3, Hs2, Hs1. }
  exists pg4, prev, A, L.
  split; [done|]. split.
  { eapply same_static_trans; [done|]. eapply same_static_trans; [done|].
    eapply same_static_trans; done. }
  split. { by rewrite Ha4, Ha3, Ha2, Hal1. }
  split; [done|]. split.
  { split.
    - rewrite Hs. apply levels_ok_snoc; [|done|].
      + eapply (levels_ok_marks_only _ _ _ L (next_addr (s_heap pg))); [done| | |].
        * by eapply levels_ok_mutex_ext.
        * intros L' x HL' Hx. destruct (Hsok L' HL') as [_ Hb]. by apply Hb.
        * intros x Hx. by apply HfL.
      + intros x Hx. destruct Hmarks4 as [-> _]. by apply HfL.
    - rewrite Hah4, Ha4, Ha3, Ha2, Hal1.
      eapply levels_ok_mutex_ext; [done|].
      apply levels_ok_snoc; [|done|].
      + eapply (levels_ok_marks_only _ _ _ A (next_addr (a_heap pg))); [done| | |].
        * by eapply levels_ok_mutex_ext.
        * intros L' x HL' Hx. destruct (Haok L' HL') as [_ Hb]. by apply Hb.
        * intros x Hx. by apply HfA.
      + intros x Hx. destruct Hmarks2 as [-> _]. by apply HfA. }
  split.
  { intros [Hone Hpar].
    destruct Hlinks1 as ((Hples & Hpold & Hpnew) & Hapold & Hapnew).
    destruct Hlinks3 as (Hap3 & Hother3 & Hone3).
    destruct Hmarks4 as (Hnext4 & Hderef4 & Hpc4).
    destruct Hmarks2 as (Hnext2 & _ & Hpc2).
    destruct Hexts1 as (Hles1 & Hmold1 & Hmnew1).
    destruct Hexts3 as (_ & Hmold3 & _).
    split.
    - intros i Hi. rewrite Hnext4, Hns3, Hsh2 in Hi.
      destruct (Hpc4 i) as [-> _].
      destruct (decide (i ∈ addr <$> (A ≫= effnodes))) as [Hin|Hout];
        [by apply Hone3|].
      rewrite Hother3, Hsh2 by done.
      destruct (decide (i < next_addr (s_heap pg))) as [Hlt|Hge].
      + rewrite Hpold by done. by apply Hone.
      + rewrite Hpnew by lia. simpl. lia.
    - rewrite Hah4, Hna3, Hnext2, Hnext4, Hns3, Hsh2. intros i p Hi Hp.
      rewrite Hap3 in Hp. destruct (Hpc2 i) as [Hpar2 _]. rewrite Hpar2 in Hp.
      assert (addr p < next_addr (s_heap pg1) ∧
              mutex (deref (s_heap pg1) (addr p)) = [] ∧
              addr p ∉ addr <$> (A ≫= effnodes)) as (Hlt & Hm & Hnot).
      { destruct (decide (i < next_addr (a_heap pg))) as [Hold|Hnew].
        - rewrite Hapold in Hp by done. destruct (Hpar i p Hold Hp) as [Hlt Hm].
          split; [lia|]. split; [by rewrite Hmold1|].
          intros (e & Heq & He)%list_elem_of_fmap.
          destruct HfE as [_ Hb]. destruct (Hb e He). lia.
        - destruct (Hapnew i p A) as (Hlo & Hhi & Hnot);
            [by rewrite Hal1, last_snoc|lia|done|done|].
          split; [done|]. split; [|done]. apply Hmnew1; lia. }
      split; [done|].
      rewrite Hderef4.
      + rewrite Hmold3 by (rewrite Hsh2; done). by rewrite Hsh2.
      + intros (x & Heq & Hx)%list_elem_of_fmap. apply Hnot.
        apply list_elem_of_fmap. exists x. split; [done|].
        by eapply elem_of_sublist. }
  split.
  { unfold L. rewrite (set_update_fmap literal_key_id).
    rewrite effnodes_keys by done. by rewrite Hact. }
  unfold level_round. rewrite Hrun1. cbn [and_then].
  rewrite Hal1. rewrite <- Hla. rewrite snoc_lookup_length. fold pg2.
  rewrite Hla, Hrun3. cbn [and_then].
  assert (level + 1 = length (s_levels pg)) as Hlv by lia.
  rewrite Hlv. rewrite Hs3, Hs2, Hs1. rewrite snoc_lookup_length. fold pg4.
  rewrite Hs. rewrite snoc_lookup_length.
  rewrite py_index_pred by lia.
  rewrite lookup_app_l by lia.
  replace (length (s_levels pg) - 1) with level by lia. rewrite Hprev.
  done.
Qed.

(** ** create_graph *)

Lemma lit_set_update_NoDup (s xs : list literal) :
  NoDup s → NoDup (set_update s xs).
Proof.
  intros Hnd. rewrite <- (list_fmap_id (set_update s xs)).
  apply (set_update_NoDup_key (A := literal) (K := literal)).
  change (NoDup (id <$> s)). by rewrite list_fmap_id.
Qed.

Lemma add_initial_loop_spec polarity ps pg L lo :
  s_levels pg = [L] → lo ≤ next_addr (s_heap pg) →
  fresh_set lo (next_addr (s_heap pg)) L →
  ∃ pg' L', for_each ps (add_initial 0 polarity) pg = Returned pg' ∧
    same_static pg pg' ∧ a_levels pg' = a_levels pg ∧ a_heap pg' = a_heap pg ∧
    (mutex_ext (s_heap pg) (s_heap pg') ∧ parents_ext (s_heap pg) (s_heap pg')) ∧
    s_levels pg' = [L'] ∧
    fresh_set lo (next_addr (s_heap pg')) L' ∧
    py_key <$> L' = set_update (py_key <$> L) (lits polarity ps).
Proof.
  revert pg L. induction ps as [|p ps IH]; intros pg L Hs Hlo Hfresh.
  - exists pg, L. split; [done|]. split; [apply same_static_refl|].
    split; [done|]. split; [done|].
    split; [split; [apply mutex_ext_refl|apply parents_ext_refl]|]. done.
  - cbn [for_each]. unfold add_initial at 1. unfold PgNode_s_init.
    cbn [alloc fst snd s_levels with_s_heap]. rewrite Hs. cbn [lookup list_lookup].
    cbn [and_then].
    set (n := mkPgNode_s (next_addr (s_heap pg)) p polarity).
    set (pg1 := with_s_levels _ _).
    destruct (IH pg1 (set_add n L))
      as (pg' & L' & Hrun & Hstat & Ha & Hah & [Hext Hpext] & Hs' & Hfr' & Hk').
    + done.
    + simpl. lia.
    + by apply fresh_set_add.
    + exists pg', L'. split; [done|]. split; [done|]. split; [done|]. split; [done|].
      split.
      { split.
        - eapply mutex_ext_trans; [apply (mutex_ext_alloc (s_heap pg))|done].
        - eapply parents_ext_trans; [apply (parents_ext_alloc (s_heap pg))|done]. }
      split; [done|]. split; [done|].
      rewrite Hk'. by rewrite (set_add_fmap literal_key_id).
Qed.

(** [create_graph] on a graph without levels builds the initial level and
    enters the loop. *)
Lemma initial_level_spec fuel pg :
  s_levels pg = [] → a_levels pg = [] →
  ∃ pg' L0,
    create_graph fuel pg = level_loop fuel 0 pg' ∧
    same_static pg pg' ∧ a_levels pg' = [] ∧ s_levels pg' = [L0] ∧ graph_ok pg' ∧
    (links_ok pg → links_ok pg') ∧
    py_key <$> L0 =
      set_update (set_update [] (lits true (pos (fs pg)))) (lits false (neg (fs pg))).
Proof.
  intros Hs Ha. unfold create_graph. rewrite Hs, Ha.
  cbn [length Nat.eqb negb orb app fs with_s_levels].
  destruct (add_initial_loop_spec true (pos (fs pg)) (with_s_levels [[]] pg) []
              (next_addr (s_heap pg)))
    as (pg1 & L1 & Hrun1 & Hstat1 & Ha1 & Hah1 & [Hext1 Hpext1] & Hs1 & Hfr1 & Hk1);
    [done|done|apply fresh_set_nil|].
  rewrite Hrun1. cbn [and_then].
  destruct (add_initial_loop_spec false (neg (fs pg1)) pg1 L1 (next_addr (s_heap pg)))
    as (pg2 & L2 & Hrun2 & Hstat2 & Ha2 & Hah2 & [Hext2 Hpext2] & Hs2 & Hfr2 & Hk2);
    [done|by destruct Hext1|done|].
  rewrite Hrun2. cbn [and_then].
  exists pg2, L2. split; [done|].
  assert (same_static pg pg2) as Hstat.
  { eapply same_static_trans; [|done]. eapply same_static_trans; [|done]. by repeat split. }
  split; [done|]. split. { by rewrite Ha2, Ha1. }
  split; [done|]. split.
  - split.
    + rewrite Hs2. intros L [->|[]%elem_of_nil]%elem_of_cons. split.
      * eapply (level_ok_new (s_heap pg)); [by eapply mutex_ext_trans| |done].
        rewrite Hk2, Hk1. do 2 apply lit_set_update_NoDup. constructor.
      * intros x Hx. by apply Hfr2.
    + rewrite Ha2, Ha1. cbn [a_levels with_s_levels]. rewrite Ha.
      intros L []%elem_of_nil.
  - split.
    + intros Hlinks. apply (links_ok_ext pg); [done|by rewrite Hah2, Hah1|..].
      * by eapply mutex_ext_trans.
      * by eapply parents_ext_trans.
    + rewrite Hk2, Hk1. destruct Hstat1 as (_ & -> & _). done.
Qed.

Lemma level_loop_ok fuel level pg pg' :
  graph_ok pg → length (a_levels pg) = level → length (s_levels pg) = S level →
  level_loop fuel level pg = Returned pg' →
  graph_ok pg' ∧ (links_ok pg → links_ok pg') ∧ same_static pg pg' ∧
  s_levels pg `prefix_of` s_levels pg'.
Proof.
  revert level pg. induction fuel as [|fuel IH]; intros level pg Hok Hla Hls Hrun;
    [done|].
  cbn [level_loop] in Hrun.
  destruct (level_round_spec level pg (level_loop fuel) Hok Hla Hls)
    as (pg1 & prev & A & L & Hprev & Hstat & Ha1 & Hs1 & Hok1 & Hlk1 & Hkeys & Heq).
  rewrite Heq in Hrun. destruct (set_eq L prev).
  - injection Hrun as <-. split; [done|]. split; [done|]. split; [done|].
    rewrite Hs1. by apply prefix_app_r.
  - destruct (IH (level + 1) pg1) as (Hok' & Hlk' & Hstat' & Hpre'); [done|..|done|].
    + rewrite Ha1, length_app. simpl. lia.
    + rewrite Hs1, length_app. simpl. lia.
    + split; [done|]. split; [auto|]. split; [by eapply same_static_trans|].
      etrans; [|done]. rewrite Hs1. by apply prefix_app_r.
Qed.

Lemma create_graph_ok fuel pg pg' :
  create_graph fuel pg = Returned pg' →
  graph_ok pg' ∧ (links_ok pg → links_ok pg') ∧ same_static pg pg' ∧
  s_levels pg' ≠ [].
Proof.
  destruct (s_levels pg) as [|? ?] eqn:Hs; [|by unfold create_graph; rewrite Hs].
  destruct (a_levels pg) as [|? ?] eqn:Ha; [|by unfold create_graph; rewrite Hs, Ha].
  destruct (initial_level_spec fuel pg Hs Ha)
    as (pg1 & L0 & -> & Hstat1 & Ha1 & Hs1 & Hok1 & Hlk1 & Hk1).
  intros Hloop.
  destruct (level_loop_ok fuel 0 pg1 pg') as (Hok & Hlk & Hstat & Hpre);
    [done|by rewrite Ha1|by rewrite Hs1|done|].
  split; [done|]. split; [auto|]. split; [by eapply same_static_trans|].
  rewrite Hs1 in Hpre. destruct Hpre as [k ->]. done.
Qed.

(** * The claims *)

(** ** Persistence and serial exclusion *)

Lemma noop_node_persistent (act : Action) (sh : SHeap) (ah : AHeap) :
  is_persistent (PgNode_a_init act sh ah).1.1 = persistent act.
Proof. apply PgNode_a_init_spec. Qed.


(** ** Building twice *)

Lemma create_graph_guard fuel pg :
  length (s_levels pg) ≠ 0 ∨ length (a_levels pg) ≠ 0 →
  create_graph fuel pg = Raised (Exception already_created) pg.
Proof.
  intros Hpop. unfold create_graph.
  destruct (Nat.eqb_spec (length (s_levels pg)) 0) as [Hs|Hs];
    destruct (Nat.eqb_spec (length (a_levels pg)) 0) as [Ha|Ha]; try done.
  by destruct Hpop.
Qed.

(** A graph that [create_graph] returned has levels, so a second call on
    it raises. *)
Lemma create_graph_second_call fuel fuel' pg pg' :
  create_graph fuel pg = Returned pg' →
  create_graph fuel' pg' = Raised (Exception already_created) pg'.
Proof.
  intros Hrun. apply create_graph_guard. left.
  destruct (create_graph_ok _ _ _ Hrun) as (_ & _ & _ & Hne).
  by destruct (s_levels pg').
Qed.

(** C9: [create_graph] on a graph whose level lists are not both empty
    raises the exception of the guard and leaves the graph as it was. *)
Theorem create_graph_twice_raises fuel pg :
  length (s_levels pg) ≠ 0 ∨ length (a_levels pg) ≠ 0 →
  create_graph fuel pg = Raised (Exception already_created) pg.
Proof. apply create_graph_guard. Qed.

Lemma create_graph_twice_raises_witness :
  create_graph 5 (returned (PlanningGraph_init two_adds "FF" true 2)) =
    Raised (Exception already_created)
      (returned (PlanningGraph_init two_adds "FF" true 2)).
Proof.
  apply (create_graph_twice_raises 5
           (returned (PlanningGraph_init two_adds "FF" true 2))).
  left. vm_compute. lia.
Defined.

(** ** The level sum *)

Lemma first_level_None goal_fluent levels i :
  first_level goal_fluent levels i = None ↔
  ∀ L, L ∈ levels → set_in goal_fluent L = false.
Proof.
  revert i. induction levels as [|L0 rest IH]; intros i; cbn [first_level].
  - split; [|done]. intros _ L HL. by apply elem_of_nil in HL.
  - destruct (set_in goal_fluent L0) eqn:E.
    + split; [done|]. intros Hall. rewrite Hall in E; [done|left].
    + rewrite IH. split.
      * intros Hall L [->|HL]%elem_of_cons; [done|by apply Hall].
      * intros Hall L HL. apply Hall. by right.
Qed.

Lemma first_level_Some goal_fluent levels i j :
  first_level goal_fluent levels i = Some j →
  i ≤ j ∧ ∃ L, levels !! (j - i) = Some L ∧ set_in goal_fluent L = true.
Proof.
  revert i. induction levels as [|L0 rest IH]; intros i; cbn [first_level]; [done|].
  destruct (set_in goal_fluent L0) eqn:E.
  - intros [= <-]. split; [done|]. exists L0. by rewrite Nat.sub_diag.
  - intros Hj. destruct (IH _ Hj) as (Hle & L & HL & Hin). split; [lia|].
    exists L. split; [|done]. by replace (j - i) with (S (j - S i)) by lia.
Qed.

Lemma first_level_here goal_fluent L0 rest :
  first_level goal_fluent (L0 :: rest) 0 = Some 0 ↔ set_in goal_fluent L0 = true.
Proof.
  cbn [first_level]. destruct (set_in goal_fluent L0) eqn:E; [done|].
  split; [|done]. intros Hj. apply first_level_Some in Hj as [Hle _]. lia.
Qed.

(** The sum that [h_levelsum] accumulates is 0 exactly when it started at 0
    and every goal either added 0 or added nothing. *)
Lemma level_sum_zero (levels : list (list PgNode_s)) (goals : list PgNode_s) (acc : nat) :
  fold_left (λ level_sum goal_fluent,
               match first_level goal_fluent levels 0 with
               | Some i => level_sum + i
               | None => level_sum
               end) goals acc = 0 ↔
  acc = 0 ∧ ∀ g, g ∈ goals →
    first_level g levels 0 = Some 0 ∨ first_level g levels 0 = None.
Proof.
  revert acc. induction goals as [|g goals IH]; intros acc; cbn [fold_left].
  - split; [|by intros [? _]]. intros ->. split; [done|].
    intros g Hg. by apply elem_of_nil in Hg.
  - rewrite IH. split.
    + intros [Hacc Hall]. destruct (first_level g levels 0) as [i|] eqn:E.
      * assert (acc = 0 ∧ i = 0) as [-> ->] by lia. split; [done|].
        intros g' [->|Hg']%elem_of_cons; [left; done|by apply Hall].
      * split; [done|]. intros g' [->|Hg']%elem_of_cons; [by right|by apply Hall].
    + intros [-> Hall]. split.
      * destruct (Hall g) as [->| ->]; [left|done..].
      * intros g' Hg'. apply Hall. by right.
Qed.

(** Goals that are in no level add nothing to the sum. *)
Lemma level_sum_skip (levels : list (list PgNode_s)) (gs1 gs2 : list PgNode_s)
    (g : PgNode_s) (acc : nat) :
  first_level g levels 0 = None →
  fold_left (λ level_sum goal_fluent,
               match first_level goal_fluent levels 0 with
               | Some i => level_sum + i
               | None => level_sum
               end) (gs1 ++ g :: gs2) acc =
  fold_left (λ level_sum goal_fluent,
               match first_level goal_fluent levels 0 with
               | Some i => level_sum + i
               | None => level_sum
               end) (gs1 ++ gs2) acc.
Proof. intros Hg. rewrite !fold_left_app. cbn [fold_left]. by rewrite Hg. Qed.

(** C4, as the code has it: a goal literal that is in no literal level is
    passed over.  [h_levelsum] returns the level sum of the other goals, a
    plain number; nothing tells the caller that a goal was not found. *)
Theorem h_levelsum_passes_over_absent_goal pg g gs1 gs2 :
  goal_states pg = gs1 ++ g :: gs2 →
  (∀ L, L ∈ s_levels pg → set_in g L = false) →
  h_levelsum pg = h_levelsum (with_goal_states (gs1 ++ gs2) pg).
Proof.
  intros Hgoals Habsent. unfold h_levelsum.
  cbn [goal_states s_levels with_goal_states]. rewrite Hgoals.
  apply level_sum_skip. by apply first_level_None.
Qed.

Lemma h_levelsum_passes_over_absent_goal_witness :
  h_levelsum (returned (PlanningGraph_init unreachable_goal "TF" true 1)) =
  h_levelsum (with_goal_states ([] ++ [])
                (returned (PlanningGraph_init unreachable_goal "TF" true 1))).
Proof.
  apply (h_levelsum_passes_over_absent_goal
           (returned (PlanningGraph_init unreachable_goal "TF" true 1))
           (mkPgNode_s 10 "G" true) [] []).
  - vm_compute. reflexivity.
  - apply Forall_forall. vm_compute. repeat constructor.
Defined.

(** C4, the claim as stated fails: the goal [G] of [unreachable_goal] is in
    no level of the leveled graph, and [h_levelsum] returns 0, the value it
    returns for [goal_at_start], whose goal holds in the initial level. *)
Lemma absent_goal_reported_as_zero :
  ∃ pg pg',
    PlanningGraph_init unreachable_goal "TF" true 1 = Returned pg ∧
    (∀ g L, g ∈ goal_states pg → L ∈ s_levels pg → set_in g L = false) ∧
    PlanningGraph_init goal_at_start "TF" true 1 = Returned pg' ∧
    (∀ g, g ∈ goal_states pg' → ∃ L, s_levels pg' !! 0 = Some L ∧ set_in g L = true) ∧
    h_levelsum pg = 0 ∧ h_levelsum pg' = 0.
Proof.
  exists (returned (PlanningGraph_init unreachable_goal "TF" true 1)),
         (returned (PlanningGraph_init goal_at_start "TF" true 1)).
  split; [by vm_compute|]. split.
  { intros g L Hg. revert L. apply Forall_forall. revert g Hg. apply Forall_forall.
    vm_compute. repeat constructor. }
  split; [by vm_compute|]. split.
  { apply Forall_forall. vm_compute. repeat econstructor. }
  split; by vm_compute.
Qed.

(** C5, as the code has it: the level sum is 0 exactly when every goal
    literal that is in some literal level is in the initial level. *)
Theorem h_levelsum_zero_iff pg :
  h_levelsum pg = 0 ↔
  ∀ g, g ∈ goal_states pg →
    (∃ L, L ∈ s_levels pg ∧ set_in g L = true) →
    ∃ L0, s_levels pg !! 0 = Some L0 ∧ set_in g L0 = true.
Proof.
  unfold h_levelsum. rewrite level_sum_zero. split.
  - intros [_ Hall] g Hg (L & HL & Hin). destruct (Hall g Hg) as [H0|Hnone].
    + destruct (s_levels pg) as [|L0 rest]; [done|].
      exists L0. split; [done|]. by apply (proj1 (first_level_here g L0 rest)).
    + rewrite first_level_None in Hnone. rewrite Hnone in Hin; done.
  - intros Hall. split; [done|]. intros g Hg.
    destruct (first_level g (s_levels pg) 0) as [j|] eqn:E; [left|by right].
    destruct (first_level_Some _ _ _ _ E) as (_ & L & HL & Hin).
    destruct (Hall g Hg) as (L0 & HL0 & Hin0).
    { exists L. split; [by eapply list_elem_of_lookup_2|done]. }
    destruct (s_levels pg) as [|L0' rest]; [done|].
    injection HL0 as ->. rewrite <- E. by apply (proj2 (first_level_here g L0 rest)).
Qed.

(** C5, the claim as stated fails: the level sum of the graph of
    [unreachable_goal] is 0 although its goal is not in the initial level. *)
Lemma levelsum_zero_without_goal_at_start :
  ∃ pg, PlanningGraph_init unreachable_goal "TF" true 1 = Returned pg ∧
    ¬ (h_levelsum pg = 0 ↔
       ∀ g, g ∈ goal_states pg →
         ∃ L0, s_levels pg !! 0 = Some L0 ∧ set_in g L0 = true).
Proof.
  exists (returned (PlanningGraph_init unreachable_goal "TF" true 1)).
  split; [by vm_compute|]. intros [Hzero _].
  destruct (Hzero eq_refl (mkPgNode_s 10 "G" true)) as (L0 & HL0 & Hin).
  - vm_compute. left.
  - vm_compute in HL0. injection HL0 as <-. by vm_compute in Hin.
Qed.

(** ** The mutex relation of a built graph *)

Lemma add_goal_ext (goals : list string) (acc : list PgNode_s * SHeap) :
  mutex_ext acc.2 (fold_left add_goal goals acc).2 ∧
  parents_ext acc.2 (fold_left add_goal goals acc).2.
Proof.
  revert acc. induction goals as [|s goals IH]; intros acc; cbn [fold_left].
  - split; [apply mutex_ext_refl|apply parents_ext_refl].
  - destruct (IH (add_goal acc s)) as [Hm Hp]. split.
    + eapply mutex_ext_trans; [|exact Hm]. apply (mutex_ext_alloc acc.2).
    + eapply parents_ext_trans; [|exact Hp]. apply (parents_ext_alloc acc.2).
Qed.

Lemma PlanningGraph_init_ok problem state serial_planning fuel pg :
  PlanningGraph_init problem state serial_planning fuel = Returned pg →
  graph_ok pg ∧ links_ok pg.
Proof.
  unfold PlanningGraph_init.
  destruct (decode_state state (state_map problem)) as [fs0|]; [|done].
  destruct (create_graph fuel _) as [pg1| |] eqn:Hrun; [|done..].
  cbn [and_then]. intros [= <-].
  destruct (create_graph_ok _ _ _ Hrun) as ([Hs Ha] & Hlk & _ & _).
  destruct (add_goal_ext (goal problem) ([], s_heap pg1)) as [Hm Hp].
  split.
  - split; [|done]. cbn [s_heap s_levels with_goal_states with_s_heap].
    by eapply levels_ok_mutex_ext.
  - apply (links_ok_ext pg1); [|done..]. apply Hlk.
    split; cbn; intros; lia.
Qed.

(** C8: in a graph the constructor returned, two nodes of one literal
    level, or of one action level, are in each other's mutex set or in
    neither. *)
Theorem mutex_symmetric problem state serial_planning fuel pg :
  PlanningGraph_init problem state serial_planning fuel = Returned pg →
  (∀ L a b, L ∈ s_levels pg → a ∈ L → b ∈ L →
     is_mutex (s_heap pg) a b = true ↔ is_mutex (s_heap pg) b a = true) ∧
  (∀ L a b, L ∈ a_levels pg → a ∈ L → b ∈ L →
     is_mutex (a_heap pg) a b = true ↔ is_mutex (a_heap pg) b a = true).
Proof.
  intros Hrun. destruct (PlanningGraph_init_ok _ _ _ _ _ Hrun) as [[Hs Ha] _].
  split; intros L a b HL HaL HbL.
  - destruct (Hs L HL) as [Hok _]. by rewrite (level_ok_sym _ L a b).
  - destruct (Ha L HL) as [Hok _]. by rewrite (level_ok_sym _ L a b).
Qed.

Lemma mutex_symmetric_witness :
  (∀ L a b, L ∈ s_levels (returned (PlanningGraph_init two_adds "FF" true 2)) →
     a ∈ L → b ∈ L →
     is_mutex (s_heap (returned (PlanningGraph_init two_adds "FF" true 2))) a b = true ↔
     is_mutex (s_heap (returned (PlanningGraph_init two_adds "FF" true 2))) b a = true) ∧
  (∀ L a b, L ∈ a_levels (returned (PlanningGraph_init two_adds "FF" true 2)) →
     a ∈ L → b ∈ L →
     is_mutex (a_heap (returned (PlanningGraph_init two_adds "FF" true 2))) a b = true ↔
     is_mutex (a_heap (returned (PlanningGraph_init two_adds "FF" true 2))) b a = true).
Proof.
  apply (mutex_symmetric two_adds "FF" true 2).
  vm_compute. reflexivity.
Defined.

(** C10: in a graph the constructor returned, no node of a literal level
    or of an action level has a node equal to itself in its mutex set. *)
Theorem mutex_irreflexive problem state serial_planning fuel pg :
  PlanningGraph_init problem state serial_planning fuel = Returned pg →
  (∀ L a, L ∈ s_levels pg → a ∈ L → is_mutex (s_heap pg) a a = false) ∧
  (∀ L a, L ∈ a_levels pg → a ∈ L → is_mutex (a_heap pg) a a = false).
Proof.
  intros Hrun. destruct (PlanningGraph_init_ok _ _ _ _ _ Hrun) as [[Hs Ha] _].
  split; intros L a HL HaL.
  - destruct (Hs L HL) as [Hok _]. by apply (level_ok_irrefl _ L).
  - destruct (Ha L HL) as [Hok _]. by apply (level_ok_irrefl _ L).
Qed.

Lemma mutex_irreflexive_witness :
  (∀ L a, L ∈ s_levels (returned (PlanningGraph_init two_adds "FF" true 2)) →
     a ∈ L →
     is_mutex (s_heap (returned (PlanningGraph_init two_adds "FF" true 2))) a a = false) ∧
  (∀ L a, L ∈ a_levels (returned (PlanningGraph_init two_adds "FF" true 2)) →
     a ∈ L →
     is_mutex (a_heap (returned (PlanningGraph_init two_adds "FF" true 2))) a a = false).
Proof.
  apply (mutex_irreflexive two_adds "FF" true 2).
  vm_compute. reflexivity.
Defined.

(** ** Inconsistent support, competing needs and the parents of a literal *)

(** What [inconsistent_support_mutex] computes: some parent of the first
    literal is mutex with some parent of the second, and no such mutex pair
    has a member with both literals among its children. *)
Lemma support_inner_spec pg s1 s2 parent_a parents_b result :
  support_inner pg s1 s2 parent_a parents_b result =
    if existsb (λ parent_b, is_mutex (a_heap pg) parent_a parent_b &&
                  produces_both pg s1 s2 parent_a parent_b) parents_b
    then ReturnValue false
    else Finished (result || existsb (is_mutex (a_heap pg) parent_a) parents_b).
Proof.
  revert result. induction parents_b as [|parent_b rest IH]; intros result;
    cbn [support_inner existsb].
  - by rewrite orb_false_r.
  - unfold produces_both at 1.
    destruct (is_mutex (a_heap pg) parent_a parent_b); cbn [andb orb].
    + destruct (_ || _); [done|]. rewrite IH.
      destruct (existsb _ rest); [done|]. by rewrite orb_true_r.
    + by rewrite IH.
Qed.

Lemma support_outer_spec pg s1 s2 parents_a parents_b result :
  support_outer pg s1 s2 parents_a parents_b result =
    if existsb (λ parent_a,
         existsb (λ parent_b, is_mutex (a_heap pg) parent_a parent_b &&
                    produces_both pg s1 s2 parent_a parent_b) parents_b) parents_a
    then false
    else result ||
         existsb (λ parent_a, existsb (is_mutex (a_heap pg) parent_a) parents_b)
           parents_a.
Proof.
  revert result. induction parents_a as [|parent_a rest IH]; intros result;
    cbn [support_outer existsb].
  - by rewrite orb_false_r.
  - rewrite support_inner_spec.
    destruct (existsb _ parents_b); cbn [orb]; [done|].
    rewrite IH. destruct (existsb _ rest); [done|]. by rewrite orb_assoc.
Qed.

Lemma inconsistent_support_mutex_spec pg s1 s2 :
  inconsistent_support_mutex pg s1 s2 =
    existsb (λ parent_a,
       existsb (is_mutex (a_heap pg) parent_a)
         (parents (deref (s_heap pg) (addr s2))))
      (parents (deref (s_heap pg) (addr s1))) &&
    negb (existsb (λ parent_a,
       existsb (λ parent_b, is_mutex (a_heap pg) parent_a parent_b &&
                  produces_both pg s1 s2 parent_a parent_b)
         (parents (deref (s_heap pg) (addr s2))))
      (parents (deref (s_heap pg) (addr s1)))).
Proof.
  unfold inconsistent_support_mutex. rewrite support_outer_spec.
  destruct (existsb _ _); cbn [negb orb]; [by rewrite andb_false_r|].
  by rewrite andb_true_r.
Qed.

(** C1, the code at a failing input: the literal [s1] has the producers
    [a1] and [a2], the literal [s2] has the producer [b]; [a1] and [b] are
    mutex, [a2] and [b] are not, and no node has both literals among its
    children.  [inconsistent_support_mutex] answers true. *)
Theorem inconsistent_support_one_pair_suffices :
  parents (deref (s_heap (sn_graph support_case)) (addr (sn_s1 support_case))) =
    [sn_a1 support_case; sn_a2 support_case] ∧
  parents (deref (s_heap (sn_graph support_case)) (addr (sn_s2 support_case))) =
    [sn_b support_case] ∧
  is_mutex (a_heap (sn_graph support_case)) (sn_a1 support_case) (sn_b support_case) = true ∧
  is_mutex (a_heap (sn_graph support_case)) (sn_a2 support_case) (sn_b support_case) = false ∧
  Forall (λ a, set_in (sn_s1 support_case) (children (deref (a_heap (sn_graph support_case)) (addr a))) &&
               set_in (sn_s2 support_case) (children (deref (a_heap (sn_graph support_case)) (addr a))) = false)
    [sn_a1 support_case; sn_a2 support_case; sn_b support_case] ∧
  inconsistent_support_mutex (sn_graph support_case)
    (sn_s1 support_case) (sn_s2 support_case) = true.
Proof. vm_compute. repeat split; repeat constructor. Qed.

(** C1 in a built graph, the action level being visited in the order of
    insertion: at literal level 2 of [two_adds] the literals [P] and [Q] are
    marked mutex, and not by negation, although [A1], which produces [P],
    and the no-op of [Q], which produces [Q], are not mutex. *)
Lemma inconsistent_support_in_two_adds :
  ∃ pg L2 A1 p q a1 nq,
    PlanningGraph_init two_adds "FF" true 2 = Returned pg ∧
    s_levels pg !! 2 = Some L2 ∧ a_levels pg !! 1 = Some A1 ∧
    find_s "P" true L2 = [p] ∧ find_s "Q" true L2 = [q] ∧
    find_a "A1" [] A1 = [a1] ∧ find_a "Noop_pos" ["Q"] A1 = [nq] ∧
    set_in p (effnodes a1) = true ∧ set_in q (effnodes nq) = true ∧
    is_mutex (a_heap pg) a1 nq = false ∧
    negation_mutex p q = false ∧
    inconsistent_support_mutex pg p q = true ∧
    is_mutex (s_heap pg) p q = true.
Proof.
  exists (returned (PlanningGraph_init two_adds "FF" true 2)).
  do 6 eexists.
  split; [by vm_compute|].
  split; [by vm_compute|]. split; [by vm_compute|].
  split; [by vm_compute|]. split; [by vm_compute|].
  split; [by vm_compute|]. split; [by vm_compute|].
  repeat split; by vm_compute.
Qed.

(** In every graph the constructor returns, [competing_needs_mutex] answers
    false for any two nodes of an action level: the parents of an action
    node are never nodes of a literal level, and their mutex sets are
    empty. *)
Lemma competing_needs_never_holds problem state serial_planning fuel pg :
  PlanningGraph_init problem state serial_planning fuel = Returned pg →
  ∀ L n1 n2, L ∈ a_levels pg → n1 ∈ L → n2 ∈ L →
    competing_needs_mutex pg n1 n2 = false.
Proof.
  intros Hrun L n1 n2 HL Hn1 Hn2.
  destruct (PlanningGraph_init_ok _ _ _ _ _ Hrun) as [[_ Ha] [_ Hpar]].
  destruct (Ha L HL) as [_ Hb]. specialize (Hb n2 Hn2).
  unfold competing_needs_mutex.
  apply not_true_is_false. rewrite existsb_exists.
  intros (p1 & _ & Hex). apply existsb_exists in Hex as (p2 & Hp2 & Hmut).
  apply list_elem_of_In in Hp2. destruct (Hpar _ p2 Hb Hp2) as [_ Hempty].
  unfold is_mutex in Hmut. by rewrite Hempty in Hmut.
Qed.

(** C2, the code at a failing input: in the graph of [two_adds] the
    literals [P] and [Q] of literal level 1 are mutex; the no-ops of [P] and
    of [Q] are in action level 1, with [P] and [Q] as their preconditions.
    The parents of the two action nodes are nodes equal to, but other than,
    the nodes of the level, their mutex sets are empty, and
    [competing_needs_mutex] answers false; the two no-ops are not mutex. *)
Theorem competing_needs_misses_mutex_parents :
  ∃ pg L1 A1 p q np nq p' q',
    PlanningGraph_init two_adds "FF" true 2 = Returned pg ∧
    s_levels pg !! 1 = Some L1 ∧ a_levels pg !! 1 = Some A1 ∧
    find_s "P" true L1 = [p] ∧ find_s "Q" true L1 = [q] ∧
    is_mutex (s_heap pg) p q = true ∧
    find_a "Noop_pos" ["P"] A1 = [np] ∧ find_a "Noop_pos" ["Q"] A1 = [nq] ∧
    precond_pos (action np) = ["P"] ∧ precond_pos (action nq) = ["Q"] ∧
    parents (deref (a_heap pg) (addr np)) = [p'] ∧
    parents (deref (a_heap pg) (addr nq)) = [q'] ∧
    py_eq p' p = true ∧ py_eq q' q = true ∧
    addr p' ≠ addr p ∧ addr q' ≠ addr q ∧
    mutex (deref (s_heap pg) (addr p')) = [] ∧
    mutex (deref (s_heap pg) (addr q')) = [] ∧
    competing_needs_mutex pg np nq = false ∧
    is_mutex (a_heap pg) np nq = false.
Proof.
  exists (returned (PlanningGraph_init two_adds "FF" true 2)).
  do 8 eexists.
  split; [by vm_compute|].
  split; [by vm_compute|]. split; [by vm_compute|].
  split; [by vm_compute|]. split; [by vm_compute|].
  split; [by vm_compute|].
  split; [by vm_compute|]. split; [by vm_compute|].
  split; [by vm_compute|]. split; [by vm_compute|].
  split; [by vm_compute|]. split; [by vm_compute|].
  repeat split; by vm_compute.
Qed.

(** In every graph the constructor returns, a node of a literal level has
    one parent at most, however many action nodes produce its literal. *)
Lemma literal_node_parents_le_one problem state serial_planning fuel pg :
  PlanningGraph_init problem state serial_planning fuel = Returned pg →
  ∀ L x, L ∈ s_levels pg → x ∈ L →
    length (parents (deref (s_heap pg) (addr x))) ≤ 1.
Proof.
  intros Hrun L x HL Hx.
  destruct (PlanningGraph_init_ok _ _ _ _ _ Hrun) as [[Hs _] [Hone _]].
  destruct (Hs L HL) as [_ Hb]. apply Hone. by apply Hb.
Qed.

(** C3, the code at a failing input: in action level 1 of [two_adds] both
    [A1] and the no-op of [P] have the literal [P] among their effect
    literals; the node of [P] in literal level 2 has a single parent, so one
    of the two producers is not among its parents. *)
Theorem literal_keeps_one_parent :
  ∃ pg L2 A1 p a1 np,
    PlanningGraph_init two_adds "FF" true 2 = Returned pg ∧
    s_levels pg !! 2 = Some L2 ∧ a_levels pg !! 1 = Some A1 ∧
    find_s "P" true L2 = [p] ∧
    find_a "A1" [] A1 = [a1] ∧ find_a "Noop_pos" ["P"] A1 = [np] ∧
    py_eq a1 np = false ∧
    set_in p (effnodes a1) = true ∧ set_in p (effnodes np) = true ∧
    length (parents (deref (s_heap pg) (addr p))) = 1 ∧
    set_in a1 (parents (deref (s_heap pg) (addr p))) &&
    set_in np (parents (deref (s_heap pg) (addr p))) = false.
Proof.
  exists (returned (PlanningGraph_init two_adds "FF" true 2)).
  do 5 eexists.
  split; [by vm_compute|].
  split; [by vm_compute|]. split; [by vm_compute|].
  split; [by vm_compute|].
  split; [by vm_compute|]. split; [by vm_compute|].
  repeat split; by vm_compute.
Qed.

(** ** Leveling off *)

(** *** Sets of literals *)

Lemma lit_set_in (x : literal) (s : list literal) : set_in x s = true ↔ x ∈ s.
Proof.
  rewrite set_in_true. split.
  - intros (y & Hy & Heq). change (y = x) in Heq. by subst.
  - intros Hx. by exists x.
Qed.

Lemma lit_elem_of_set_update (x : literal) (s xs : list literal) :
  x ∈ set_update s xs ↔ x ∈ s ∨ x ∈ xs.
Proof.
  split; [apply elem_of_set_update|].
  intros Hx. apply lit_set_in. rewrite set_in_set_update.
  apply orb_true_iff. by rewrite !lit_set_in.
Qed.

Lemma lit_set_eq (s1 s2 : list literal) :
  set_eq s1 s2 = true ↔ length s1 = length s2 ∧ ∀ x, x ∈ s1 → x ∈ s2.
Proof.
  unfold set_eq. rewrite andb_true_iff, Nat.eqb_eq, forallb_set_in.
  split; intros [Hlen Hall]; (split; [done|]); intros x Hx;
    by apply lit_set_in, Hall.
Qed.

Lemma elem_of_lits (x : literal) polarity ps :
  x ∈ lits polarity ps ↔ x.2 = polarity ∧ x.1 ∈ ps.
Proof.
  unfold lits. rewrite list_elem_of_fmap. split.
  - by intros (p & -> & Hp).
  - intros [<- Hp]. exists x.1. by destruct x.
Qed.

Lemma elem_of_eff_keys (x : literal) act :
  x ∈ eff_keys act ↔
  x ∈ lits true (effect_add act) ∨ x ∈ lits false (effect_rem act).
Proof.
  unfold eff_keys. rewrite !lit_elem_of_set_update.
  split; [intros [[[]%elem_of_nil|?]|?]|intros [?|?]]; auto.
Qed.

Lemma elem_of_pre_keys (x : literal) act :
  x ∈ pre_keys act ↔
  x ∈ lits true (precond_pos act) ∨ x ∈ lits false (precond_neg act).
Proof.
  unfold pre_keys. rewrite !lit_elem_of_set_update.
  split; [intros [[[]%elem_of_nil|?]|?]|intros [?|?]]; auto.
Qed.

Lemma enabled_spec ks act :
  enabled ks act = true ↔ ∀ x, x ∈ pre_keys act → x ∈ ks.
Proof.
  unfold enabled. rewrite andb_true_iff, !forallb_forall. split.
  - intros [Hpos Hneg] x [Hx|Hx]%elem_of_pre_keys;
      apply elem_of_lits in Hx as [Hpol Hx]; apply lit_set_in;
      destruct x as [p b]; simpl in *; subst.
    + apply Hpos. by apply list_elem_of_In.
    + apply Hneg. by apply list_elem_of_In.
  - intros Hall. split; intros p Hp%list_elem_of_In; apply lit_set_in, Hall,
      elem_of_pre_keys; [left|right]; by apply elem_of_lits.
Qed.

(** *** The members of the next action level *)

Lemma next_actions_sound acts ks act :
  act ∈ next_actions acts ks → act ∈ acts ∧ enabled ks act = true.
Proof.
  unfold next_actions.
  apply (fold_left_inv (λ L, act ∈ L → act ∈ acts ∧ enabled ks act = true)).
  - by intros []%elem_of_nil.
  - intros L a Ha HL. destruct (enabled ks a) eqn:E; [|done].
    intros [?|[_ ->]]%elem_of_set_add; [by apply HL|done].
Qed.

Lemma distinct_names_inj acts a b :
  distinct_names acts → a ∈ acts → b ∈ acts → act_key a = act_key b → a = b.
Proof.
  intros Hnd Ha Hb Heq.
  apply list_elem_of_lookup in Ha as [i Hi].
  apply list_elem_of_lookup in Hb as [j Hj].
  assert (i = j) as ->; [|congruence].
  eapply NoDup_lookup; [exact Hnd| |]; rewrite list_lookup_fmap.
  - by rewrite Hi.
  - rewrite Hj. simpl. by injection Heq as -> -> _.
Qed.

(** When the names are distinct, no enabled action is dropped as a
    duplicate. *)
Lemma next_actions_complete acts ks act :
  distinct_names acts → act ∈ acts → enabled ks act = true →
  act ∈ next_actions acts ks.
Proof.
  intros Hnd Hact Hen.
  assert (∀ seen rest, seen ++ rest = acts →
            (∀ a, a ∈ next_actions seen ks → a ∈ seen) ∧
            (act ∈ seen → act ∈ next_actions seen ks)) as Hgen.
  { intros seen. induction seen as [|a seen IH] using rev_ind; intros rest Heq.
    - split; [by intros ? []%elem_of_nil|by intros []%elem_of_nil].
    - destruct (IH (a :: rest)) as [Hsub Hin]; [by rewrite <- Heq, <- app_assoc|].
      rewrite next_actions_snoc. split.
      + intros a' Ha'. apply elem_of_app. destruct (enabled ks a).
        * apply elem_of_set_add in Ha' as [?|[_ ->]]; [left; by apply Hsub|].
          right. by left.
        * left. by apply Hsub.
      + intros [Hseen|Hlast%list_elem_of_singleton]%elem_of_app.
        * destruct (enabled ks a); [apply set_add_incl|]; by apply Hin.
        * subst a. rewrite Hen. apply elem_of_set_add.
          destruct (set_in act (next_actions seen ks)) eqn:E; [left|by right].
          apply set_in_true in E as (y & Hy & Hkey).
          assert (y = act) as <-; [|done].
          apply (distinct_names_inj acts); [done| |done|done].
          rewrite <- Heq, !elem_of_app. left. left. by apply Hsub. }
  destruct (Hgen acts []) as [_ Hin]; [by rewrite app_nil_r|]. by apply Hin.
Qed.

(** *** The members of the next literal level *)

Lemma elem_of_next_literals acts ks (x : literal) :
  x ∈ next_literals acts ks ↔
  ∃ act, act ∈ next_actions acts ks ∧ x ∈ eff_keys act.
Proof.
  unfold next_literals. rewrite lit_elem_of_set_update, list_elem_of_bind.
  split.
  - intros [[]%elem_of_nil|(act & Hx & Hact)]. eauto.
  - intros (act & Hact & Hx). right. eauto.
Qed.

Lemma next_literals_NoDup acts ks : NoDup (next_literals acts ks).
Proof. apply lit_set_update_NoDup. constructor. Qed.

Lemma next_literals_mono acts ks ks' :
  distinct_names acts → (∀ x, x ∈ ks → x ∈ ks') →
  ∀ x, x ∈ next_literals acts ks → x ∈ next_literals acts ks'.
Proof.
  intros Hnd Hsub x (act & Hact & Hx)%elem_of_next_literals.
  apply elem_of_next_literals. exists act. split; [|done].
  apply next_actions_sound in Hact as [Hin Hen].
  apply next_actions_complete; [done..|].
  apply enabled_spec. intros y Hy. apply Hsub. revert y Hy. by apply enabled_spec.
Qed.

(** *** The loop *)

Lemma levels_monotone_snoc Ls prev L :
  levels_monotone Ls → last Ls = Some prev →
  (∀ x, x ∈ prev → set_in x L = true) →
  levels_monotone (Ls ++ [L]).
Proof.
  intros Hmono Hlast Hsub k L1 L2 H1 H2.
  apply lookup_lt_Some in H2 as Hlt. rewrite length_app in Hlt. simpl in Hlt.
  destruct (decide (S k < length Ls)) as [Hin|Hout].
  - rewrite lookup_app_l in H1, H2 by lia. by eapply Hmono.
  - rewrite lookup_app_l in H1 by lia.
    rewrite last_lookup in Hlast.
    replace (pred (length Ls)) with k in Hlast by lia.
    rewrite H1 in Hlast. injection Hlast as ->.
    rewrite lookup_app_r in H2 by lia.
    replace (S k - length Ls) with 0 in H2 by lia. by injection H2 as <-.
Qed.

(** A level that contains its predecessor and is not [==] to it is
    longer. *)
Lemma set_eq_false_longer (ks ks' : list literal) :
  NoDup ks → (∀ x, x ∈ ks → x ∈ ks') → set_eq ks' ks = false →
  length ks < length ks'.
Proof.
  intros Hnd Hsub Hne.
  pose proof (NoDup_submseteq ks ks' Hnd Hsub) as Hms.
  pose proof (submseteq_length _ _ Hms) as Hle.
  destruct (decide (length ks < length ks')) as [|Hge]; [done|].
  exfalso. apply not_true_iff_false in Hne. apply Hne.
  apply lit_set_eq. split; [lia|].
  intros x Hx.
  assert (ks ≡ₚ ks') as Hperm by (apply submseteq_length_Permutation; [done|lia]).
  by rewrite Hperm.
Qed.

Lemma level_loop_terminates (U : list literal) m : ∀ fuel level pg prev,
  graph_ok pg → length (a_levels pg) = level → length (s_levels pg) = S level →
  distinct_names (all_actions pg) →
  (∀ ks x, x ∈ next_literals (all_actions pg) ks → x ∈ U) →
  levels_monotone (s_levels pg) →
  last (s_levels pg) = Some prev →
  NoDup (py_key <$> prev) →
  (∀ x, x ∈ py_key <$> prev →
        x ∈ next_literals (all_actions pg) (py_key <$> prev)) →
  length U ≤ length prev + m → m < fuel →
  ∃ pg', level_loop fuel level pg = Returned pg' ∧ same_static pg pg' ∧
         length (s_levels pg') ≤ length (s_levels pg) + m + 1 ∧
         levels_monotone (s_levels pg').
Proof.
  induction m as [|m IH];
    intros fuel level pg prev Hok Hla Hls Hnames Hrange Hmono Hlast Hnd Hgrow Hm Hfuel.
  all: destruct fuel as [|fuel]; [lia|]; cbn [level_loop].
  all: destruct (level_round_spec level pg (level_loop fuel) Hok Hla Hls)
         as (pg1 & prev' & A & L & Hprev' & Hstat & Ha1 & Hs1 & Hok1 & Hlk1 & Hkeys & Heq).
  all: assert (prev' = prev) as ->
         by (rewrite last_lookup, Hls in Hlast; simpl in Hlast; congruence).
  all: rewrite Heq.
  all: assert (∀ x, x ∈ prev → set_in x L = true) as Hsub
         by (intros x Hx; apply set_in_key; rewrite Hkeys; apply Hgrow;
             apply list_elem_of_fmap; eauto).
  all: assert (levels_monotone (s_levels pg1)) as Hmono1
         by (rewrite Hs1; by eapply levels_monotone_snoc).
  all: assert (length (py_key <$> L) ≤ length U) as HleU
         by (apply submseteq_length, NoDup_submseteq;
             [rewrite Hkeys; apply next_literals_NoDup|];
             intros x Hx; rewrite Hkeys in Hx; by eapply Hrange).
  all: destruct (set_eq L prev) eqn:E.
  all: try (exists pg1; split; [done|]; split; [done|]; split; [|done];
            rewrite Hs1, length_app; simpl; lia).
  all: rewrite <- (set_eq_fmap literal_key_id) in E.
  all: apply set_eq_false_longer in E; [|done|by rewrite Hkeys].
  all: rewrite !length_fmap in *.
  - lia.
  - destruct (IH fuel (level + 1) pg1 L) as (pg' & Hrun & Hstat' & Hlen & Hmono');
      try done.
    + rewrite Ha1, length_app. simpl. lia.
    + rewrite Hs1, length_app. simpl. lia.
    + destruct Hstat as (_ & _ & _ & -> & _). done.
    + destruct Hstat as (_ & _ & _ & -> & _). done.
    + rewrite Hs1. apply last_snoc.
    + rewrite Hkeys. apply next_literals_NoDup.
    + destruct Hstat as (_ & _ & _ & -> & _). rewrite Hkeys.
      apply next_literals_mono; [done|]. apply Hgrow.
    + lia.
    + lia.
    + exists pg'. split; [done|]. split; [by eapply same_static_trans|].
      split; [|done]. rewrite Hs1, length_app in Hlen. simpl in Hlen. lia.
Qed.

(** *** The initial level and the no-ops *)

Lemma decode_state_spec state fluent_map fs0 :
  decode_state state fluent_map = Some fs0 →
  ∀ f, f ∈ fluent_map ↔ f ∈ pos fs0 ∨ f ∈ neg fs0.
Proof.
  revert state fs0. induction fluent_map as [|fluent fluents IH];
    intros [|c rest] fs0; cbn [decode_state]; try done.
  - intros [= <-] f. simpl. split; [by intros []%elem_of_nil|].
    by intros [[]%elem_of_nil|[]%elem_of_nil].
  - destruct (decode_state rest fluents) as [fs1|] eqn:E; [|done].
    specialize (IH rest fs1 E).
    repeat case_bool_decide; intros [= <-] f; cbn [pos neg];
      rewrite !elem_of_cons, IH; tauto.
Qed.

Lemma noop_actions_elem act literal_list :
  act ∈ noop_actions literal_list ↔
  ∃ fluent, fluent ∈ literal_list ∧
    (act = mkAction "Noop_pos" [fluent] [fluent] [] [fluent] [] ∨
     act = mkAction "Noop_neg" [fluent] [] [fluent] [] [fluent]).
Proof.
  unfold noop_actions. rewrite list_elem_of_In, in_flat_map. split.
  - intros (fluent & Hf%list_elem_of_In & [<-|[<-|[]]]); eauto.
  - intros (fluent & Hf%list_elem_of_In & [->| ->]); exists fluent;
      (split; [done|]); [left|right; left]; done.
Qed.

Lemma noop_effects_within vocabulary act :
  act ∈ noop_actions vocabulary → effects_within vocabulary act.
Proof.
  intros (fluent & Hf & [->| ->])%noop_actions_elem;
    unfold effects_within; cbn; by repeat constructor.
Qed.

Lemma next_literals_range vocabulary acts ks x :
  Forall (effects_within vocabulary) acts →
  x ∈ next_literals acts ks → x ∈ vocabulary_literals vocabulary.
Proof.
  intros Hwithin (act & Hact & Hx)%elem_of_next_literals.
  apply next_actions_sound in Hact as [Hact _].
  rewrite Forall_forall in Hwithin. specialize (Hwithin act Hact).
  unfold effects_within in Hwithin. rewrite Forall_forall in Hwithin.
  unfold vocabulary_literals. rewrite elem_of_app.
  apply elem_of_eff_keys in Hx as [Hx|Hx]; apply elem_of_lits in Hx as [Hpol Hx];
    [left|right]; apply elem_of_lits; (split; [done|]); apply Hwithin;
    rewrite elem_of_app; auto.
Qed.

(** Every literal of the vocabulary that is in a level is in the next
    level: its no-op is enabled and, the names being distinct, a member of
    the action level. *)
Lemma noop_keeps_literal vocabulary acts ks (x : literal) :
  distinct_names (acts ++ noop_actions vocabulary) →
  x.1 ∈ vocabulary → x ∈ ks →
  x ∈ next_literals (acts ++ noop_actions vocabulary) ks.
Proof.
  intros Hnames Hvoc Hx. destruct x as [f [|]]; simpl in Hvoc.
  - apply elem_of_next_literals.
    exists (mkAction "Noop_pos" [f] [f] [] [f] []). split.
    + apply next_actions_complete; [done| |].
      * apply elem_of_app. right. apply noop_actions_elem. eauto.
      * apply enabled_spec. intros y Hy. apply elem_of_pre_keys in Hy.
        cbn in Hy. destruct Hy as [Hy|Hy]; [|by apply elem_of_nil in Hy].
        by apply list_elem_of_singleton in Hy as ->.
    + apply elem_of_eff_keys. left. cbn. left.
  - apply elem_of_next_literals.
    exists (mkAction "Noop_neg" [f] [] [f] [] [f]). split.
    + apply next_actions_complete; [done| |].
      * apply elem_of_app. right. apply noop_actions_elem. eauto.
      * apply enabled_spec. intros y Hy. apply elem_of_pre_keys in Hy.
        cbn in Hy. destruct Hy as [Hy|Hy]; [by apply elem_of_nil in Hy|].
        by apply list_elem_of_singleton in Hy as ->.
    + apply elem_of_eff_keys. right. cbn. left.
Qed.

Lemma distinct_names_vocabulary acts vocabulary :
  distinct_names (acts ++ noop_actions vocabulary) → NoDup vocabulary.
Proof.
  unfold distinct_names. rewrite fmap_app. intros (_ & _ & Hnd)%NoDup_app.
  induction vocabulary as [|f fs IH]; [constructor|].
  cbn in Hnd. apply NoDup_cons in Hnd as [Hf1 Hnd].
  apply NoDup_cons in Hnd as [_ Hnd].
  constructor; [|by apply IH].
  intros Hf. apply Hf1. right.
  apply list_elem_of_fmap.
  exists (mkAction "Noop_pos" [f] [f] [] [f] []). split; [done|].
  apply noop_actions_elem. eauto.
Qed.

(** The initial level has at least one literal for each fluent. *)
Lemma initial_level_length state vocabulary fs0 :
  decode_state state vocabulary = Some fs0 → NoDup vocabulary →
  length vocabulary ≤
    length (set_update (set_update [] (lits true (pos fs0))) (lits false (neg fs0))).
Proof.
  intros Hdec Hnd.
  set (ks0 := set_update _ _).
  set (D := (λ f, (f, bool_decide (f ∈ pos fs0))) <$> vocabulary).
  assert (length D = length vocabulary) as <- by apply length_fmap.
  apply submseteq_length, NoDup_submseteq.
  - apply (NoDup_fmap_2_strong _ vocabulary); [|done].
    by intros f1 f2 _ _ [= ->].
  - intros x (f & -> & Hf)%list_elem_of_fmap. unfold ks0.
    rewrite !lit_elem_of_set_update. case_bool_decide as Hpos.
    + left. right. by apply elem_of_lits.
    + right. apply elem_of_lits. split; [done|].
      apply (decode_state_spec _ _ _ Hdec) in Hf as [?|?]; done.
Qed.

Lemma vocabulary_literals_length vocabulary :
  length (vocabulary_literals vocabulary) = 2 * length vocabulary.
Proof.
  unfold vocabulary_literals, lits. rewrite length_app, !length_fmap. lia.
Qed.

(** *** Termination *)

(** C6, as the code has it: when no two of the actions (those of the
    problem and the no-ops) have the same name and arguments, and the
    effects of the actions of the problem are fluents of the vocabulary,
    then for a vocabulary of [V] fluents and a decodable state the loop
    stops within [V + 1] rounds.  The graph has at most [V + 2] literal
    levels, the initial one and at most [V + 1] <= [2 * V + 1] that the
    loop produced, and every literal level is contained in the next. *)
Theorem level_off_terminates problem state serial_planning fs0 :
  decode_state state (state_map problem) = Some fs0 →
  distinct_names (actions_list problem ++ noop_actions (state_map problem)) →
  Forall (effects_within (state_map problem)) (actions_list problem) →
  ∃ pg,
    PlanningGraph_init problem state serial_planning
      (length (state_map problem) + 1) = Returned pg ∧
    length (s_levels pg) ≤ length (state_map problem) + 2 ∧
    length (s_levels pg) ≤ 1 + (2 * length (state_map problem) + 1) ∧
    levels_monotone (s_levels pg).
Proof.
  intros Hdec Hnames Hwithin. unfold PlanningGraph_init. rewrite Hdec.
  set (pg0 := mkPlanningGraph _ _ _ _ _ _ _ _ _).
  destruct (initial_level_spec (length (state_map problem) + 1) pg0)
    as (pg1 & L0 & -> & Hstat1 & Ha1 & Hs1 & Hok1 & Hlk1 & Hk1); [done..|].
  assert (all_actions pg1 =
            actions_list problem ++ noop_actions (state_map problem)) as Hacts.
  { by destruct Hstat1 as (_ & _ & _ & -> & _). }
  cbn [fs pg0] in Hk1.
  pose proof (distinct_names_vocabulary _ _ Hnames) as Hvoc.
  destruct (level_loop_terminates (vocabulary_literals (state_map problem))
              (length (state_map problem)) (length (state_map problem) + 1) 0 pg1 L0)
    as (pg2 & Hrun & Hstat2 & Hlen & Hmono); try done.
  - by rewrite Ha1.
  - by rewrite Hs1.
  - by rewrite Hacts.
  - intros ks x. rewrite Hacts. apply next_literals_range.
    apply Forall_app. split; [done|].
    apply Forall_forall. intros act. apply noop_effects_within.
  - rewrite Hs1. intros k L L' _ HL'. by destruct k.
  - by rewrite Hs1.
  - rewrite Hk1. do 2 apply lit_set_update_NoDup. constructor.
  - intros x Hx. rewrite Hacts. apply noop_keeps_literal; [done| |done].
    rewrite Hk1 in Hx. rewrite !lit_elem_of_set_update in Hx.
    destruct Hx as [[[]%elem_of_nil|Hx]|Hx]; apply elem_of_lits in Hx as [_ Hx];
      apply (decode_state_spec _ _ _ Hdec); auto.
  - rewrite vocabulary_literals_length.
    pose proof (initial_level_length _ _ _ Hdec Hvoc) as Hlen0.
    rewrite <- Hk1, length_fmap in Hlen0. lia.
  - lia.
  - rewrite Hrun. cbn [and_then]. eexists. split; [done|].
    cbn [s_levels with_goal_states with_s_heap].
    rewrite Hs1 in Hlen. simpl in Hlen. split; [lia|]. split; [lia|done].
Qed.

Lemma level_off_terminates_witness :
  ∃ pg,
    PlanningGraph_init two_adds "FF" true (length (state_map two_adds) + 1) =
      Returned pg ∧
    length (s_levels pg) ≤ length (state_map two_adds) + 2 ∧
    length (s_levels pg) ≤ 1 + (2 * length (state_map two_adds) + 1) ∧
    levels_monotone (s_levels pg).
Proof.
  apply (level_off_terminates two_adds "FF" true (mkFluentState [] ["P"; "Q"])).
  - vm_compute. reflexivity.
  - apply (bool_decide_unpack _). vm_compute. exact I.
  - apply (bool_decide_unpack _). vm_compute. exact I.
Defined.

(** *** A problem on which the loop does not stop *)

Lemma flip_flop_round fuel : ∀ level pg prev,
  graph_ok pg → length (a_levels pg) = level → length (s_levels pg) = S level →
  all_actions pg = actions_list flip_flop ++ noop_actions (state_map flip_flop) →
  last (s_levels pg) = Some prev →
  py_key <$> prev = [("P", true)] ∨ py_key <$> prev = [("P", false)] →
  level_loop fuel level pg = OutOfFuel.
Proof.
  induction fuel as [|fuel IH]; intros level pg prev Hok Hla Hls Hacts Hlast Hkeys;
    [done|].
  cbn [level_loop].
  destruct (level_round_spec level pg (level_loop fuel) Hok Hla Hls)
    as (pg1 & prev' & A & L & Hprev' & Hstat & Ha1 & Hs1 & Hok1 & Hlk1 & HkL & Heq).
  assert (prev' = prev) as ->
    by (rewrite last_lookup, Hls in Hlast; simpl in Hlast; congruence).
  rewrite Heq, <- (set_eq_fmap literal_key_id), HkL, Hacts.
  assert (set_eq
            (next_literals (actions_list flip_flop ++ noop_actions (state_map flip_flop))
               (py_key <$> prev)) (py_key <$> prev) = false) as ->.
  { by destruct Hkeys as [-> | ->]; vm_compute. }
  apply (IH (level + 1) pg1 L); [done|..].
  - rewrite Ha1, length_app. simpl. lia.
  - rewrite Hs1, length_app. simpl. lia.
  - destruct Hstat as (_ & _ & _ & -> & _). done.
  - rewrite Hs1. apply last_snoc.
  - rewrite HkL, Hacts. destruct Hkeys as [-> | ->]; [right|left]; by vm_compute.
Qed.

(** C6, the claim as stated fails: [flip_flop] has a vocabulary of one
    fluent and the state [T] is decodable, yet the loop of [create_graph]
    never finds two equal levels: with whatever fuel, the constructor is
    still running when the fuel is used up. *)
Lemma flip_flop_never_levels_off :
  decode_state "T" (state_map flip_flop) = Some (mkFluentState ["P"] []) ∧
  ∀ fuel, PlanningGraph_init flip_flop "T" true fuel = OutOfFuel.
Proof.
  split; [done|]. intros fuel. unfold PlanningGraph_init.
  change (decode_state "T" (state_map flip_flop)) with (Some (mkFluentState ["P"] [])).
  cbv beta iota.
  set (pg0 := mkPlanningGraph _ _ _ _ _ _ _ _ _).
  destruct (initial_level_spec fuel pg0)
    as (pg1 & L0 & -> & Hstat1 & Ha1 & Hs1 & Hok1 & Hlk1 & Hk1); [done..|].
  rewrite (flip_flop_round fuel 0 pg1 L0); [done|done|..].
  - by rewrite Ha1.
  - by rewrite Hs1.
  - by destruct Hstat1 as (_ & _ & _ & -> & _).
  - by rewrite Hs1.
  - left. by rewrite Hk1.
Qed.


(** Effects that are not fluents of the vocabulary let the levels grow
    beyond the bound: [chain_outside] has one fluent and its graph has six
    literal levels. *)
Lemma chain_outside_six_levels :
  ∃ pg, PlanningGraph_init chain_outside "T" true 5 = Returned pg ∧
        length (state_map chain_outside) = 1 ∧ length (s_levels pg) = 6.
Proof.
  exists (returned (PlanningGraph_init chain_outside "T" true 5)).
  split; [by vm_compute|]. split; by vm_compute.
Qed.

(** * Further properties of the module *)

(** ** The tests between two actions *)

Lemma existsb_list_in (xs ys : list string) :
  existsb (λ x, list_in x ys) xs = true ↔ ∃ x, x ∈ xs ∧ x ∈ ys.
Proof.
  rewrite existsb_exists. unfold list_in. split.
  - intros (x & Hx%list_elem_of_In & Hy%bool_decide_eq_true). eauto.
  - intros (x & Hx & Hy). exists x. split; [by apply list_elem_of_In|].
    by apply bool_decide_eq_true.
Qed.

Lemma inconsistent_effects_mutex_true n1 n2 :
  inconsistent_effects_mutex n1 n2 = true ↔
  (∃ e, e ∈ effect_add (action n1) ∧ e ∈ effect_rem (action n2)) ∨
  (∃ e, e ∈ effect_rem (action n1) ∧ e ∈ effect_add (action n2)).
Proof.
  unfold inconsistent_effects_mutex. rewrite <- !existsb_list_in.
  repeat destruct (existsb _ _); intuition congruence.
Qed.

Lemma interference_mutex_true n1 n2 :
  interference_mutex n1 n2 = true ↔
  (∃ e, e ∈ effect_add (action n1) ∧ e ∈ precond_neg (action n2)) ∨
  (∃ e, e ∈ effect_rem (action n1) ∧ e ∈ precond_pos (action n2)) ∨
  (∃ e, e ∈ precond_pos (action n1) ∧ e ∈ effect_rem (action n2)) ∨
  (∃ e, e ∈ precond_neg (action n1) ∧ e ∈ effect_add (action n2)).
Proof.
  unfold interference_mutex. rewrite <- !existsb_list_in.
  repeat destruct (existsb _ _); intuition congruence.
Qed.

Lemma inconsistent_effects_mutex_comm n1 n2 :
  inconsistent_effects_mutex n1 n2 = inconsistent_effects_mutex n2 n1.
Proof.
  apply eq_true_iff_eq. rewrite !inconsistent_effects_mutex_true.
  split; (intros [(e & ? & ?)|(e & ? & ?)]; [right|left]; eauto).
Qed.

Lemma interference_mutex_comm n1 n2 :
  interference_mutex n1 n2 = interference_mutex n2 n1.
Proof.
  apply eq_true_iff_eq. rewrite !interference_mutex_true.
  split; (intros [(e & ? & ?)|[(e & ? & ?)|[(e & ? & ?)|(e & ? & ?)]]];
    [do 3 right|right; right; left|right; left|left]; eauto).
Qed.

Lemma serialize_actions_comm pg n1 n2 :
  serialize_actions pg n1 n2 = serialize_actions pg n2 n1.
Proof.
  unfold serialize_actions.
  by destruct (serial pg), (is_persistent n1), (is_persistent n2).
Qed.

Lemma static_a_test_comm pg n1 n2 : static_a_test pg n1 n2 = static_a_test pg n2 n1.
Proof.
  unfold static_a_test.
  by rewrite serialize_actions_comm, inconsistent_effects_mutex_comm,
    interference_mutex_comm.
Qed.

(** X1: [inconsistent_effects_mutex] answers true exactly when some literal
    is added by one of the two actions and removed by the other, and so it
    gives the same answer for a pair in either order. *)
Theorem inconsistent_effects_either_order n1 n2 :
  (inconsistent_effects_mutex n1 n2 = true ↔
     (∃ e, e ∈ effect_add (action n1) ∧ e ∈ effect_rem (action n2)) ∨
     (∃ e, e ∈ effect_add (action n2) ∧ e ∈ effect_rem (action n1))) ∧
  inconsistent_effects_mutex n1 n2 = inconsistent_effects_mutex n2 n1.
Proof.
  split; [|apply inconsistent_effects_mutex_comm].
  rewrite inconsistent_effects_mutex_true. split; intros [H|H]; auto;
    right; destruct H as (e & ? & ?); eauto.
Qed.

(** X2: [interference_mutex] answers true exactly when an effect of one of
    the two actions is the negation of a precondition of the other, and so
    it gives the same answer for a pair in either order. *)
Theorem interference_either_order n1 n2 :
  (interference_mutex n1 n2 = true ↔
     (∃ e, e ∈ effect_add (action n1) ∧ e ∈ precond_neg (action n2)) ∨
     (∃ e, e ∈ effect_rem (action n1) ∧ e ∈ precond_pos (action n2)) ∨
     (∃ e, e ∈ effect_add (action n2) ∧ e ∈ precond_neg (action n1)) ∨
     (∃ e, e ∈ effect_rem (action n2) ∧ e ∈ precond_pos (action n1))) ∧
  interference_mutex n1 n2 = interference_mutex n2 n1.
Proof.
  split; [|apply interference_mutex_comm].
  rewrite interference_mutex_true.
  split; intros [H|[H|[H|H]]]; destruct H as (e & ? & ?); eauto 10.
Qed.

(** ** The negation test *)

Lemma negation_mutex_true n1 n2 :
  negation_mutex n1 n2 = true ↔ symbol n1 = symbol n2 ∧ is_pos n1 ≠ is_pos n2.
Proof.
  unfold negation_mutex, py_eq, PgNode_s_eq.
  repeat case_bool_decide; simpl; intuition congruence.
Qed.

Lemma negation_mutex_comm n1 n2 : negation_mutex n1 n2 = negation_mutex n2 n1.
Proof.
  apply eq_true_iff_eq. rewrite !negation_mutex_true. intuition congruence.
Qed.

(** ** Persistence *)

Lemma lit_set_eq_iff (s1 s2 : list literal) :
  NoDup s1 → NoDup s2 →
  set_eq s1 s2 = true ↔ ∀ x, x ∈ s1 ↔ x ∈ s2.
Proof.
  intros Hnd1 Hnd2. rewrite lit_set_eq. split.
  - intros [Hlen Hsub] x. split; [apply Hsub|].
    assert (s1 ≡ₚ s2) as Hperm.
    { apply submseteq_length_Permutation; [by apply NoDup_submseteq|lia]. }
    by rewrite Hperm.
  - intros Hsame. split; [|intros x; apply Hsame].
    apply Permutation_length. by apply NoDup_Permutation.
Qed.

Lemma pre_keys_NoDup act : NoDup (pre_keys act).
Proof. unfold pre_keys. do 2 apply lit_set_update_NoDup. constructor. Qed.

Lemma eff_keys_NoDup act : NoDup (eff_keys act).
Proof. unfold eff_keys. do 2 apply lit_set_update_NoDup. constructor. Qed.

Lemma persistent_true act :
  persistent act = true ↔
  (∀ p, p ∈ precond_pos act ↔ p ∈ effect_add act) ∧
  (∀ p, p ∈ precond_neg act ↔ p ∈ effect_rem act).
Proof.
  unfold persistent.
  rewrite lit_set_eq_iff by (apply pre_keys_NoDup || apply eff_keys_NoDup).
  split.
  - intros Hsame. split; intros p.
    + specialize (Hsame (p, true)).
      rewrite elem_of_pre_keys, elem_of_eff_keys, !elem_of_lits in Hsame.
      simpl in Hsame. intuition congruence.
    + specialize (Hsame (p, false)).
      rewrite elem_of_pre_keys, elem_of_eff_keys, !elem_of_lits in Hsame.
      simpl in Hsame. intuition congruence.
  - intros [Hpos Hneg] [p b].
    rewrite elem_of_pre_keys, elem_of_eff_keys, !elem_of_lits. simpl.
    rewrite (Hpos p), (Hneg p). done.
Qed.

(** X3: the constructor of an action node sets [is_persistent] exactly when
    the action has the same positive preconditions as add effects and the
    same negative preconditions as delete effects, as sets: neither the
    order nor a repetition in the four lists counts, and the name of the
    action is not looked at. *)
Theorem is_persistent_same_literals act (sh : SHeap) (ah : AHeap) :
  is_persistent (PgNode_a_init act sh ah).1.1 = true ↔
  (∀ p, p ∈ precond_pos act ↔ p ∈ effect_add act) ∧
  (∀ p, p ∈ precond_neg act ↔ p ∈ effect_rem act).
Proof. rewrite noop_node_persistent. apply persistent_true. Qed.

(** ** mutexify *)

Section mutexify_facts.
Context {P M K : Type} `{PyKeyLaw M K} `{HasAddr M}.
Implicit Types st : Store P M.

Lemma set_in_set_add_same (x : M) (s : list M) : set_in x (set_add x s) = true.
Proof.
  rewrite set_in_set_add. apply orb_true_iff. right. by apply py_eq_key.
Qed.

Lemma set_in_set_add_mono (y x : M) (s : list M) :
  set_in y s = true → set_in y (set_add x s) = true.
Proof. intros Hy. by rewrite set_in_set_add, Hy. Qed.

(** The mutex set of an object after [mutexify], whatever the two
    addresses are. *)
Lemma mutexify_mutex_any st (n1 n2 : M) i :
  mutex (deref (mutexify st n1 n2) i) =
    if decide (addr n2 = i) then
      set_add n1 (if decide (addr n1 = i) then set_add n2 (mutex (deref st i))
                  else mutex (deref st i))
    else if decide (addr n1 = i) then set_add n2 (mutex (deref st i))
    else mutex (deref st i).
Proof.
  unfold mutexify. rewrite deref_modify.
  destruct (decide (addr n2 = i)) as [<-|Hn2].
  - cbn [mutex with_mutex]. rewrite deref_modify.
    destruct (decide (addr n1 = addr n2)) as [Heq|Hne]; [|done].
    cbn [mutex with_mutex]. by rewrite Heq.
  - rewrite deref_modify. by destruct (decide (addr n1 = i)) as [<-|Hn1].
Qed.

Lemma is_mutex_mutexify_mono st (n1 n2 a b : M) :
  is_mutex st a b = true → is_mutex (mutexify st n1 n2) a b = true.
Proof.
  rewrite !is_mutex_set_in, mutexify_mutex_any. intros Hab.
  repeat case_decide; repeat apply set_in_set_add_mono; done.
Qed.

Lemma is_mutex_mutexify st (n1 n2 : M) :
  is_mutex (mutexify st n1 n2) n1 n2 = true ∧
  is_mutex (mutexify st n1 n2) n2 n1 = true.
Proof.
  rewrite !is_mutex_set_in, !mutexify_mutex_any. split.
  - rewrite (decide_True (P := addr n1 = addr n1)) by done.
    case_decide; [apply set_in_set_add_mono|]; apply set_in_set_add_same.
  - rewrite (decide_True (P := addr n2 = addr n2)) by done.
    apply set_in_set_add_same.
Qed.

End mutexify_facts.


(** ** The pairs that a mutex update visits *)

Lemma update_mutex_loop {N} (test : PlanningGraph → N → N → bool)
    (mark : N → N → PlanningGraph → PlanningGraph) (pre l : list N) pg :
  fold_left (λ pg '(i, n1),
     fold_left (λ pg n2, if test pg n1 n2 then mark n1 n2 pg else pg)
       (drop (i + 1) (pre ++ l)) pg)
    (imap (λ k, pair (length pre + k)) (take (length l - 1) l)) pg =
  pairs_loop test mark l pg.
Proof.
  revert pre pg. induction l as [|x l IH]; intros pre pg; [done|].
  destruct l as [|y l]; [done|].
  replace (length (x :: y :: l) - 1) with (S (length (y :: l) - 1)) by (simpl; lia).
  rewrite firstn_cons, imap_cons.
  change (pairs_loop test mark (x :: y :: l) pg) with
    (pairs_loop test mark (y :: l)
       (fold_left (λ pg n2, if test pg x n2 then mark x n2 pg else pg) (y :: l) pg)).
  cbn [fold_left].
  replace (length pre + 0 + 1) with (length (pre ++ [x])) by (rewrite length_app; simpl; lia).
  rewrite (cons_middle x pre), app_assoc, drop_app_length.
  rewrite <- (IH (pre ++ [x])). f_equal.
  apply imap_ext. intros k z _. simpl. f_equal. rewrite length_app. simpl. lia.
Qed.

Lemma update_mutex_pairs_loop {N} (test : PlanningGraph → N → N → bool)
    (mark : N → N → PlanningGraph → PlanningGraph) (nodeset : list N) pg :
  update_mutex test mark nodeset pg = pairs_loop test mark nodeset pg.
Proof. apply (update_mutex_loop test mark [] nodeset pg). Qed.

Lemma inner_loop_inv {N} (test : PlanningGraph → N → N → bool)
    (mark : N → N → PlanningGraph → PlanningGraph) (I : PlanningGraph → Prop)
    (n1 : N) (rest : list N) pg :
  I pg →
  (∀ pg n2, I pg → n2 ∈ rest → test pg n1 n2 = true → I (mark n1 n2 pg)) →
  I (fold_left (λ pg n2, if test pg n1 n2 then mark n1 n2 pg else pg) rest pg).
Proof.
  intros HI Hstep. apply fold_left_inv; [done|].
  intros pg' n2 Hn2 HI'. destruct (test pg' n1 n2) eqn:E; [|done]. by apply Hstep.
Qed.

(** An invariant of the marks: every pair that is marked consists of a
    node and a node that comes later in the list, and is marked when its
    test answers true. *)
Lemma update_mutex_pairs {N} (test : PlanningGraph → N → N → bool)
    (mark : N → N → PlanningGraph → PlanningGraph) (I : PlanningGraph → Prop)
    (nodeset : list N) pg :
  I pg →
  (∀ pg i j n1 n2, I pg → nodeset !! i = Some n1 → nodeset !! j = Some n2 →
     i < j → test pg n1 n2 = true → I (mark n1 n2 pg)) →
  I (update_mutex test mark nodeset pg).
Proof.
  rewrite update_mutex_pairs_loop.
  assert (∀ pre l pg, pre ++ l = nodeset → I pg → 
            (∀ pg i j n1 n2, I pg → nodeset !! i = Some n1 → nodeset !! j = Some n2 →
               i < j → test pg n1 n2 = true → I (mark n1 n2 pg)) →
            I (pairs_loop test mark l pg)) as Hgen.
  { intros pre l. revert pre. induction l as [|x l IH]; intros pre pg0 Heq HI Hstep;
      [done|].
    cbn [pairs_loop]. apply (IH (pre ++ [x])); [by rewrite <- app_assoc| |done].
    apply inner_loop_inv; [done|].
    intros pg1 n2 HI1 [k Hk]%list_elem_of_lookup Htest.
    apply (Hstep pg1 (length pre) (length pre + S k)); [done|..|lia|done].
    - rewrite <- Heq. by rewrite list_lookup_middle.
    - rewrite <- Heq. rewrite lookup_app_r by lia.
      replace (length pre + S k - length pre) with (S k) by lia. done. }
  intros HI Hstep. by apply (Hgen [] nodeset).
Qed.

(** A pair whose test answers true is marked: [I] holds until the pair
    is reached and makes the test answer true, [Q] holds once the pair is
    marked. *)
Lemma update_mutex_reaches {N} (test : PlanningGraph → N → N → bool)
    (mark : N → N → PlanningGraph → PlanningGraph) (I Q : PlanningGraph → Prop)
    (nodeset : list N) pg i j n1 n2 :
  nodeset !! i = Some n1 → nodeset !! j = Some n2 → i < j →
  I pg → (∀ pg a b, I pg → I (mark a b pg)) →
  (∀ pg, I pg → test pg n1 n2 = true) →
  (∀ pg, I pg → Q (mark n1 n2 pg)) → (∀ pg a b, Q pg → Q (mark a b pg)) →
  Q (update_mutex test mark nodeset pg).
Proof.
  intros Hi Hj Hlt HI HIstep Htest HQ HQstep.
  rewrite update_mutex_pairs_loop.
  assert (∀ l pg, Q pg → Q (pairs_loop test mark l pg)) as HQloop.
  { intros l. induction l as [|x l IH]; intros pg0 HQ0; [done|].
    cbn [pairs_loop]. apply IH. apply inner_loop_inv; [done|]. auto. }
  revert i j pg Hi Hj Hlt HI.
  induction nodeset as [|x l IH]; intros i j pg0 Hi Hj Hlt HI; [done|].
  cbn [pairs_loop]. destruct j as [|j]; [lia|]. simpl in Hj.
  destruct i as [|i].
  - injection Hi as ->. apply HQloop.
    rewrite <- (take_drop_middle l j n2 Hj), fold_left_app. cbn [fold_left].
    apply inner_loop_inv; [|auto].
    set (pg1 := fold_left _ (take j l) pg0).
    assert (I pg1) as HI1 by (apply inner_loop_inv; auto).
    rewrite (Htest pg1 HI1). by apply HQ.
  - simpl in Hi. apply (IH i j); [done|done|lia|].
    apply inner_loop_inv; auto.
Qed.

(** ** update_a_mutex and update_s_mutex on any node set *)

Lemma a_mutex_test_static pg n1 n2 :
  a_mutex_test pg n1 n2 = static_a_test pg n1 n2 || competing_needs_mutex pg n1 n2.
Proof. done. Qed.

Lemma lookup_elem_of {A} (l : list A) i x : l !! i = Some x → x ∈ l.
Proof. apply list_elem_of_lookup_2. Qed.

Lemma update_a_mutex_frame nodeset pg :
  same_static pg (update_a_mutex nodeset pg) ∧
  s_levels (update_a_mutex nodeset pg) = s_levels pg ∧
  a_levels (update_a_mutex nodeset pg) = a_levels pg ∧
  s_heap (update_a_mutex nodeset pg) = s_heap pg ∧
  marks_only nodeset (a_heap pg) (a_heap (update_a_mutex nodeset pg)) ∧
  (∀ a b, is_mutex (a_heap pg) a b = true →
          is_mutex (a_heap (update_a_mutex nodeset pg)) a b = true).
Proof.
  unfold update_a_mutex.
  apply (update_mutex_pairs a_mutex_test mutexify_a
    (λ pg', same_static pg pg' ∧ s_levels pg' = s_levels pg ∧
            a_levels pg' = a_levels pg ∧ s_heap pg' = s_heap pg ∧
            marks_only nodeset (a_heap pg) (a_heap pg') ∧
            (∀ a b, is_mutex (a_heap pg) a b = true →
                    is_mutex (a_heap pg') a b = true))).
  - split; [apply same_static_refl|]. done.
  - intros pg' i j n1 n2 (Hstat & Hs & Ha & Hsh & Hmarks & Hmono) Hi Hj _ _.
    split; [done|]. split; [done|]. split; [done|]. split; [done|].
    cbn [a_heap mutexify_a with_a_heap]. split.
    + apply marks_only_mutexify; [done|by eapply lookup_elem_of..].
    + intros a b Hab. by apply is_mutex_mutexify_mono, Hmono.
Qed.

Lemma update_s_mutex_frame nodeset pg :
  same_static pg (update_s_mutex nodeset pg) ∧
  s_levels (update_s_mutex nodeset pg) = s_levels pg ∧
  a_levels (update_s_mutex nodeset pg) = a_levels pg ∧
  a_heap (update_s_mutex nodeset pg) = a_heap pg ∧
  marks_only nodeset (s_heap pg) (s_heap (update_s_mutex nodeset pg)) ∧
  (∀ a b, is_mutex (s_heap pg) a b = true →
          is_mutex (s_heap (update_s_mutex nodeset pg)) a b = true).
Proof.
  unfold update_s_mutex.
  apply (update_mutex_pairs s_mutex_test mutexify_s
    (λ pg', same_static pg pg' ∧ s_levels pg' = s_levels pg ∧
            a_levels pg' = a_levels pg ∧ a_heap pg' = a_heap pg ∧
            marks_only nodeset (s_heap pg) (s_heap pg') ∧
            (∀ a b, is_mutex (s_heap pg) a b = true →
                    is_mutex (s_heap pg') a b = true))).
  - split; [apply same_static_refl|]. done.
  - intros pg' i j n1 n2 (Hstat & Hs & Ha & Hah & Hmarks & Hmono) Hi Hj _ _.
    split; [done|]. split; [done|]. split; [done|]. split; [done|].
    cbn [s_heap mutexify_s with_s_heap]. split.
    + apply marks_only_mutexify; [done|by eapply lookup_elem_of..].
    + intros a b Hab. by apply is_mutex_mutexify_mono, Hmono.
Qed.

Lemma update_a_mutex_reaches nodeset pg i j n1 n2 :
  nodeset !! i = Some n1 → nodeset !! j = Some n2 → i < j →
  static_a_test pg n1 n2 = true →
  is_mutex (a_heap (update_a_mutex nodeset pg)) n1 n2 = true ∧
  is_mutex (a_heap (update_a_mutex nodeset pg)) n2 n1 = true.
Proof.
  intros Hi Hj Hlt Htest. unfold update_a_mutex.
  apply (update_mutex_reaches a_mutex_test mutexify_a
           (λ pg', serial pg' = serial pg)
           (λ pg', is_mutex (a_heap pg') n1 n2 = true ∧
                   is_mutex (a_heap pg') n2 n1 = true) nodeset pg i j n1 n2);
    try done.
  - intros pg' Hser. rewrite a_mutex_test_static.
    apply orb_true_iff. left. rewrite <- Htest.
    unfold static_a_test, serialize_actions. by rewrite Hser.
  - intros pg' _. apply (is_mutex_mutexify (a_heap pg') n1 n2).
  - intros pg' a b [H1 H2]. split; by apply is_mutex_mutexify_mono.
Qed.

Lemma update_s_mutex_reaches nodeset pg i j n1 n2 :
  nodeset !! i = Some n1 → nodeset !! j = Some n2 → i < j →
  negation_mutex n1 n2 = true →
  is_mutex (s_heap (update_s_mutex nodeset pg)) n1 n2 = true ∧
  is_mutex (s_heap (update_s_mutex nodeset pg)) n2 n1 = true.
Proof.
  intros Hi Hj Hlt Htest. unfold update_s_mutex.
  apply (update_mutex_reaches s_mutex_test mutexify_s (λ _, True)
           (λ pg', is_mutex (s_heap pg') n1 n2 = true ∧
                   is_mutex (s_heap pg') n2 n1 = true) nodeset pg i j n1 n2);
    try done.
  - intros pg' _. unfold s_mutex_test. by rewrite Htest.
  - intros pg' _. apply (is_mutex_mutexify (s_heap pg') n1 n2).
  - intros pg' a b [H1 H2]. split; by apply is_mutex_mutexify_mono.
Qed.

Lemma update_a_mutex_static nodeset pg i j n1 n2 :
  nodeset !! i = Some n1 → nodeset !! j = Some n2 → i ≠ j →
  static_a_test pg n1 n2 = true →
  is_mutex (a_heap (update_a_mutex nodeset pg)) n1 n2 = true ∧
  is_mutex (a_heap (update_a_mutex nodeset pg)) n2 n1 = true.
Proof.
  intros Hi Hj Hne Htest. destruct (decide (i < j)) as [Hlt|Hge].
  - by apply (update_a_mutex_reaches nodeset pg i j).
  - rewrite static_a_test_comm in Htest.
    destruct (update_a_mutex_reaches nodeset pg j i n2 n1) as [H1 H2];
      [done|done|lia|done|]. done.
Qed.

Lemma update_s_mutex_negation nodeset pg i j n1 n2 :
  nodeset !! i = Some n1 → nodeset !! j = Some n2 →
  negation_mutex n1 n2 = true →
  is_mutex (s_heap (update_s_mutex nodeset pg)) n1 n2 = true ∧
  is_mutex (s_heap (update_s_mutex nodeset pg)) n2 n1 = true.
Proof.
  intros Hi Hj Htest.
  assert (i ≠ j) as Hne.
  { intros ->. apply negation_mutex_true in Htest as [_ Hpol]. congruence. }
  destruct (decide (i < j)) as [Hlt|Hge].
  - by apply (update_s_mutex_reaches nodeset pg i j).
  - rewrite negation_mutex_comm in Htest.
    destruct (update_s_mutex_reaches nodeset pg j i n2 n1) as [H1 H2];
      [done|done|lia|done|]. done.
Qed.

(** X5: [update_a_mutex] on any node set marks every pair of its nodes for
    which the serial test, the inconsistent-effects test or the interference
    test answers true: afterwards each of the two is in the mutex set of
    the other, whichever of them comes first in the set. *)
Theorem update_a_mutex_marks_static nodeset pg i j n1 n2 :
  nodeset !! i = Some n1 → nodeset !! j = Some n2 → i ≠ j →
  static_a_test pg n1 n2 = true →
  is_mutex (a_heap (update_a_mutex nodeset pg)) n1 n2 = true ∧
  is_mutex (a_heap (update_a_mutex nodeset pg)) n2 n1 = true.
Proof. apply update_a_mutex_static. Qed.

Lemma update_a_mutex_marks_static_witness :
  is_mutex (a_heap (update_a_mutex [hand_a1; hand_a2] blank_graph)) hand_a2 hand_a1 = true ∧
  is_mutex (a_heap (update_a_mutex [hand_a1; hand_a2] blank_graph)) hand_a1 hand_a2 = true.
Proof.
  apply (update_a_mutex_marks_static [hand_a1; hand_a2] blank_graph 1 0 hand_a2 hand_a1).
  - reflexivity.
  - reflexivity.
  - lia.
  - vm_compute. reflexivity.
Defined.

(** X6: [update_s_mutex] on any node set marks every pair of its nodes
    that are the two polarities of one symbol: afterwards each of the two
    is in the mutex set of the other. *)
Theorem update_s_mutex_marks_negation nodeset pg i j n1 n2 :
  nodeset !! i = Some n1 → nodeset !! j = Some n2 →
  symbol n1 = symbol n2 → is_pos n1 ≠ is_pos n2 →
  is_mutex (s_heap (update_s_mutex nodeset pg)) n1 n2 = true ∧
  is_mutex (s_heap (update_s_mutex nodeset pg)) n2 n1 = true.
Proof.
  intros Hi Hj Hsym Hpol.
  apply (update_s_mutex_negation nodeset pg i j); [done|done|].
  by apply negation_mutex_true.
Qed.

Lemma update_s_mutex_marks_negation_witness :
  is_mutex (s_heap (update_s_mutex [hand_p; hand_not_p] blank_graph)) hand_p hand_not_p = true ∧
  is_mutex (s_heap (update_s_mutex [hand_p; hand_not_p] blank_graph)) hand_not_p hand_p = true.
Proof.
  apply (update_s_mutex_marks_negation [hand_p; hand_not_p] blank_graph 0 1 hand_p hand_not_p).
  - reflexivity.
  - reflexivity.
  - reflexivity.
  - vm_compute. discriminate.
Defined.

(** X7: [update_a_mutex] and [update_s_mutex] change nothing but the mutex
    sets of the nodes they are given: the levels, the other heap, the
    parents and children sets and every other object are as before, no
    object is created, and a pair that was mutex stays mutex. *)
Theorem mutex_updates_touch_mutex_sets_only :
  (∀ nodeset pg,
     s_levels (update_a_mutex nodeset pg) = s_levels pg ∧
     a_levels (update_a_mutex nodeset pg) = a_levels pg ∧
     s_heap (update_a_mutex nodeset pg) = s_heap pg ∧
     next_addr (a_heap (update_a_mutex nodeset pg)) = next_addr (a_heap pg) ∧
     (∀ i, parents (deref (a_heap (update_a_mutex nodeset pg)) i) =
             parents (deref (a_heap pg) i) ∧
           children (deref (a_heap (update_a_mutex nodeset pg)) i) =
             children (deref (a_heap pg) i)) ∧
     (∀ i, i ∉ addr <$> nodeset →
           deref (a_heap (update_a_mutex nodeset pg)) i = deref (a_heap pg) i) ∧
     (∀ a b, is_mutex (a_heap pg) a b = true →
             is_mutex (a_heap (update_a_mutex nodeset pg)) a b = true)) ∧
  (∀ nodeset pg,
     s_levels (update_s_mutex nodeset pg) = s_levels pg ∧
     a_levels (update_s_mutex nodeset pg) = a_levels pg ∧
     a_heap (update_s_mutex nodeset pg) = a_heap pg ∧
     next_addr (s_heap (update_s_mutex nodeset pg)) = next_addr (s_heap pg) ∧
     (∀ i, parents (deref (s_heap (update_s_mutex nodeset pg)) i) =
             parents (deref (s_heap pg) i) ∧
           children (deref (s_heap (update_s_mutex nodeset pg)) i) =
             children (deref (s_heap pg) i)) ∧
     (∀ i, i ∉ addr <$> nodeset →
           deref (s_heap (update_s_mutex nodeset pg)) i = deref (s_heap pg) i) ∧
     (∀ a b, is_mutex (s_heap pg) a b = true →
             is_mutex (s_heap (update_s_mutex nodeset pg)) a b = true)).
Proof.
  split; intros nodeset pg.
  - destruct (update_a_mutex_frame nodeset pg)
      as (_ & Hs & Ha & Hsh & (Hnext & Hother & Hpc) & Hmono).
    repeat split; try done; apply Hpc.
  - destruct (update_s_mutex_frame nodeset pg)
      as (_ & Hs & Ha & Hah & (Hnext & Hother & Hpc) & Hmono).
    repeat split; try done; apply Hpc.
Qed.

(** ** The steps of a round, object by object *)

(** A loop with an invariant, for the runs that return. *)
Lemma for_each_ret {X} (I : list X → PlanningGraph → Prop)
    (xs : list X) (body : X → PlanningGraph → outcome) (pg pg' : PlanningGraph) :
  I [] pg →
  (∀ seen x pg1 pg2, I seen pg1 → x ∈ xs → body x pg1 = Returned pg2 →
     I (seen ++ [x]) pg2) →
  for_each xs body pg = Returned pg' → I xs pg'.
Proof.
  intros H0 Hstep.
  assert (∀ seen rest pg0, seen ++ rest = xs → I seen pg0 →
            for_each rest body pg0 = Returned pg' → I xs pg') as Hgen.
  { intros seen rest. revert seen.
    induction rest as [|x rest IH]; intros seen pg0 Heq HI; simpl.
    - rewrite app_nil_r in Heq. subst. by intros [= <-].
    - destruct (body x pg0) as [pg1| |] eqn:E; [|done..]. simpl.
      apply (IH (seen ++ [x])); [by rewrite <- app_assoc|].
      apply (Hstep seen x pg0 pg1); [done| |done].
      rewrite <- Heq. apply elem_of_app. right. left. }
  by apply (Hgen [] xs).
Qed.

Lemma lit_set_update_fresh (s l : list literal) :
  NoDup l → (∀ x, x ∈ l → x ∉ s) → set_update s l = s ++ l.
Proof.
  unfold set_update. revert s.
  induction l as [|x l IH]; intros s Hnd Hnew; cbn [fold_left].
  - by rewrite app_nil_r.
  - apply NoDup_cons in Hnd as [Hx Hnd].
    assert (set_add x s = s ++ [x]) as ->.
    { unfold set_add.
      assert (set_in x s = false) as ->; [|done].
      apply not_true_is_false. rewrite lit_set_in. apply Hnew. left. }
    rewrite IH; [by rewrite <- app_assoc|done|].
    intros y Hy [Hin|Hin%list_elem_of_singleton]%elem_of_app.
    + apply (Hnew y); [by right|done].
    + by subst.
Qed.

Lemma lit_set_update_nil (l : list literal) : NoDup l → set_update [] l = l.
Proof.
  intros Hnd. rewrite lit_set_update_fresh; [done|done|].
  intros x _ []%elem_of_nil.
Qed.

Lemma scan_preconds_keys polarity prev ps parent_s_nodes (sh : SHeap) found :
  (scan_preconds polarity prev ps parent_s_nodes sh).1 = Some found →
  py_key <$> found = set_update (py_key <$> parent_s_nodes) (lits polarity ps).
Proof.
  revert parent_s_nodes sh.
  induction ps as [|p ps IH]; intros parent_s_nodes sh; cbn [scan_preconds].
  - by intros [= <-].
  - unfold PgNode_s_init. cbn [alloc fst snd].
    set (n := mkPgNode_s (next_addr sh) p polarity).
    destruct (set_in n prev); cbn [negb]; [|done].
    intros Hfound. rewrite (IH _ _ Hfound).
    by rewrite (set_add_fmap literal_key_id).
Qed.

Lemma add_action_heap level prev act pg0 seen pg pg' :
  length (a_levels pg0) = level →
  action_level_inv pg0 prev seen pg → action_level_heap pg0 pg →
  add_action level prev act pg = Returned pg' →
  action_level_heap pg0 pg'.
Proof.
  intros Hlen Hinv Hheap. unfold add_action.
  pose proof (scan_preconds_keys true prev (precond_pos act) [] (s_heap pg)) as Hk1.
  destruct (scan_preconds true prev (precond_pos act) [] (s_heap pg))
    as [[parents1|] sh1]; cbn [fst snd] in *.
  2:{ by intros [= <-]. }
  pose proof (scan_preconds_keys false prev (precond_neg act) parents1 sh1) as Hk2.
  destruct (scan_preconds false prev (precond_neg act) parents1 sh1)
    as [[parent_s_nodes|] sh2]; cbn [fst snd] in *.
  2:{ by intros [= <-]. }
  destruct Hinv as (Hstat & Hs & Hexts & Hexta & Lcur & Hal & Hnd & Hfa & Hfe & Hper & Hact).
  destruct Hheap as (Hold & Hnew & Hpar).
  destruct (PgNode_a_init_spec act sh2 (a_heap pg))
    as (Haddr & Hnext & Hexta3 & Hexts3 & Hacta & Hpers & Hkeys & Hfresh).
  destruct (PgNode_a_init_links act sh2 (a_heap pg)) as [_ Hah3].
  destruct (PgNode_a_init act sh2 (a_heap pg)) as [[a_node sh3] ah3].
  cbn [fst snd] in *.
  cbn [a_levels with_a_heap with_s_heap].
  rewrite Hal, <- Hlen, snoc_lookup_length, snoc_insert_length.
  intros [= <-].
  assert (next_addr (a_heap pg0) ≤ next_addr (a_heap pg)) as Hlea by by destruct Hexta.
  assert (py_key <$> parent_s_nodes = pre_keys act) as Hpre.
  { rewrite (Hk2 _ eq_refl), (Hk1 _ eq_refl). done. }
  split; [|split]; cbn [s_heap a_heap a_levels with_a_levels with_a_heap with_s_heap].
  - intros i Hi. rewrite deref_modify, decide_False by (rewrite Haddr; lia).
    rewrite Hah3, deref_alloc, decide_False by lia. by apply Hold.
  - intros i Hlo Hhi. cbn [next_addr modify] in Hhi. rewrite Hnext in Hhi.
    rewrite deref_modify. destruct (decide (addr a_node = i)) as [Hi|Hi].
    + rewrite Hah3, Haddr, deref_alloc, decide_True by done. done.
    + rewrite Hah3, deref_alloc, decide_False by (rewrite <- Haddr; done).
      apply Hnew; [done|]. rewrite Haddr in Hi. lia.
  - intros Lc a Hlast Ha. rewrite last_snoc in Hlast. injection Hlast as <-.
    rewrite deref_modify.
    apply elem_of_set_add in Ha as [Ha|[_ ->]].
    + assert (addr a < next_addr (a_heap pg)) as Hlt by by apply Hfa.
      rewrite decide_False by (rewrite Haddr; lia).
      rewrite Hah3, deref_alloc, decide_False by lia.
      apply (Hpar Lcur); [by rewrite Hal, last_snoc|done].
    + rewrite decide_True by done.
      rewrite Hah3, Haddr, deref_alloc, decide_True by done.
      cbn [parents with_parents PgNode_init].
      rewrite (set_update_fmap literal_key_id), Hpre, Hacta.
      apply lit_set_update_nil, pre_keys_NoDup.
Qed.

Lemma action_level_inv_start pg prev :
  action_level_inv pg prev [] (with_a_levels (a_levels pg ++ [[]]) pg).
Proof.
  split; [by repeat split|]. split; [done|].
  split; [apply mutex_ext_refl|]. split; [apply mutex_ext_refl|].
  exists []. cbn [a_levels with_a_levels s_heap a_heap].
  split; [done|]. split; [constructor|].
  split; [apply fresh_set_nil|]. split; [apply fresh_set_nil|].
  split; [|done]. intros a Ha. by apply elem_of_nil in Ha.
Qed.

Lemma add_action_level_heap level pg prev pg1 :
  length (a_levels pg) = level →
  s_levels pg !! level = Some prev →
  add_action_level level pg = Returned pg1 →
  action_level_heap pg pg1.
Proof.
  intros Hlen Hprev. unfold add_action_level.
  cbn [s_levels with_a_levels all_actions]. rewrite Hprev. intros Hrun.
  apply (for_each_ret
           (λ seen pg', action_level_inv pg prev seen pg' ∧ action_level_heap pg pg')
           (all_actions pg) (add_action level prev)
           (with_a_levels (a_levels pg ++ [[]]) pg) pg1); [| |done].
  - split; [apply action_level_inv_start|].
    split; [done|]. split.
    + intros i Hlo Hhi. cbn [a_heap with_a_levels] in Hhi. lia.
    + intros Lcur a Hlast Ha. cbn [a_levels with_a_levels] in Hlast.
      rewrite last_snoc in Hlast. injection Hlast as <-. by apply elem_of_nil in Ha.
  - intros seen act pg2 pg3 [Hinv Hheap] _ Hstep.
    destruct (add_action_spec level prev act pg seen pg2 Hlen Hinv) as (pg3' & Hrun' & Hinv').
    assert (pg3' = pg3) as -> by congruence.
    split; [done|].
    exact (add_action_heap level prev act pg seen pg2 pg3 Hlen Hinv Hheap Hstep).
Qed.

Lemma effect_pairs_snoc seen a :
  effect_pairs (seen ++ [a]) = effect_pairs seen ++ (pair a <$> effnodes a).
Proof.
  unfold effect_pairs. rewrite bind_app. cbn [mbind list_bind]. by rewrite app_nil_r.
Qed.

Lemma add_effnode_heap lvl a e pg0 visited pg pg' :
  literal_level_heap pg0 visited pg →
  add_effnode lvl a e pg = Returned pg' →
  literal_level_heap pg0 (visited ++ [(a, e)]) pg'.
Proof.
  intros [Ha Hs]. unfold add_effnode. cbn [s_levels with_a_heap with_s_heap].
  destruct (s_levels pg !! lvl); [|done]. intros [= <-].
  unfold literal_level_heap. cbn [s_heap a_heap with_s_levels with_a_heap with_s_heap].
  split; intros i; rewrite deref_modify, filter_app, fmap_app,
    filter_cons, filter_nil; cbn [fst snd].
  - rewrite !Ha. unfold with_children. cbn [parents children mutex].
    rewrite set_update_app.
    by destruct (decide (addr a = i)) as [<-|Hne].
  - rewrite !Hs. unfold with_parents. cbn [parents children mutex].
    rewrite set_update_app.
    by destruct (decide (addr e = i)) as [<-|Hne].
Qed.

Lemma add_literal_level_heap lvl pg A pg3 :
  0 < lvl → a_levels pg !! (lvl - 1) = Some A →
  add_literal_level lvl pg = Returned pg3 →
  literal_level_heap pg (effect_pairs A) pg3.
Proof.
  intros Hpos HA. unfold add_literal_level. cbn [a_levels with_s_levels].
  rewrite py_index_pred, HA by done. intros Hrun.
  apply (for_each_ret (λ seen pg', literal_level_heap pg (effect_pairs seen) pg')
           A (λ pre_a_node, for_each (effnodes pre_a_node) (add_effnode lvl pre_a_node))
           (with_s_levels (s_levels pg ++ [[]]) pg) pg3); [| |done].
  - split; intros i; cbn; by destruct (deref _ i).
  - intros seen a pg1 pg2 Hinv _ Hinner. rewrite effect_pairs_snoc.
    apply (for_each_ret
             (λ seen_e pg', literal_level_heap pg
                              (effect_pairs seen ++ (pair a <$> seen_e)) pg')
             (effnodes a) (add_effnode lvl a) pg1 pg2); [| |done].
    + by rewrite app_nil_r.
    + intros seen_e e pg4 pg5 Hinv2 _ Hstep. rewrite fmap_app, app_assoc.
      by eapply add_effnode_heap.
Qed.

(** ** The children of the literal nodes *)

Lemma alloc_ext_refl {P M} (st : Store P M) : alloc_ext st st.
Proof. split; [done|]. split; [done|]. intros; lia. Qed.

Lemma alloc_ext_trans {P M} (st1 st2 st3 : Store P M) :
  alloc_ext st1 st2 → alloc_ext st2 st3 → alloc_ext st1 st3.
Proof.
  intros (Hle1 & Hold1 & Hnew1) (Hle2 & Hold2 & Hnew2).
  split; [lia|]. split.
  - intros i Hi. rewrite Hold2 by lia. by apply Hold1.
  - intros i Hlo Hhi. destruct (decide (i < next_addr st2)).
    + rewrite Hold2 by done. by apply Hnew1.
    + apply Hnew2; lia.
Qed.

Lemma alloc_ext_alloc {P M} (st : Store P M) : alloc_ext st (alloc st).2.
Proof.
  split; [simpl; lia|]. split.
  - intros i Hi. rewrite deref_alloc. case_decide; [lia|done].
  - intros i Hlo Hhi. rewrite deref_alloc. simpl in Hhi. case_decide; [done|lia].
Qed.

Lemma alloc_ext_mutex_ext {P M} (st st' : Store P M) :
  alloc_ext st st' → mutex_ext st st'.
Proof.
  intros (Hle & Hold & Hnew). split; [done|]. split.
  - intros i Hi. by rewrite Hold.
  - intros i Hlo Hhi. by rewrite Hnew.
Qed.

Lemma scan_preconds_alloc polarity prev ps parent_s_nodes (sh : SHeap) :
  alloc_ext sh (scan_preconds polarity prev ps parent_s_nodes sh).2.
Proof.
  revert parent_s_nodes sh.
  induction ps as [|p ps IH]; intros parent_s_nodes sh; cbn [scan_preconds].
  - apply alloc_ext_refl.
  - unfold PgNode_s_init. cbn [alloc fst snd].
    destruct (negb (set_in _ prev)).
    + apply (alloc_ext_alloc sh).
    + eapply alloc_ext_trans; [apply (alloc_ext_alloc sh)|apply IH].
Qed.

Lemma add_s_nodes_alloc polarity ps nodes (sh : SHeap) :
  alloc_ext sh (add_s_nodes polarity ps (nodes, sh)).2.
Proof.
  revert nodes sh. induction ps as [|p ps IH]; intros nodes sh.
  - apply alloc_ext_refl.
  - rewrite add_s_nodes_cons.
    eapply alloc_ext_trans; [apply (alloc_ext_alloc sh)|apply IH].
Qed.

Lemma PgNode_a_init_alloc act (sh : SHeap) (ah : AHeap) :
  alloc_ext sh (PgNode_a_init act sh ah).1.2 ∧ alloc_ext ah (PgNode_a_init act sh ah).2.
Proof.
  unfold PgNode_a_init, precond_s_nodes, effect_s_nodes. cbn [alloc].
  pose proof (add_s_nodes_alloc true (precond_pos act) [] sh) as H1.
  destruct (add_s_nodes true (precond_pos act) ([], sh)) as [n1 sh1].
  pose proof (add_s_nodes_alloc false (precond_neg act) n1 sh1) as H2.
  destruct (add_s_nodes false (precond_neg act) (n1, sh1)) as [n2 sh2].
  pose proof (add_s_nodes_alloc true (effect_add act) [] sh2) as H3.
  destruct (add_s_nodes true (effect_add act) ([], sh2)) as [n3 sh3].
  pose proof (add_s_nodes_alloc false (effect_rem act) n3 sh3) as H4.
  destruct (add_s_nodes false (effect_rem act) (n3, sh3)) as [n4 sh4].
  cbn [fst snd] in *. split; [|apply (alloc_ext_alloc ah)].
  eapply alloc_ext_trans; [done|]. eapply alloc_ext_trans; [done|].
  by eapply alloc_ext_trans.
Qed.

Lemma link_children_other level_nodes parent_s_nodes a_node (sh : SHeap) i :
  i ∉ addr <$> level_nodes →
  deref (link_children level_nodes parent_s_nodes a_node sh) i = deref sh i.
Proof.
  unfold link_children. revert sh.
  induction level_nodes as [|x l IH]; intros sh Hi; [done|].
  cbn [fold_left]. rewrite fmap_cons in Hi. apply not_elem_of_cons in Hi as [Hne Hi].
  rewrite IH by done. destruct (set_in x parent_s_nodes); [|done].
  rewrite deref_modify. by rewrite decide_False.
Qed.

Lemma link_children_at level_nodes parent_s_nodes a_node (sh : SHeap) s :
  NoDup (addr <$> level_nodes) → s ∈ level_nodes →
  deref (link_children level_nodes parent_s_nodes a_node sh) (addr s) =
    if set_in s parent_s_nodes
    then with_children (set_add a_node) (deref sh (addr s))
    else deref sh (addr s).
Proof.
  revert sh. induction level_nodes as [|x l IH]; intros sh Hnd Hs;
    [by apply elem_of_nil in Hs|].
  rewrite fmap_cons in Hnd. apply NoDup_cons in Hnd as [Hx Hnd].
  change (link_children (x :: l) parent_s_nodes a_node sh) with
    (link_children l parent_s_nodes a_node
       (if set_in x parent_s_nodes
        then modify (with_children (set_add a_node)) (addr x) sh else sh)).
  apply elem_of_cons in Hs as [->|Hs].
  - rewrite link_children_other by done.
    destruct (set_in x parent_s_nodes); [|done].
    rewrite deref_modify. by rewrite decide_True.
  - rewrite IH by done.
    assert (addr x ≠ addr s) as Hne.
    { intros Heq. apply Hx. rewrite Heq. apply list_elem_of_fmap. eauto. }
    destruct (set_in s parent_s_nodes), (set_in x parent_s_nodes);
      rewrite ?deref_modify, ?decide_False; done.
Qed.

Lemma filter_snoc {X} (P : X → Prop) `{∀ x, Decision (P x)} (l : list X) (x : X) :
  filter P (l ++ [x]) = filter P l ++ (if decide (P x) then [x] else []).
Proof. by rewrite filter_app, filter_cons, filter_nil. Qed.

Lemma action_level_children_skip pg0 prev seen act pg (sh : SHeap) :
  (∀ s, s ∈ prev → addr s < next_addr (s_heap pg0)) →
  next_addr (s_heap pg0) ≤ next_addr (s_heap pg) →
  action_level_children pg0 prev seen pg →
  alloc_ext (s_heap pg) sh →
  enabled (py_key <$> prev) act = false →
  action_level_children pg0 prev (seen ++ [act]) (with_s_heap sh pg).
Proof.
  intros Hbound Hle (Hc1 & Hc2 & Hc3) (Hle' & Hold & Hnew) Hen.
  split; [|split]; cbn [s_heap with_s_heap].
  - intros i Hi Hlt. rewrite Hold by lia. by apply Hc1.
  - intros i Hlo Hhi. destruct (decide (i < next_addr (s_heap pg))) as [Hlt|Hge].
    + rewrite Hold by done. by apply Hc2.
    + rewrite Hnew by lia. done.
  - intros s Hs. rewrite Hold by (specialize (Hbound s Hs); lia).
    destruct (Hc3 s Hs) as [Hk Hsound]. rewrite filter_snoc.
    rewrite decide_False by (intros [Hen' _]; congruence).
    rewrite app_nil_r. split; [done|].
    intros c Hc. destruct (Hsound c Hc) as [?|(Hin & ? & ?)]; [by left|right].
    split; [|done]. apply elem_of_app. by left.
Qed.

Lemma add_action_children level prev act pg0 seen pg pg' :
  length (a_levels pg0) = level →
  NoDup (addr <$> prev) → (∀ s, s ∈ prev → addr s < next_addr (s_heap pg0)) →
  action_level_inv pg0 prev seen pg → action_level_children pg0 prev seen pg →
  add_action level prev act pg = Returned pg' →
  action_level_children pg0 prev (seen ++ [act]) pg'.
Proof.
  intros Hlen Hnd Hbound Hinv Hch. unfold add_action.
  assert (next_addr (s_heap pg0) ≤ next_addr (s_heap pg)) as Hle0.
  { by destruct Hinv as (_ & _ & [? _] & _). }
  pose proof (scan_preconds_alloc true prev (precond_pos act) [] (s_heap pg)) as Ha1.
  pose proof (scan_preconds_keys true prev (precond_pos act) [] (s_heap pg)) as Hk1.
  destruct (scan_preconds_spec true prev (precond_pos act) [] (s_heap pg)) as [_ Hres1].
  destruct (scan_preconds true prev (precond_pos act) [] (s_heap pg))
    as [[parents1|] sh1]; cbn [fst snd] in *.
  2:{ intros [= <-]. apply action_level_children_skip; try done.
      by apply enabled_false_pos. }
  pose proof (scan_preconds_alloc false prev (precond_neg act) parents1 sh1) as Ha2.
  pose proof (scan_preconds_keys false prev (precond_neg act) parents1 sh1) as Hk2.
  destruct (scan_preconds_spec false prev (precond_neg act) parents1 sh1) as [_ Hres2].
  destruct (scan_preconds false prev (precond_neg act) parents1 sh1)
    as [[parent_s_nodes|] sh2]; cbn [fst snd] in *.
  2:{ intros [= <-]. apply action_level_children_skip; try done.
      - by eapply alloc_ext_trans.
      - by apply enabled_false_neg. }
  assert (enabled (py_key <$> prev) act = true) as Hen.
  { unfold enabled. by rewrite Hres1, Hres2. }
  assert (py_key <$> parent_s_nodes = pre_keys act) as Hpre.
  { rewrite (Hk2 _ eq_refl), (Hk1 _ eq_refl). done. }
  destruct Hinv as (_ & _ & _ & _ & Lcur & Hal & _).
  destruct Hch as (Hc1 & Hc2 & Hc3).
  destruct (PgNode_a_init_spec act sh2 (a_heap pg))
    as (_ & _ & _ & _ & Hacta & Hpers & _).
  destruct (PgNode_a_init_alloc act sh2 (a_heap pg)) as [Ha3 _].
  destruct (PgNode_a_init act sh2 (a_heap pg)) as [[a_node sh3] ah3].
  cbn [fst snd] in *.
  destruct (link_children_spec prev parent_s_nodes a_node sh3) as [_ Hnext4].
  cbn [a_levels with_a_heap with_s_heap].
  rewrite Hal, <- Hlen, snoc_lookup_length, snoc_insert_length.
  intros [= <-].
  assert (alloc_ext (s_heap pg) sh3) as (Hle & Hold & Hnew).
  { eapply alloc_ext_trans; [exact Ha1|]. by eapply alloc_ext_trans. }
  assert (∀ s, s ∈ prev → set_in s parent_s_nodes = true ↔
            feeds (py_key <$> prev) (py_key s) act) as Hfeeds.
  { intros s _. rewrite set_in_key, Hpre. unfold feeds. tauto. }
  split; [|split]; cbn [s_heap with_a_levels with_a_heap with_s_heap].
  - intros i Hi Hlt. rewrite link_children_other by done.
    rewrite Hold by lia. by apply Hc1.
  - intros i Hlo Hhi. rewrite Hnext4 in Hhi.
    rewrite link_children_other.
    2:{ intros (s & -> & Hs)%list_elem_of_fmap. specialize (Hbound s Hs). lia. }
    destruct (decide (i < next_addr (s_heap pg))) as [Hlt|Hge].
    + rewrite Hold by done. by apply Hc2.
    + rewrite Hnew by lia. done.
  - intros s Hs. rewrite link_children_at by done.
    rewrite Hold by (specialize (Hbound s Hs); lia).
    destruct (Hc3 s Hs) as [Hk Hsound]. rewrite filter_snoc.
    destruct (set_in s parent_s_nodes) eqn:E.
    + rewrite decide_True by by apply Hfeeds.
      cbn [children with_children]. split.
      * rewrite (set_add_fmap action_id_key_id), Hk, fmap_app, set_update_app.
        cbn [fmap list_fmap set_update fold_left]. f_equal.
        unfold py_key, PgNode_a_key, a_key, act_key. by rewrite Hacta, Hpers.
      * intros c [Hc|[_ ->]]%elem_of_set_add.
        -- destruct (Hsound c Hc) as [?|(Hin & ? & ?)]; [by left|right].
           split; [|done]. apply elem_of_app. by left.
        -- right. rewrite Hacta. split; [|split; [|done]].
           ++ apply elem_of_app. right. left.
           ++ by apply Hfeeds.
    + rewrite decide_False.
      2:{ intros Hf. apply Hfeeds in Hf; [congruence|done]. }
      rewrite app_nil_r. split; [done|].
      intros c Hc. destruct (Hsound c Hc) as [?|(Hin & ? & ?)]; [by left|right].
      split; [|done]. apply elem_of_app. by left.
Qed.

Lemma add_action_level_children level pg prev pg1 :
  length (a_levels pg) = level →
  s_levels pg !! level = Some prev →
  NoDup (addr <$> prev) → (∀ s, s ∈ prev → addr s < next_addr (s_heap pg)) →
  add_action_level level pg = Returned pg1 →
  action_level_children pg prev (all_actions pg) pg1.
Proof.
  intros Hlen Hprev Hnd Hbound. unfold add_action_level.
  cbn [s_levels with_a_levels all_actions]. rewrite Hprev. intros Hrun.
  apply (for_each_ret
           (λ seen pg', action_level_inv pg prev seen pg' ∧
                        action_level_children pg prev seen pg')
           (all_actions pg) (add_action level prev)
           (with_a_levels (a_levels pg ++ [[]]) pg) pg1); [| |done].
  - split; [apply action_level_inv_start|].
    split; [done|]. split.
    + intros i Hlo Hhi. cbn [s_heap with_a_levels] in Hhi. lia.
    + intros s Hs. split; [done|]. intros c Hc. by left.
  - intros seen act pg2 pg3 [Hinv Hch] _ Hstep.
    destruct (add_action_spec level prev act pg seen pg2 Hlen Hinv) as (pg3' & Hrun' & Hinv').
    assert (pg3' = pg3) as -> by congruence.
    split; [done|].
    exact (add_action_children level prev act pg seen pg2 pg3 Hlen Hnd Hbound Hinv Hch Hstep).
Qed.

(** ** One round, step by step *)

Lemma level_round_run level pg :
  graph_ok pg → length (a_levels pg) = level → length (s_levels pg) = S level →
  ∃ prev A L pg1 pg3 pg',
    round_of level pg prev A L pg1 pg3 pg' ∧
    ∀ continue : nat → PlanningGraph → outcome,
      level_round level pg continue =
        if set_eq L prev then Returned pg' else continue (level + 1) pg'.
Proof.
  intros [Hsok Haok] Hla Hls.
  destruct (lookup_lt_is_Some_2 (s_levels pg) level) as [prev Hprev]; [lia|].
  destruct (add_action_level_links level pg prev Hla Hprev)
    as (pg1 & Hrun1 & Hinv1 & Hlinks1).
  pose proof (add_action_level_heap level pg prev pg1 Hla Hprev Hrun1) as Hheap1.
  assert (action_level_children pg prev (all_actions pg) pg1) as Hch1.
  { destruct (Hsok prev) as [(_ & Hndp & _) Hbp]; [by eapply lookup_elem_of|].
    by apply (add_action_level_children level). }
  pose proof Hinv1 as
    (Hstat1 & Hs1 & Hexts1 & Hexta1 & A & Hal1 & HndA & HfA & HfE & Hper & Hact).
  assert (level_ok (a_heap pg1) A) as HAok1 by by eapply level_ok_new.
  destruct (update_a_mutex_spec A pg1 HAok1)
    as (Hstat2 & Hs2 & Ha2 & Hsh2 & Hmarks2 & HAok2).
  set (pg2 := update_a_mutex A pg1) in *.
  assert (a_levels pg2 !! (level + 1 - 1) = Some A) as HA2.
  { rewrite Ha2, Hal1. replace (level + 1 - 1) with (length (a_levels pg)) by lia.
    apply snoc_lookup_length. }
  destruct (add_literal_level_links (level + 1) pg2 A)
    as (pg3 & Hrun3 & Hinv3 & Hlinks3).
  { rewrite Hs2, Hs1. lia. }
  { lia. }
  { done. }
  { by destruct HfE. }
  { intros e He. rewrite Hsh2. destruct Hlinks1 as ((_ & _ & Hpnew) & _).
    destruct HfE as [_ Hb]. destruct (Hb e He). by apply Hpnew. }
  assert (literal_level_heap pg2 (effect_pairs A) pg3) as Hheap3.
  { apply (add_literal_level_heap (level + 1)); [lia|done|done]. }
  pose proof Hinv3 as (Hstat3 & Ha3 & Hs3 & Hexts3 & Hexta3 & Hns3 & Hna3).
  set (L := set_update [] (A ≫= effnodes)) in *.
  set (pg4 := update_s_mutex L pg3).
  destruct (update_s_mutex_frame L pg3) as (_ & Hs4 & _).
  exists prev, A, L, pg1, pg3, pg4. split; [by constructor|].
  intros continue.
  unfold level_round. rewrite Hrun1. cbn [and_then].
  rewrite Hal1. rewrite <- Hla. rewrite snoc_lookup_length. fold pg2.
  rewrite Hla, Hrun3. cbn [and_then].
  assert (level + 1 = length (s_levels pg)) as Hlv by lia.
  rewrite Hlv. rewrite Hs3, Hs2, Hs1. rewrite snoc_lookup_length. fold pg4.
  fold pg4 in Hs4. rewrite Hs4, Hs3, Hs2, Hs1. rewrite snoc_lookup_length.
  rewrite py_index_pred by lia.
  rewrite lookup_app_l by lia.
  replace (length (s_levels pg) - 1) with level by lia. rewrite Hprev.
  done.
Qed.

Lemma level_round_steps level pg :
  graph_ok pg → length (a_levels pg) = level → length (s_levels pg) = S level →
  ∃ prev A L pg1 pg3 pg',
    round_of level pg prev A L pg1 pg3 pg' ∧
    graph_ok pg' ∧ (links_ok pg → links_ok pg') ∧
    a_levels pg' = a_levels pg ++ [A] ∧ s_levels pg' = s_levels pg ++ [L] ∧
    same_static pg pg' ∧
    ∀ continue : nat → PlanningGraph → outcome,
      level_round level pg continue =
        if set_eq L prev then Returned pg' else continue (level + 1) pg'.
Proof.
  intros Hok Hla Hls.
  destruct (level_round_run level pg Hok Hla Hls)
    as (prev & A & L & pg1 & pg3 & pg' & Hround & Hrun).
  destruct (level_round_spec level pg (λ _ p, Returned p) Hok Hla Hls)
    as (pg'' & prev' & A' & L' & Hprev' & Hstat & Ha' & Hs' & Hok' & Hlk' & _ & Hrun').
  assert (pg'' = pg') as ->.
  { specialize (Hrun (λ _ p, Returned p)). rewrite Hrun' in Hrun.
    destruct (set_eq L' prev'), (set_eq L prev); congruence. }
  assert (A' = A) as ->.
  { pose proof (ro_literal _ _ _ _ _ _ _ _ Hround) as (_ & Ha3 & _).
    destruct (update_a_mutex_frame A pg1) as (_ & _ & Ha2 & _).
    destruct (update_s_mutex_frame L pg3) as (_ & _ & Ha4 & _).
    rewrite (ro_result _ _ _ _ _ _ _ _ Hround), Ha4, Ha3, Ha2,
      (ro_a_level _ _ _ _ _ _ _ _ Hround) in Ha'.
    by apply app_inj_tail in Ha' as [_ ->]. }
  assert (L' = L) as ->.
  { pose proof (ro_literal _ _ _ _ _ _ _ _ Hround) as (_ & _ & Hs3 & _).
    pose proof (ro_action _ _ _ _ _ _ _ _ Hround) as (_ & Hs1 & _).
    destruct (update_a_mutex_frame A pg1) as (_ & Hs2 & _).
    destruct (update_s_mutex_frame L pg3) as (_ & Hs4 & _).
    rewrite (ro_result _ _ _ _ _ _ _ _ Hround), Hs4, Hs3, Hs2, Hs1 in Hs'.
    by apply app_inj_tail in Hs' as [_ ->]. }
  exists prev, A, L, pg1, pg3, pg'. done.
Qed.

(** ** The whole construction *)

Lemma deref_empty_store {P M} i : deref (@empty_store P M) i = PgNode_init.
Proof. unfold deref, empty_store. simpl. by rewrite lookup_empty. Qed.

Lemma add_goal_alloc (goals : list string) (acc : list PgNode_s * SHeap) :
  alloc_ext acc.2 (fold_left add_goal goals acc).2.
Proof.
  revert acc. induction goals as [|s goals IH]; intros acc; cbn [fold_left].
  - apply alloc_ext_refl.
  - eapply alloc_ext_trans; [|apply IH]. apply (alloc_ext_alloc acc.2).
Qed.

Lemma add_initial_loop_heap polarity ps pg pg' :
  (∀ i, deref (s_heap pg) i = PgNode_init) →
  for_each ps (add_initial 0 polarity) pg = Returned pg' →
  ∀ i, deref (s_heap pg') i = PgNode_init.
Proof.
  intros Hinit Hrun.
  apply (for_each_ret (λ _ pg1, ∀ i, deref (s_heap pg1) i = PgNode_init)
           ps (add_initial 0 polarity) pg pg'); [done| |done].
  intros _ p pg1 pg2 Hinv _. unfold add_initial, PgNode_s_init.
  cbn [alloc fst snd s_levels with_s_heap].
  destruct (s_levels pg1 !! 0); [|done]. intros [= <-] i.
  cbn [s_heap with_s_levels with_s_heap].
  rewrite (deref_alloc (s_heap pg1)). by case_decide.
Qed.

Lemma initial_level_steps pb fs0 serial_planning fuel :
  ∃ pg0 L0,
    create_graph fuel
      (mkPlanningGraph pb fs0 serial_planning
         (actions_list pb ++ noop_actions (state_map pb))
         [] [] [] empty_store empty_store) = level_loop fuel 0 pg0 ∧
    initial_of pb fs0 serial_planning L0 pg0 ∧
    graph_ok pg0 ∧ links_ok pg0 ∧ goal_states pg0 = [].
Proof.
  set (pg := mkPlanningGraph _ _ _ _ _ _ _ _ _).
  unfold create_graph.
  cbn [s_levels a_levels pg length Nat.eqb negb orb app fs with_s_levels].
  destruct (add_initial_loop_spec true (pos fs0) (with_s_levels [[]] pg) [] 0)
    as (pg1 & L1 & Hrun1 & Hstat1 & Ha1 & Hah1 & [Hext1 Hpext1] & Hs1 & Hfr1 & Hk1);
    [done|simpl; lia|apply fresh_set_nil|].
  rewrite Hrun1. cbn [and_then].
  assert (fs pg1 = fs0) as Hfs1 by by destruct Hstat1 as (_ & -> & _).
  rewrite Hfs1.
  destruct (add_initial_loop_spec false (neg fs0) pg1 L1 0)
    as (pg2 & L2 & Hrun2 & Hstat2 & Ha2 & Hah2 & [Hext2 Hpext2] & Hs2 & Hfr2 & Hk2);
    [done|lia|done|].
  rewrite Hrun2. cbn [and_then].
  assert (∀ i, deref (s_heap pg1) i = PgNode_init) as Hheap1.
  { apply (add_initial_loop_heap true (pos fs0) (with_s_levels [[]] pg) pg1); [|done].
    intros i. apply deref_empty_store. }
  pose proof (add_initial_loop_heap false (neg fs0) pg1 pg2 Hheap1 Hrun2) as Hheap2.
  assert (same_static pg pg2) as (Hpb & Hfs & Hser & Hacts & Hgoals).
  { eapply same_static_trans; [|done]. eapply same_static_trans; [|done]. by repeat split. }
  exists pg2, L2. split; [done|]. split; [|split; [|split]].
  - constructor; try done.
    + by rewrite Ha2, Ha1.
    + by rewrite Hah2, Hah1.
    + by rewrite Hk2, Hk1.
  - split.
    + rewrite Hs2. intros L [->|[]%elem_of_nil]%elem_of_cons. split.
      * apply level_ok_fresh; [|by destruct Hfr2|].
        -- rewrite Hk2, Hk1. do 2 apply lit_set_update_NoDup. constructor.
        -- intros x _. by rewrite Hheap2.
      * intros x Hx. by apply Hfr2.
    + rewrite Ha2, Ha1. intros L []%elem_of_nil.
  - split.
    + intros i _. rewrite Hheap2. simpl. lia.
    + rewrite Hah2, Hah1. cbn [a_heap with_s_levels pg]. intros i p.
      rewrite deref_empty_store. by intros _ []%elem_of_nil.
  - done.
Qed.

(** An invariant of the rounds holds in every graph that [level_loop]
    returns. *)
Lemma level_loop_inv (J : PlanningGraph → Prop) :
  (∀ level pg prev A L pg1 pg3 pg',
     graph_ok pg → links_ok pg → graph_ok pg' →
     length (a_levels pg) = level → length (s_levels pg) = S level →
     round_of level pg prev A L pg1 pg3 pg' → J pg → J pg') →
  ∀ fuel level pg pg',
    graph_ok pg → links_ok pg →
    length (a_levels pg) = level → length (s_levels pg) = S level →
    J pg → level_loop fuel level pg = Returned pg' →
    J pg' ∧ graph_ok pg'.
Proof.
  intros Hstep fuel.
  induction fuel as [|fuel IH]; intros level pg pg' Hok Hlk Hla Hls HJ Hrun; [done|].
  cbn [level_loop] in Hrun.
  destruct (level_round_steps level pg Hok Hla Hls)
    as (prev & A & L & pg1 & pg3 & pg4 & Hround & Hok4 & Hlk4 & Ha4 & Hs4 & _ & Heq).
  rewrite Heq in Hrun.
  assert (J pg4) as HJ4
    by exact (Hstep level pg prev A L pg1 pg3 pg4 Hok Hlk Hok4 Hla Hls Hround HJ).
  destruct (set_eq L prev).
  - injection Hrun as <-. done.
  - apply (IH (level + 1) pg4); [done|auto| | |done|done].
    + rewrite Ha4, length_app. simpl. lia.
    + rewrite Hs4, length_app. simpl. lia.
Qed.

(** An invariant of the rounds that holds when the loop is entered, and
    that creating objects for the goals does not break, holds in every graph
    that the constructor returns. *)
Lemma PlanningGraph_init_inv (J : PlanningGraph → Prop) pb state serial_planning
    fuel pg :
  (∀ fs0 L0 pg0, decode_state state (state_map pb) = Some fs0 →
     initial_of pb fs0 serial_planning L0 pg0 → graph_ok pg0 → J pg0) →
  (∀ level pg prev A L pg1 pg3 pg',
     graph_ok pg → links_ok pg → graph_ok pg' →
     length (a_levels pg) = level → length (s_levels pg) = S level →
     round_of level pg prev A L pg1 pg3 pg' → J pg → J pg') →
  (∀ pg1 sh gs, graph_ok pg1 → J pg1 → alloc_ext (s_heap pg1) sh →
     J (with_goal_states gs (with_s_heap sh pg1))) →
  PlanningGraph_init pb state serial_planning fuel = Returned pg → J pg.
Proof.
  intros Hinit Hstep Hgoal. unfold PlanningGraph_init.
  destruct (decode_state state (state_map pb)) as [fs0|] eqn:Hdec; [|done].
  destruct (initial_level_steps pb fs0 serial_planning fuel)
    as (pg0 & L0 & -> & Hini & Hok0 & Hlk0 & _).
  destruct (level_loop fuel 0 pg0) as [pg1| |] eqn:Hrun; [|done..].
  cbn [and_then]. intros [= <-].
  destruct (level_loop_inv J Hstep fuel 0 pg0 pg1) as [HJ1 Hok1]; try done.
  - by rewrite (io_a_levels _ _ _ _ _ Hini).
  - by rewrite (io_s_levels _ _ _ _ _ Hini).
  - by eapply Hinit.
  - apply Hgoal; [done|done|]. apply (add_goal_alloc (goal pb) ([], s_heap pg1)).
Qed.

(** ** What a round leaves behind *)

Lemma filter_none {X} (P : X → Prop) `{∀ x, Decision (P x)} (l : list X) :
  (∀ x, x ∈ l → ¬ P x) → filter P l = [].
Proof.
  induction l as [|x l IH]; intros Hn; [done|].
  rewrite filter_cons, decide_False by (apply Hn; left).
  apply IH. intros y Hy. apply Hn. by right.
Qed.

Lemma filter_all {X} (P : X → Prop) `{∀ x, Decision (P x)} (l : list X) :
  (∀ x, x ∈ l → P x) → filter P l = l.
Proof.
  induction l as [|x l IH]; intros Hn; [done|].
  rewrite filter_cons, decide_True by (apply Hn; left).
  f_equal. apply IH. intros y Hy. apply Hn. by right.
Qed.

Lemma filter_NoDup_one {X Y} `{EqDecision Y} (f : X → Y) (l : list X) (p : X) :
  NoDup (f <$> l) → p ∈ l → filter (λ q, f q = f p) l = [p].
Proof.
  induction l as [|x l IH]; intros Hnd Hp; [by apply elem_of_nil in Hp|].
  rewrite fmap_cons in Hnd. apply NoDup_cons in Hnd as [Hx Hnd].
  rewrite filter_cons. apply elem_of_cons in Hp as [->|Hp].
  - rewrite decide_True by done. f_equal. apply filter_none.
    intros y Hy Heq. apply Hx. rewrite <- Heq. apply list_elem_of_fmap. eauto.
  - rewrite decide_False; [by apply IH|].
    intros Heq. apply Hx. rewrite Heq. apply list_elem_of_fmap. eauto.
Qed.

Lemma effect_pairs_cons a A :
  effect_pairs (a :: A) = (pair a <$> effnodes a) ++ effect_pairs A.
Proof. done. Qed.

Lemma elem_of_effect_pairs p A :
  p ∈ effect_pairs A ↔ p.1 ∈ A ∧ p.2 ∈ effnodes p.1.
Proof.
  unfold effect_pairs. rewrite list_elem_of_bind. split.
  - intros (a & (e & -> & He)%list_elem_of_fmap & Ha). done.
  - intros [Ha He]. exists p.1. split; [|done].
    apply list_elem_of_fmap. exists p.2. split; [by destruct p|done].
Qed.

Lemma effect_pairs_snd A : snd <$> effect_pairs A = A ≫= effnodes.
Proof.
  induction A as [|a A IH]; [done|].
  rewrite effect_pairs_cons, fmap_app, IH. cbn [mbind list_bind]. f_equal.
  rewrite <- list_fmap_compose. apply list_fmap_id.
Qed.

Lemma effect_pairs_children A a :
  NoDup (addr <$> A) → a ∈ A →
  snd <$> filter (λ p, addr p.1 = addr a) (effect_pairs A) = effnodes a.
Proof.
  induction A as [|x A IH]; intros Hnd Ha; [by apply elem_of_nil in Ha|].
  rewrite fmap_cons in Hnd. apply NoDup_cons in Hnd as [Hx Hnd].
  rewrite effect_pairs_cons, filter_app, fmap_app.
  apply elem_of_cons in Ha as [->|Ha].
  - rewrite filter_all.
    2:{ by intros p (e & -> & _)%list_elem_of_fmap. }
    rewrite filter_none.
    2:{ intros p [Hp _]%elem_of_effect_pairs Heq. apply Hx. rewrite <- Heq.
        apply list_elem_of_fmap. eauto. }
    rewrite app_nil_r, <- list_fmap_compose. apply list_fmap_id.
  - rewrite filter_none.
    2:{ intros p (e & -> & _)%list_elem_of_fmap Heq. simpl in Heq. apply Hx.
        rewrite Heq. apply list_elem_of_fmap. eauto. }
    by apply IH.
Qed.

Lemma effect_pairs_parents A a e :
  NoDup (addr <$> (A ≫= effnodes)) → a ∈ A → e ∈ effnodes a →
  fst <$> filter (λ p, addr p.2 = addr e) (effect_pairs A) = [a].
Proof.
  intros Hnd Ha He.
  rewrite (filter_NoDup_one (λ p, addr p.2) (effect_pairs A) (a, e)); [done| |].
  - assert ((λ p : PgNode_a * PgNode_s, addr p.2) <$> effect_pairs A =
            addr <$> (A ≫= effnodes)) as ->; [|done].
    rewrite <- effect_pairs_snd, <- list_fmap_compose. done.
  - by apply elem_of_effect_pairs.
Qed.

Section set_update_fresh.
Context {X K : Type} `{PyKeyLaw X K}.

Lemma set_update_fresh (s l : list X) :
  NoDup (py_key <$> l) → (∀ x, x ∈ l → set_in x s = false) →
  set_update s l = s ++ l.
Proof.
  unfold set_update. revert s.
  induction l as [|x l IH]; intros s Hnd Hnew; cbn [fold_left].
  - by rewrite app_nil_r.
  - rewrite fmap_cons in Hnd. apply NoDup_cons in Hnd as [Hx Hnd].
    assert (set_add x s = s ++ [x]) as ->.
    { unfold set_add. rewrite Hnew; [done|left]. }
    rewrite IH; [by rewrite <- app_assoc|done|].
    intros y Hy. unfold set_in. rewrite existsb_app. cbn [existsb].
    rewrite orb_false_r. fold (set_in y s). rewrite Hnew by by right.
    rewrite orb_false_l. apply not_true_is_false. rewrite py_eq_key. intros Heq. apply Hx.
    rewrite Heq. apply list_elem_of_fmap. eauto.
Qed.

Lemma set_update_nil (l : list X) : NoDup (py_key <$> l) → set_update [] l = l.
Proof. intros Hnd. by rewrite set_update_fresh. Qed.
End set_update_fresh.

Lemma with_children_nil {P M} `{PyEq P} (o : PgNode P M) :
  with_children (λ c, set_update c []) o = o.
Proof. by destruct o. Qed.

Lemma with_parents_nil {P M} `{PyEq P} (o : PgNode P M) :
  with_parents (λ c, set_update c []) o = o.
Proof. by destruct o. Qed.

Section round_facts.
Context {level : nat} {pg : PlanningGraph} {prev : list PgNode_s}
  {A : list PgNode_a} {L : list PgNode_s} {pg1 pg3 pg' : PlanningGraph}.
Hypothesis Hround : round_of level pg prev A L pg1 pg3 pg'.

Lemma round_action :
  same_static pg pg1 ∧ s_levels pg1 = s_levels pg ∧
  mutex_ext (s_heap pg) (s_heap pg1) ∧ mutex_ext (a_heap pg) (a_heap pg1) ∧
  NoDup (py_key <$> A) ∧
  fresh_set (next_addr (a_heap pg)) (next_addr (a_heap pg1)) A ∧
  fresh_set (next_addr (s_heap pg)) (next_addr (s_heap pg1)) (A ≫= effnodes) ∧
  (∀ a, a ∈ A → is_persistent a = persistent (action a) ∧
                 py_key <$> effnodes a = eff_keys (action a)) ∧
  action <$> A = next_actions (all_actions pg) (py_key <$> prev).
Proof.
  destruct (ro_action _ _ _ _ _ _ _ _ Hround)
    as (Hstat & Hs & Hexts & Hexta & Lcur & Hal & Hnd & Hfa & Hfe & Hper & Hact).
  rewrite (ro_a_level _ _ _ _ _ _ _ _ Hround) in Hal.
  apply app_inj_tail in Hal as [_ <-]. done.
Qed.

Lemma round_levels :
  a_levels pg' = a_levels pg ++ [A] ∧ s_levels pg' = s_levels pg ++ [L] ∧
  same_static pg pg'.
Proof.
  destruct round_action as (Hstat1 & Hs1 & _).
  destruct (update_a_mutex_frame A pg1) as (Hstat2 & Hs2 & Ha2 & _).
  destruct (ro_literal _ _ _ _ _ _ _ _ Hround) as (Hstat3 & Ha3 & Hs3 & _).
  destruct (update_s_mutex_frame L pg3) as (Hstat4 & Hs4 & Ha4 & _).
  rewrite (ro_result _ _ _ _ _ _ _ _ Hround). split; [|split].
  - by rewrite Ha4, Ha3, Ha2, (ro_a_level _ _ _ _ _ _ _ _ Hround).
  - by rewrite Hs4, Hs3, Hs2, Hs1.
  - eapply same_static_trans; [done|]. eapply same_static_trans; [done|].
    eapply same_static_trans; done.
Qed.

(** The members of the new literal level are effect nodes of the new
    action level. *)
Lemma round_L_sublist : L `sublist_of` A ≫= effnodes.
Proof.
  rewrite (ro_L _ _ _ _ _ _ _ _ Hround).
  exact (set_update_sublist [] (A ≫= effnodes)).
Qed.

Lemma round_L_producer x : x ∈ L → ∃ a, a ∈ A ∧ x ∈ effnodes a.
Proof.
  intros Hx. assert (x ∈ A ≫= effnodes) as Hin.
  { eapply elem_of_sublist; [exact Hx|apply round_L_sublist]. }
  apply list_elem_of_bind in Hin as (a & ? & ?). eauto.
Qed.

Lemma round_next_addr :
  next_addr (a_heap pg) ≤ next_addr (a_heap pg1) ∧
  next_addr (a_heap pg') = next_addr (a_heap pg1) ∧
  next_addr (s_heap pg) ≤ next_addr (s_heap pg1) ∧
  next_addr (s_heap pg') = next_addr (s_heap pg1).
Proof.
  destruct round_action as (_ & _ & [Hles _] & [Hlea _] & _).
  destruct (update_a_mutex_frame A pg1) as (_ & _ & _ & Hsh2 & (Hna2 & _) & _).
  destruct (ro_literal _ _ _ _ _ _ _ _ Hround) as (_ & _ & _ & _ & _ & Hns3 & Hna3).
  destruct (update_s_mutex_frame L pg3) as (_ & _ & _ & Hah4 & (Hns4 & _) & _).
  rewrite (ro_result _ _ _ _ _ _ _ _ Hround).
  split; [done|]. split; [by rewrite Hah4, Hna3, Hna2|]. split; [done|].
  by rewrite Hns4, Hns3, Hsh2.
Qed.

(** The action nodes that were there before the round are as they
    were. *)
Lemma round_a_frame i :
  i < next_addr (a_heap pg) → deref (a_heap pg') i = deref (a_heap pg) i.
Proof.
  intros Hi.
  destruct round_action as (_ & _ & _ & _ & _ & [_ HfA] & _).
  destruct (update_a_mutex_frame A pg1) as (_ & _ & _ & _ & (_ & Hother2 & _) & _).
  destruct (update_s_mutex_frame L pg3) as (_ & _ & _ & Hah4 & _).
  destruct (ro_literal_heap _ _ _ _ _ _ _ _ Hround) as [Ha3 _].
  destruct (ro_action_heap _ _ _ _ _ _ _ _ Hround) as (Hold1 & _).
  rewrite (ro_result _ _ _ _ _ _ _ _ Hround), Hah4, Ha3.
  rewrite filter_none, with_children_nil.
  - rewrite Hother2; [by apply Hold1|].
    intros (a & -> & Ha)%list_elem_of_fmap. destruct (HfA a Ha). lia.
  - intros p [Hp _]%elem_of_effect_pairs Heq. destruct (HfA _ Hp). lia.
Qed.

(** The literal nodes that were there before the round have the parents
    and the mutex set they had. *)
Lemma round_s_frame i :
  i < next_addr (s_heap pg) →
  parents (deref (s_heap pg') i) = parents (deref (s_heap pg) i) ∧
  mutex (deref (s_heap pg') i) = mutex (deref (s_heap pg) i).
Proof.
  intros Hi.
  destruct round_action as (_ & _ & (_ & Hmold & _) & _ & _ & _ & [_ HfE] & _).
  destruct (ro_action_links _ _ _ _ _ _ _ _ Hround) as ((_ & Hpold & _) & _).
  destruct (update_a_mutex_frame A pg1) as (_ & _ & _ & Hsh2 & _).
  destruct (update_s_mutex_frame L pg3) as (_ & _ & _ & _ & (_ & Hother4 & _) & _).
  destruct (ro_literal_heap _ _ _ _ _ _ _ _ Hround) as [_ Hs3].
  rewrite (ro_result _ _ _ _ _ _ _ _ Hround).
  rewrite Hother4.
  2:{ intros (x & -> & Hx)%list_elem_of_fmap.
      destruct (round_L_producer x Hx) as (a & Ha & He).
      destruct (HfE x); [|lia]. apply list_elem_of_bind. eauto. }
  rewrite Hs3, filter_none, with_parents_nil, Hsh2.
  - by rewrite Hpold, Hmold.
  - intros p [Hp He]%elem_of_effect_pairs Heq.
    destruct (HfE p.2); [|lia]. apply list_elem_of_bind. eauto.
Qed.

(** A node of the new action level: its children are its effect nodes,
    its parents are nodes for its preconditions, and its mutex set is the
    one that [update_a_mutex] left. *)
Lemma round_new_action a :
  a ∈ A →
  children (deref (a_heap pg') (addr a)) = effnodes a ∧
  py_key <$> parents (deref (a_heap pg') (addr a)) = pre_keys (action a) ∧
  parents (deref (a_heap pg') (addr a)) = parents (deref (a_heap pg1) (addr a)) ∧
  mutex (deref (a_heap pg') (addr a)) =
    mutex (deref (a_heap (update_a_mutex A pg1)) (addr a)).
Proof.
  intros Ha.
  destruct round_action as (_ & _ & _ & _ & _ & [HndA HfA] & _ & Hper & _).
  destruct (update_a_mutex_frame A pg1) as (_ & _ & _ & _ & (_ & _ & Hpc2) & _).
  destruct (update_s_mutex_frame L pg3) as (_ & _ & _ & Hah4 & _).
  destruct (ro_literal_heap _ _ _ _ _ _ _ _ Hround) as [Ha3 _].
  destruct (ro_action_heap _ _ _ _ _ _ _ _ Hround) as (_ & Hnew1 & Hpar1).
  destruct (Hpc2 (addr a)) as [Hp2 Hc2].
  rewrite (ro_result _ _ _ _ _ _ _ _ Hround), Hah4, Ha3.
  cbn [parents children mutex with_children].
  rewrite effect_pairs_children by done.
  rewrite Hc2, Hnew1 by by apply HfA.
  rewrite Hp2. split; [|split; [|done]].
  - apply set_update_nil. destruct (Hper a Ha) as [_ ->]. apply eff_keys_NoDup.
  - apply (Hpar1 A); [|done].
    rewrite (ro_a_level _ _ _ _ _ _ _ _ Hround). apply last_snoc.
Qed.

(** An effect node of a node of the new action level has this node as
    its only parent. *)
Lemma round_new_literal a e :
  a ∈ A → e ∈ effnodes a → parents (deref (s_heap pg') (addr e)) = [a].
Proof.
  intros Ha He.
  assert (e ∈ A ≫= effnodes) as HeA by (apply list_elem_of_bind; eauto).
  destruct round_action as (_ & _ & _ & _ & _ & _ & [HndE HfE] & _).
  destruct (ro_action_links _ _ _ _ _ _ _ _ Hround) as ((_ & _ & Hpnew) & _).
  destruct (update_a_mutex_frame A pg1) as (_ & _ & _ & Hsh2 & _).
  destruct (update_s_mutex_frame L pg3) as (_ & _ & _ & _ & (_ & _ & Hpc4) & _).
  destruct (ro_literal_heap _ _ _ _ _ _ _ _ Hround) as [_ Hs3].
  destruct (Hpc4 (addr e)) as [Hp4 _].
  rewrite (ro_result _ _ _ _ _ _ _ _ Hround), Hp4, Hs3.
  cbn [parents with_parents].
  rewrite (effect_pairs_parents A a e) by done.
  rewrite Hsh2, Hpnew by by apply HfE. done.
Qed.
(** The mutex passes and [add_literal_level] leave the children of the
    literal nodes as [add_action_level] made them. *)
Lemma round_s_children i :
  children (deref (s_heap pg') i) = children (deref (s_heap pg1) i).
Proof.
  destruct (update_a_mutex_frame A pg1) as (_ & _ & _ & Hsh2 & _).
  destruct (update_s_mutex_frame L pg3) as (_ & _ & _ & _ & (_ & _ & Hpc4) & _).
  destruct (ro_literal_heap _ _ _ _ _ _ _ _ Hround) as [_ Hs3].
  destruct (Hpc4 i) as [_ Hc4].
  rewrite (ro_result _ _ _ _ _ _ _ _ Hround), Hc4, Hs3.
  cbn [children with_parents]. by rewrite Hsh2.
Qed.
End round_facts.

(** ** When [create_graph] raises *)

Lemma level_loop_no_raise fuel : ∀ level pg e pg',
  graph_ok pg → length (a_levels pg) = level → length (s_levels pg) = S level →
  level_loop fuel level pg ≠ Raised e pg'.
Proof.
  induction fuel as [|fuel IH]; intros level pg e pg' Hok Hla Hls; [done|].
  cbn [level_loop].
  destruct (level_round_steps level pg Hok Hla Hls)
    as (prev & A & L & pg1 & pg3 & pg4 & _ & Hok4 & _ & Ha4 & Hs4 & _ & Heq).
  rewrite Heq. destruct (set_eq L prev); [done|].
  apply IH; [done|..].
  - rewrite Ha4, length_app. simpl. lia.
  - rewrite Hs4, length_app. simpl. lia.
Qed.

(** X8: [create_graph] raises exactly when the graph has a literal level
    or an action level already; on a graph without levels neither the guard
    nor any of the index accesses of the construction fails, whatever the
    actions and the state are. *)
Theorem create_graph_raises_iff fuel pg :
  (∃ e pg', create_graph fuel pg = Raised e pg') ↔
  s_levels pg ≠ [] ∨ a_levels pg ≠ [].
Proof.
  split.
  - intros (e & pg' & Hrun).
    destruct (s_levels pg) as [|? ?] eqn:Hs; [|by left].
    destruct (a_levels pg) as [|? ?] eqn:Ha; [|by right].
    exfalso.
    destruct (initial_level_spec fuel pg Hs Ha)
      as (pg1 & L0 & Heq & _ & Ha1 & Hs1 & Hok1 & _).
    rewrite Heq in Hrun. revert Hrun. apply level_loop_no_raise; [done|..].
    + by rewrite Ha1.
    + by rewrite Hs1.
  - intros Hlevels. exists (Exception already_created), pg.
    apply create_graph_guard.
    destruct Hlevels as [Hs|Ha]; [left|right]; by destruct (s_levels pg), (a_levels pg).
Qed.

(** ** The shape of a built graph *)

Lemma level_loop_leveled fuel : ∀ level pg pg',
  graph_ok pg → length (a_levels pg) = level → length (s_levels pg) = S level →
  level_loop fuel level pg = Returned pg' →
  ∃ Ls prev L, s_levels pg' = Ls ++ [prev; L] ∧ set_eq L prev = true ∧
               length (a_levels pg') = S (length Ls).
Proof.
  induction fuel as [|fuel IH]; intros level pg pg' Hok Hla Hls Hrun; [done|].
  cbn [level_loop] in Hrun.
  destruct (level_round_steps level pg Hok Hla Hls)
    as (prev & A & L & pg1 & pg3 & pg4 & Hround & Hok4 & _ & Ha4 & Hs4 & _ & Heq).
  rewrite Heq in Hrun. destruct (set_eq L prev) eqn:E.
  - injection Hrun as <-.
    exists (take level (s_levels pg)), prev, L. split; [|split; [done|]].
    + rewrite Hs4. rewrite (cons_middle prev), app_assoc. f_equal.
      rewrite <- (take_drop_middle (s_levels pg) level prev) at 1
        by apply (ro_prev _ _ _ _ _ _ _ _ Hround).
      rewrite drop_ge by lia. done.
    + rewrite Ha4, length_app, length_take. simpl. lia.
  - apply (IH (level + 1) pg4); [done| | |done].
    + rewrite Ha4, length_app. simpl. lia.
    + rewrite Hs4, length_app. simpl. lia.
Qed.

(** X9: a graph that the constructor returned is leveled: it has one
    literal level more than action levels, at least one action level, and
    its last two literal levels are equal as sets of literals. *)
Theorem built_graph_is_leveled pb state serial_planning fuel pg :
  PlanningGraph_init pb state serial_planning fuel = Returned pg →
  length (s_levels pg) = S (length (a_levels pg)) ∧
  ∃ Ls prev L, s_levels pg = Ls ++ [prev; L] ∧ set_eq L prev = true.
Proof.
  unfold PlanningGraph_init.
  destruct (decode_state state (state_map pb)) as [fs0|]; [|done].
  destruct (initial_level_steps pb fs0 serial_planning fuel)
    as (pg0 & L0 & -> & Hini & Hok0 & _).
  destruct (level_loop fuel 0 pg0) as [pg1| |] eqn:Hrun; [|done..].
  cbn [and_then]. intros [= <-]. cbn [s_levels a_levels with_goal_states with_s_heap].
  destruct (level_loop_leveled fuel 0 pg0 pg1) as (Ls & prev & L & Hs & Heq & Hlen);
    [done| | |done|].
  - by rewrite (io_a_levels _ _ _ _ _ Hini).
  - by rewrite (io_s_levels _ _ _ _ _ Hini).
  - split; [|eauto]. rewrite Hs, Hlen, length_app. simpl. lia.
Qed.

Lemma built_graph_is_leveled_witness :
  PlanningGraph_init two_adds "FF" true 2 =
    Returned (returned (PlanningGraph_init two_adds "FF" true 2)) ∧
  length (s_levels (returned (PlanningGraph_init two_adds "FF" true 2))) =
    S (length (a_levels (returned (PlanningGraph_init two_adds "FF" true 2)))) ∧
  ∃ Ls prev L,
    s_levels (returned (PlanningGraph_init two_adds "FF" true 2)) = Ls ++ [prev; L] ∧
    set_eq L prev = true.
Proof.
  split; [vm_compute; reflexivity|].
  apply (built_graph_is_leveled two_adds "FF" true 2).
  vm_compute. reflexivity.
Defined.

(** ** The initial literal level *)

Lemma graph_ok_s_bound pg L x :
  graph_ok pg → L ∈ s_levels pg → x ∈ L → addr x < next_addr (s_heap pg).
Proof. intros [Hs _] HL Hx. destruct (Hs L HL) as [_ Hb]. by apply Hb. Qed.

Lemma graph_ok_a_bound pg A a :
  graph_ok pg → A ∈ a_levels pg → a ∈ A → addr a < next_addr (a_heap pg).
Proof. intros [_ Ha] HA Hx. destruct (Ha A HA) as [_ Hb]. by apply Hb. Qed.

Lemma initial_level_clean_built pb state serial_planning fuel pg :
  PlanningGraph_init pb state serial_planning fuel = Returned pg →
  decode_state state (state_map pb) = Some (fs pg) ∧ initial_level_clean pg.
Proof.
  apply (PlanningGraph_init_inv
           (λ pg, decode_state state (state_map pb) = Some (fs pg) ∧
                  initial_level_clean pg)).
  - intros fs0 L0 pg0 Hdec Hini _. split.
    + by rewrite (io_fs _ _ _ _ _ Hini).
    + exists L0. rewrite (io_s_levels _ _ _ _ _ Hini), (io_fs _ _ _ _ _ Hini).
      split; [done|]. split; [apply (io_keys _ _ _ _ _ Hini)|].
      intros n _. by rewrite (io_s_heap _ _ _ _ _ Hini).
  - intros level pg0 prev A L pg1 pg3 pg' Hok _ _ Hla Hls Hround
      [Hdec (L0 & HL0 & Hkeys & Hclean)].
    destruct (round_levels Hround) as (_ & Hs' & (_ & Hfs & _)).
    split; [by rewrite Hfs|].
    exists L0. rewrite Hs', Hfs. split; [|split; [done|]].
    + apply lookup_app_l_Some. done.
    + intros n Hn.
      destruct (round_s_frame Hround (addr n)) as [-> ->]; [|by apply Hclean].
      eapply graph_ok_s_bound; [done| |done]. by eapply lookup_elem_of.
  - intros pg1 sh gs Hok [Hdec (L0 & HL0 & Hkeys & Hclean)] (_ & Hold & _).
    split; [done|]. exists L0. split; [done|]. split; [done|].
    intros n Hn. cbn [s_heap with_goal_states with_s_heap].
    rewrite Hold; [by apply Hclean|].
    eapply graph_ok_s_bound; [done| |done]. by eapply lookup_elem_of.
Qed.

Lemma elem_of_state_keys (fs0 : FluentState) (s : string) (b : bool) :
  (s, b) ∈ set_update (set_update [] (lits true (pos fs0))) (lits false (neg fs0)) ↔
  (if b then s ∈ pos fs0 else s ∈ neg fs0).
Proof.
  rewrite !lit_elem_of_set_update, !elem_of_lits, elem_of_nil. simpl.
  destruct b; intuition congruence.
Qed.

(** X10: the initial literal level of a built graph holds exactly the
    literals of the decoded state, each once: the fluents of [fs.pos] as
    positive and those of [fs.neg] as negative literals.  Its nodes have no
    parents, and no node of it is ever marked mutex. *)
Theorem initial_level_is_the_state pb state serial_planning fuel pg :
  PlanningGraph_init pb state serial_planning fuel = Returned pg →
  decode_state state (state_map pb) = Some (fs pg) ∧
  ∃ L0, s_levels pg !! 0 = Some L0 ∧
    NoDup (s_key <$> L0) ∧
    (∀ (s : string) (b : bool),
       (s, b) ∈ s_key <$> L0 ↔ (if b then s ∈ pos (fs pg) else s ∈ neg (fs pg))) ∧
    ∀ n, n ∈ L0 →
      parents (deref (s_heap pg) (addr n)) = [] ∧
      mutex (deref (s_heap pg) (addr n)) = [].
Proof.
  intros Hrun.
  destruct (initial_level_clean_built _ _ _ _ _ Hrun) as [Hdec (L0 & HL0 & Hkeys & Hclean)].
  split; [done|]. exists L0. split; [done|].
  change (s_key <$> L0) with (py_key <$> L0). rewrite Hkeys.
  split; [do 2 apply lit_set_update_NoDup; constructor|].
  split; [apply elem_of_state_keys|done].
Qed.

Lemma initial_level_is_the_state_witness :
  PlanningGraph_init two_adds "FF" true 2 =
    Returned (returned (PlanningGraph_init two_adds "FF" true 2)) ∧
  ∃ L0, s_levels (returned (PlanningGraph_init two_adds "FF" true 2)) !! 0 = Some L0 ∧
    ∀ n, n ∈ L0 →
      parents (deref (s_heap (returned (PlanningGraph_init two_adds "FF" true 2)))
                 (addr n)) = [] ∧
      mutex (deref (s_heap (returned (PlanningGraph_init two_adds "FF" true 2)))
               (addr n)) = [].
Proof.
  split; [vm_compute; reflexivity|].
  destruct (initial_level_is_the_state two_adds "FF" true 2
              (returned (PlanningGraph_init two_adds "FF" true 2)))
    as (_ & L0 & HL0 & _ & _ & Hclean).
  - vm_compute. reflexivity.
  - exists L0. split; [exact HL0|exact Hclean].
Defined.

(** ** The members of the levels *)

Lemma levels_linked_round level pg prev A L pg1 pg3 pg' :
  length (a_levels pg) = level → length (s_levels pg) = S level →
  round_of level pg prev A L pg1 pg3 pg' →
  levels_linked pg → levels_linked pg'.
Proof.
  intros Hla Hls Hround [Hshape Hall].
  destruct (round_levels Hround) as (Ha' & Hs' & (_ & _ & _ & Hacts & _)).
  destruct (round_action Hround) as (_ & _ & _ & _ & HndA & _ & _ & Hper & Hact).
  split.
  - rewrite Ha', Hs', !length_app. simpl. lia.
  - intros i prev' A' L' Hprev' HA' HL'. rewrite Hacts.
    rewrite Ha' in HA'. rewrite Hs' in Hprev', HL'.
    destruct (decide (i < level)) as [Hlt|Hge].
    + rewrite lookup_app_l in HA' by lia.
      rewrite lookup_app_l in Hprev' by lia.
      rewrite lookup_app_l in HL' by lia.
      by apply (Hall i).
    + assert (i = level) as ->.
      { apply lookup_lt_Some in HA'. rewrite length_app in HA'. simpl in HA'. lia. }
      rewrite <- Hla, snoc_lookup_length in HA'. injection HA' as <-.
      rewrite lookup_app_l in Hprev' by lia.
      rewrite (ro_prev _ _ _ _ _ _ _ _ Hround) in Hprev'. injection Hprev' as <-.
      rewrite <- Hls, snoc_lookup_length in HL'. injection HL' as <-.
      split; [done|]. split; [done|]. split; [done|].
      apply (ro_L _ _ _ _ _ _ _ _ Hround).
Qed.

Lemma levels_linked_built pb state serial_planning fuel pg :
  PlanningGraph_init pb state serial_planning fuel = Returned pg →
  levels_linked pg ∧
  all_actions pg = actions_list pb ++ noop_actions (state_map pb).
Proof.
  apply (PlanningGraph_init_inv
           (λ pg, levels_linked pg ∧
                  all_actions pg = actions_list pb ++ noop_actions (state_map pb))).
  - intros fs0 L0 pg0 _ Hini _. split; [|apply (io_actions _ _ _ _ _ Hini)].
    split.
    + by rewrite (io_s_levels _ _ _ _ _ Hini), (io_a_levels _ _ _ _ _ Hini).
    + intros i prev A L _. by rewrite (io_a_levels _ _ _ _ _ Hini).
  - intros level pg0 prev A L pg1 pg3 pg' _ _ _ Hla Hls Hround [Hlinked Hacts].
    split; [by eapply levels_linked_round|].
    destruct (round_levels Hround) as (_ & _ & (_ & _ & _ & -> & _)). done.
  - intros pg1 sh gs _ [Hlinked Hacts] _. done.
Qed.

Lemma next_actions_covers acts ks act :
  act ∈ acts → enabled ks act = true → set_in act (next_actions acts ks) = true.
Proof.
  intros Hact Hen. unfold next_actions.
  assert (∀ L, set_in act L = true ∨ act ∈ acts →
            set_in act (fold_left (λ L a, if enabled ks a then set_add a L else L)
                          acts L) = true) as Hgen.
  { clear Hact. induction acts as [|x rest IH]; intros L Hin; cbn [fold_left].
    - destruct Hin as [?|[]%elem_of_nil]. done.
    - apply IH. destruct Hin as [Hin|[->|Hin]%elem_of_cons].
      + left. destruct (enabled ks x); [by apply set_in_set_add_mono|done].
      + left. rewrite Hen. apply set_in_set_add_same.
      + by right. }
  apply Hgen. by right.
Qed.

Lemma enabled_true ks act :
  enabled ks act = true ↔
  (∀ p, p ∈ precond_pos act → (p, true) ∈ ks) ∧
  (∀ p, p ∈ precond_neg act → (p, false) ∈ ks).
Proof.
  rewrite enabled_spec. split.
  - intros Hall. split; intros p Hp; apply Hall, elem_of_pre_keys;
      [left|right]; by apply elem_of_lits.
  - intros [Hpos Hneg] [p b] [Hx|Hx]%elem_of_pre_keys;
      apply elem_of_lits in Hx as [Hb Hp]; simpl in *; subst; auto.
Qed.

Lemma a_level_keys (A : list PgNode_a) :
  (∀ a, a ∈ A → is_persistent a = persistent (action a) ∧
                 py_key <$> effnodes a = eff_keys (action a)) →
  py_key <$> A = py_key <$> (action <$> A).
Proof.
  intros Hper. rewrite <- list_fmap_compose. apply list_fmap_ext.
  intros i a Hi. simpl. unfold py_key, PgNode_a_key, Action_key, a_key, act_key.
  destruct (Hper a) as [-> _]; [by eapply lookup_elem_of|done].
Qed.

(** X11: an action level of a built graph holds the actions that the
    literal level before it enables.  Every node of the level is the node
    of a ground action or of a no-op all of whose preconditions are
    literals of that literal level; and for every such action the level
    holds a node equal to the node of the action. *)
Theorem action_level_members pb state serial_planning fuel pg :
  PlanningGraph_init pb state serial_planning fuel = Returned pg →
  ∀ i prev A, s_levels pg !! i = Some prev → a_levels pg !! i = Some A →
    (∀ a, a ∈ A →
       action a ∈ actions_list pb ++ noop_actions (state_map pb) ∧
       (∀ p, p ∈ precond_pos (action a) → (p, true) ∈ s_key <$> prev) ∧
       (∀ p, p ∈ precond_neg (action a) → (p, false) ∈ s_key <$> prev)) ∧
    (∀ act sh ah,
       act ∈ actions_list pb ++ noop_actions (state_map pb) →
       (∀ p, p ∈ precond_pos act → (p, true) ∈ s_key <$> prev) →
       (∀ p, p ∈ precond_neg act → (p, false) ∈ s_key <$> prev) →
       set_in (PgNode_a_init act sh ah).1.1 A = true).
Proof.
  intros Hrun i prev A Hprev HA.
  destruct (levels_linked_built _ _ _ _ _ Hrun) as [[Hshape Hall] Hacts].
  destruct (lookup_lt_is_Some_2 (s_levels pg) (S i)) as [L HL].
  { apply lookup_lt_Some in HA. lia. }
  destruct (Hall i prev A L Hprev HA HL) as (HndA & Hact & Hper & _).
  rewrite Hacts in Hact. split.
  - intros a Ha.
    assert (action a ∈ action <$> A) as Hin by (apply list_elem_of_fmap; eauto).
    rewrite Hact in Hin. apply next_actions_sound in Hin as [Hin Hen].
    split; [done|]. by apply enabled_true.
  - intros act sh ah Hin Hpos Hneg.
    apply set_in_key. rewrite (a_level_keys A Hper), Hact.
    assert (py_key (PgNode_a_init act sh ah).1.1 = py_key act) as ->.
    { destruct (PgNode_a_init_spec act sh ah) as (_ & _ & _ & _ & Ha & Hp & _).
      unfold py_key, PgNode_a_key, Action_key, a_key, act_key. by rewrite Ha, Hp. }
    apply set_in_key, next_actions_covers; [done|]. by apply enabled_true.
Qed.

Lemma action_level_members_witness :
  PlanningGraph_init two_adds "FF" true 2 =
    Returned (returned (PlanningGraph_init two_adds "FF" true 2)) ∧
  ∀ sh ah,
    set_in (PgNode_a_init (mkAction "A1" [] [] [] ["P"] []) sh ah).1.1
      (default [] (a_levels (returned (PlanningGraph_init two_adds "FF" true 2)) !! 0)) =
    true.
Proof.
  split; [vm_compute; reflexivity|].
  intros sh ah.
  destruct (action_level_members two_adds "FF" true 2
              (returned (PlanningGraph_init two_adds "FF" true 2))
              ltac:(vm_compute; reflexivity) 0
              (default [] (s_levels (returned (PlanningGraph_init two_adds "FF" true 2)) !! 0))
              (default [] (a_levels (returned (PlanningGraph_init two_adds "FF" true 2)) !! 0)))
    as [_ Hcover].
  - vm_compute. reflexivity.
  - vm_compute. reflexivity.
  - apply Hcover.
    + vm_compute. left.
    + intros p []%elem_of_nil.
    + intros p []%elem_of_nil.
Defined.

(** X12: a literal level of a built graph after the initial one is the
    set of the effects of the action level before it: its nodes are effect
    nodes of nodes of that action level, it holds a literal exactly when
    some node of the action level has it as an add effect (positive) or as
    a delete effect (negative), and it holds no literal twice. *)
Theorem literal_level_members pb state serial_planning fuel pg :
  PlanningGraph_init pb state serial_planning fuel = Returned pg →
  ∀ i A L, a_levels pg !! i = Some A → s_levels pg !! S i = Some L →
    NoDup (s_key <$> L) ∧
    (∀ x, x ∈ L → ∃ a, a ∈ A ∧ x ∈ effnodes a) ∧
    (∀ (s : string) (b : bool),
       (s, b) ∈ s_key <$> L ↔
       ∃ a, a ∈ A ∧ (if b then s ∈ effect_add (action a)
                     else s ∈ effect_rem (action a))).
Proof.
  intros Hrun i A L HA HL.
  destruct (levels_linked_built _ _ _ _ _ Hrun) as [[Hshape Hall] _].
  destruct (lookup_lt_is_Some_2 (s_levels pg) i) as [prev Hprev].
  { apply lookup_lt_Some in HL. lia. }
  destruct (Hall i prev A L Hprev HA HL) as (_ & _ & Hper & ->).
  change (s_key <$> set_update [] (A ≫= effnodes)) with
    (py_key <$> set_update [] (A ≫= effnodes)).
  split; [apply set_update_NoDup_key; constructor|]. split.
  - intros x Hx. apply elem_of_set_update in Hx as [[]%elem_of_nil|Hx].
    apply list_elem_of_bind in Hx as (a & ? & ?). eauto.
  - intros s b. rewrite (set_update_fmap literal_key_id), lit_elem_of_set_update.
    rewrite effnodes_keys by done. rewrite list_elem_of_bind. split.
    + intros [[]%elem_of_nil|(act & Hx & (a & -> & Ha)%list_elem_of_fmap)].
      exists a. split; [done|].
      apply elem_of_eff_keys in Hx. rewrite !elem_of_lits in Hx. simpl in Hx.
      destruct b; intuition congruence.
    + intros (a & Ha & Hx). right. exists (action a).
      split; [|apply list_elem_of_fmap; eauto].
      apply elem_of_eff_keys. rewrite !elem_of_lits. simpl.
      destruct b; auto.
Qed.

Lemma literal_level_members_witness :
  PlanningGraph_init two_adds "FF" true 2 =
    Returned (returned (PlanningGraph_init two_adds "FF" true 2)) ∧
  NoDup (s_key <$>
           default [] (s_levels (returned (PlanningGraph_init two_adds "FF" true 2)) !! 1)).
Proof.
  split; [vm_compute; reflexivity|].
  apply (literal_level_members two_adds "FF" true 2
           (returned (PlanningGraph_init two_adds "FF" true 2))
           ltac:(vm_compute; reflexivity) 0
           (default [] (a_levels (returned (PlanningGraph_init two_adds "FF" true 2)) !! 0))).
  - vm_compute. reflexivity.
  - vm_compute. reflexivity.
Defined.

(** ** The mutex marks of a built graph *)

Lemma is_mutex_frame {P M} `{PyEq M} `{HasAddr M} (st st' : Store P M) (a b : M) :
  mutex (deref st' (addr a)) = mutex (deref st (addr a)) →
  is_mutex st' a b = is_mutex st a b.
Proof. unfold is_mutex. by intros ->. Qed.

Lemma negation_marked_built pb state serial_planning fuel pg :
  PlanningGraph_init pb state serial_planning fuel = Returned pg →
  ∀ i L n1 n2, s_levels pg !! S i = Some L → n1 ∈ L → n2 ∈ L →
    negation_mutex n1 n2 = true → is_mutex (s_heap pg) n1 n2 = true.
Proof.
  apply (PlanningGraph_init_inv
           (λ pg, ∀ i L n1 n2, s_levels pg !! S i = Some L → n1 ∈ L → n2 ∈ L →
                    negation_mutex n1 n2 = true → is_mutex (s_heap pg) n1 n2 = true)).
  - intros fs0 L0 pg0 _ Hini _ i L n1 n2.
    by rewrite (io_s_levels _ _ _ _ _ Hini).
  - intros level pg0 prev A L pg1 pg3 pg' Hok _ _ Hla Hls Hround HJ i L' n1 n2 HL' Hn1 Hn2 Hneg.
    destruct (round_levels Hround) as (_ & Hs' & _).
    rewrite Hs' in HL'. destruct (decide (S i < S level)) as [Hlt|Hge].
    + rewrite lookup_app_l in HL' by lia.
      rewrite (is_mutex_frame (s_heap pg0)); [by eapply HJ|].
      apply (round_s_frame Hround).
      eapply graph_ok_s_bound; [done| |done]. by eapply lookup_elem_of.
    + assert (S i = S level) as Hi.
      { apply lookup_lt_Some in HL'. rewrite length_app in HL'. simpl in HL'. lia. }
      rewrite Hi, <- Hls, snoc_lookup_length in HL'. injection HL' as <-.
      apply list_elem_of_lookup in Hn1 as [k1 Hk1].
      apply list_elem_of_lookup in Hn2 as [k2 Hk2].
      rewrite (ro_result _ _ _ _ _ _ _ _ Hround).
      by apply (update_s_mutex_negation L pg3 k1 k2 n1 n2).
  - intros pg1 sh gs Hok HJ (_ & Hold & _) i L n1 n2 HL Hn1 Hn2 Hneg.
    cbn [s_levels s_heap with_goal_states with_s_heap] in *.
    rewrite (is_mutex_frame (s_heap pg1)); [by eapply HJ|].
    rewrite Hold; [done|].
    eapply graph_ok_s_bound; [done| |done]. by eapply lookup_elem_of.
Qed.

(** X13: in every literal level of a built graph after the initial one,
    two nodes that are the two polarities of one symbol are mutex. *)
Theorem complementary_literals_are_mutex pb state serial_planning fuel pg :
  PlanningGraph_init pb state serial_planning fuel = Returned pg →
  ∀ i L n1 n2, s_levels pg !! S i = Some L → n1 ∈ L → n2 ∈ L →
    symbol n1 = symbol n2 → is_pos n1 ≠ is_pos n2 →
    is_mutex (s_heap pg) n1 n2 = true.
Proof.
  intros Hrun i L n1 n2 HL Hn1 Hn2 Hsym Hpol.
  apply (negation_marked_built _ _ _ _ _ Hrun i L); [done..|].
  by apply negation_mutex_true.
Qed.

Lemma complementary_literals_are_mutex_witness :
  is_mutex (s_heap two_adds_graph) (s_node two_adds_graph 1 0) (s_node two_adds_graph 1 2) =
    true.
Proof.
  apply (complementary_literals_are_mutex two_adds "FF" true 2 two_adds_graph
           ltac:(vm_compute; reflexivity) 0 (s_level two_adds_graph 1)).
  - vm_compute. reflexivity.
  - apply (lookup_elem_of _ 0). vm_compute. reflexivity.
  - apply (lookup_elem_of _ 2). vm_compute. reflexivity.
  - vm_compute. reflexivity.
  - vm_compute. discriminate.
Defined.

Lemma static_a_test_serial pg pg' n1 n2 :
  serial pg' = serial pg → static_a_test pg' n1 n2 = static_a_test pg n1 n2.
Proof. intros Hser. unfold static_a_test, serialize_actions. by rewrite Hser. Qed.

Lemma competing_needs_false pg n1 n2 :
  (∀ p, p ∈ parents (deref (a_heap pg) (addr n2)) →
        mutex (deref (s_heap pg) (addr p)) = []) →
  competing_needs_mutex pg n1 n2 = false.
Proof.
  intros Hempty. unfold competing_needs_mutex.
  apply not_true_is_false. rewrite existsb_exists.
  intros (p1 & _ & Hex). apply existsb_exists in Hex as (p2 & Hp2 & Hmut).
  apply list_elem_of_In in Hp2. unfold is_mutex in Hmut.
  by rewrite (Hempty p2 Hp2) in Hmut.
Qed.

(** On a level of new nodes whose parents are unmarked, [update_a_mutex]
    marks a pair exactly when one of the three tests on the actions answers
    true. *)
Lemma update_a_mutex_exact A pg1 :
  NoDup (py_key <$> A) → NoDup (addr <$> A) →
  (∀ a, a ∈ A → mutex (deref (a_heap pg1) (addr a)) = []) →
  (∀ a p, a ∈ A → p ∈ parents (deref (a_heap pg1) (addr a)) →
     mutex (deref (s_heap pg1) (addr p)) = []) →
  ∀ n1 n2, n1 ∈ A → n2 ∈ A → n1 ≠ n2 →
    is_mutex (a_heap (update_a_mutex A pg1)) n1 n2 = static_a_test pg1 n1 n2.
Proof.
  intros Hkey Haddr Hempty Hpar.
  assert (serial (update_a_mutex A pg1) = serial pg1 ∧
          s_heap (update_a_mutex A pg1) = s_heap pg1 ∧
          (∀ i, parents (deref (a_heap (update_a_mutex A pg1)) i) =
                parents (deref (a_heap pg1) i)) ∧
          (∀ x m, x ∈ A → m ∈ mutex (deref (a_heap (update_a_mutex A pg1)) (addr x)) →
             m ∈ A ∧ static_a_test pg1 x m = true)) as (_ & _ & _ & Hsound).
  { unfold update_a_mutex.
    apply (update_mutex_pairs a_mutex_test mutexify_a
      (λ pg', serial pg' = serial pg1 ∧ s_heap pg' = s_heap pg1 ∧
              (∀ i, parents (deref (a_heap pg') i) = parents (deref (a_heap pg1) i)) ∧
              (∀ x m, x ∈ A → m ∈ mutex (deref (a_heap pg') (addr x)) →
                 m ∈ A ∧ static_a_test pg1 x m = true))).
    - split; [done|]. split; [done|]. split; [done|].
      intros x m Hx Hm. rewrite Hempty in Hm by done. by apply elem_of_nil in Hm.
    - intros pg' i j n1 n2 (Hser & Hsh & Hp & Hm) Hi Hj Hlt Htest.
      assert (n1 ∈ A) as Hn1 by by eapply lookup_elem_of.
      assert (n2 ∈ A) as Hn2 by by eapply lookup_elem_of.
      assert (static_a_test pg1 n1 n2 = true) as Hstatic.
      { rewrite a_mutex_test_static in Htest.
        rewrite (competing_needs_false pg' n1 n2), orb_false_r in Htest.
        - by rewrite <- (static_a_test_serial pg1 pg').
        - intros p Hin. rewrite Hp in Hin. rewrite Hsh. by eapply Hpar. }
      assert (addr n1 ≠ addr n2) as Hne.
      { intros Heq. assert (i = j); [|lia].
        eapply NoDup_lookup; [exact Haddr| |]; rewrite list_lookup_fmap.
        - by rewrite Hi.
        - rewrite Hj. simpl. by rewrite Heq. }
      split; [done|]. split; [done|].
      cbn [a_heap mutexify_a with_a_heap]. split.
      + intros k. by rewrite mutexify_parents.
      + intros x m Hx Hin. rewrite mutexify_mutex in Hin by done.
        destruct (decide (addr n1 = addr x)) as [E1|E1].
        { assert (x = n1) as -> by (symmetry; by eapply NoDup_addr_inj).
          apply elem_of_set_add in Hin as [Hin|[_ ->]]; [by apply Hm|done]. }
        destruct (decide (addr n2 = addr x)) as [E2|E2].
        { assert (x = n2) as -> by (symmetry; by eapply NoDup_addr_inj).
          apply elem_of_set_add in Hin as [Hin|[_ ->]]; [by apply Hm|].
          split; [done|]. by rewrite static_a_test_comm. }
        by apply Hm. }
  intros n1 n2 Hn1 Hn2 Hne. apply eq_true_iff_eq. split.
  - rewrite is_mutex_set_in, set_in_true. intros (m & Hm & Hk).
    destruct (Hsound n1 m Hn1 Hm) as [HmA Hstatic].
    by rewrite <- (NoDup_key_inj A m n2 Hkey HmA Hn2 Hk).
  - intros Hstatic.
    apply list_elem_of_lookup in Hn1 as [k1 Hk1].
    apply list_elem_of_lookup in Hn2 as [k2 Hk2].
    destruct (update_a_mutex_static A pg1 k1 k2 n1 n2 Hk1 Hk2) as [Hmut _];
      [intros ->; congruence|done|done].
Qed.

Lemma action_marks_built pb state serial_planning fuel pg :
  PlanningGraph_init pb state serial_planning fuel = Returned pg →
  ∀ A n1 n2, A ∈ a_levels pg → n1 ∈ A → n2 ∈ A → n1 ≠ n2 →
    is_mutex (a_heap pg) n1 n2 = static_a_test pg n1 n2.
Proof.
  apply (PlanningGraph_init_inv
           (λ pg, ∀ A n1 n2, A ∈ a_levels pg → n1 ∈ A → n2 ∈ A → n1 ≠ n2 →
                    is_mutex (a_heap pg) n1 n2 = static_a_test pg n1 n2)).
  - intros fs0 L0 pg0 _ Hini _ A n1 n2.
    rewrite (io_a_levels _ _ _ _ _ Hini). by intros []%elem_of_nil.
  - intros level pg0 prev A L pg1 pg3 pg' Hok _ _ Hla Hls Hround HJ A' n1 n2 HA' Hn1 Hn2 Hne.
    destruct (round_levels Hround) as (Ha' & _ & (_ & _ & Hser & _)).
    destruct (round_action Hround)
      as ((_ & _ & Hser1 & _) & _ & Hexts1 & Hexta1 & HndA & [HaddrA HfA] & _).
    rewrite Ha' in HA'. apply elem_of_app in HA' as [HA'|HA'].
    + rewrite (static_a_test_serial pg0 pg') by done.
      rewrite (is_mutex_frame (a_heap pg0)); [by eapply HJ|].
      rewrite (round_a_frame Hround); [done|]. by eapply graph_ok_a_bound.
    + apply list_elem_of_singleton in HA' as ->.
      rewrite (static_a_test_serial pg1 pg') by congruence.
      rewrite (is_mutex_frame (a_heap (update_a_mutex A pg1)))
        by by apply (round_new_action Hround).
      apply update_a_mutex_exact; try done.
      * intros a Ha. destruct Hexta1 as (_ & _ & Hnew).
        destruct (HfA a Ha). by apply Hnew.
      * intros a p Ha Hp.
        destruct (ro_action_links _ _ _ _ _ _ _ _ Hround) as (_ & _ & Hnewp).
        destruct (HfA a Ha) as [Hloa Hhia].
        destruct (Hnewp (addr a) p A) as (Hlo & Hhi & _);
          [by rewrite (ro_a_level _ _ _ _ _ _ _ _ Hround), last_snoc
          |done|done|done|].
        destruct Hexts1 as (_ & _ & Hnew). by apply Hnew.
  - intros pg1 sh gs _ HJ _. done.
Qed.

(** X14: in a built graph two different nodes of one action level are
    mutex exactly when one of the tests of [update_a_mutex] answers true on
    the finished graph; the competing-needs test never does, so they are
    mutex exactly when the graph is serial and neither is persistent, or
    their effects are inconsistent, or one interferes with the other. *)
Theorem action_marks_are_the_tests pb state serial_planning fuel pg :
  PlanningGraph_init pb state serial_planning fuel = Returned pg →
  ∀ A n1 n2, A ∈ a_levels pg → n1 ∈ A → n2 ∈ A → n1 ≠ n2 →
    is_mutex (a_heap pg) n1 n2 = a_mutex_test pg n1 n2 ∧
    a_mutex_test pg n1 n2 =
      serialize_actions pg n1 n2 || inconsistent_effects_mutex n1 n2 ||
      interference_mutex n1 n2.
Proof.
  intros Hrun A n1 n2 HA Hn1 Hn2 Hne.
  assert (competing_needs_mutex pg n1 n2 = false) as Hcn.
  { destruct (PlanningGraph_init_ok _ _ _ _ _ Hrun) as [Hok [_ Hpar]].
    apply competing_needs_false. intros p Hp.
    apply (Hpar (addr n2) p); [|done]. by eapply graph_ok_a_bound. }
  rewrite a_mutex_test_static, Hcn, orb_false_r. split; [|done].
  by apply (action_marks_built _ _ _ _ _ Hrun A).
Qed.

Lemma action_marks_are_the_tests_witness :
  is_mutex (a_heap two_adds_graph) (a_node two_adds_graph 1 0) (a_node two_adds_graph 1 1) =
    a_mutex_test two_adds_graph (a_node two_adds_graph 1 0) (a_node two_adds_graph 1 1) ∧
  a_mutex_test two_adds_graph (a_node two_adds_graph 1 0) (a_node two_adds_graph 1 1) =
    serialize_actions two_adds_graph (a_node two_adds_graph 1 0) (a_node two_adds_graph 1 1) ||
    inconsistent_effects_mutex (a_node two_adds_graph 1 0) (a_node two_adds_graph 1 1) ||
    interference_mutex (a_node two_adds_graph 1 0) (a_node two_adds_graph 1 1).
Proof.
  apply (action_marks_are_the_tests two_adds "FF" true 2 two_adds_graph
           ltac:(vm_compute; reflexivity) (a_level two_adds_graph 1)).
  - apply (lookup_elem_of _ 1). vm_compute. reflexivity.
  - apply (lookup_elem_of _ 0). vm_compute. reflexivity.
  - apply (lookup_elem_of _ 1). vm_compute. reflexivity.
  - vm_compute. discriminate.
Defined.

(** ** The links of a built graph *)

Lemma levels_wired_round level pg prev A L pg1 pg3 pg' :
  graph_ok pg → length (a_levels pg) = level → length (s_levels pg) = S level →
  round_of level pg prev A L pg1 pg3 pg' →
  levels_wired pg → levels_wired pg'.
Proof.
  intros Hok Hla Hls Hround [Hact Hlit].
  destruct (round_levels Hround) as (Ha' & Hs' & _).
  destruct (round_action Hround) as (_ & _ & _ & _ & _ & [_ HfA] & [_ HfE] & _).
  destruct (round_next_addr Hround) as (Hlea & Hna & Hles & Hns).
  split.
  - intros A' a HA' Ha. rewrite Ha' in HA'. apply elem_of_app in HA' as [HA'|HA'].
    + rewrite (round_a_frame Hround) by by eapply graph_ok_a_bound.
      destruct (Hact A' a HA' Ha) as (Hc & Hp & Hpar).
      split; [done|]. split; [done|].
      intros p Hin. destruct (Hpar p Hin) as [Hlt Hother].
      split; [lia|]. intros L' x HL' Hx. rewrite Hs' in HL'.
      apply elem_of_app in HL' as [HL'|HL']; [by eapply Hother|].
      apply list_elem_of_singleton in HL' as ->.
      destruct (round_L_producer Hround x Hx) as (a' & Hin' & He).
      destruct (HfE x); [apply list_elem_of_bind; eauto|]. lia.
    + apply list_elem_of_singleton in HA' as ->.
      destruct (round_new_action Hround a Ha) as (Hc & Hp & Hpeq & _).
      split; [done|]. split; [done|].
      intros p Hin. rewrite Hpeq in Hin.
      destruct (ro_action_links _ _ _ _ _ _ _ _ Hround) as (_ & _ & Hnewp).
      destruct (HfA a Ha) as [Hloa Hhia].
      destruct (Hnewp (addr a) p A) as (Hlo & Hhi & Hnot);
        [by rewrite (ro_a_level _ _ _ _ _ _ _ _ Hround), last_snoc|done|done|done|].
      split; [lia|]. intros L' x HL' Hx. rewrite Hs' in HL'.
      apply elem_of_app in HL' as [HL'|HL'].
      * assert (addr x < next_addr (s_heap pg)) by by eapply graph_ok_s_bound. lia.
      * apply list_elem_of_singleton in HL' as ->. intros Heq. apply Hnot.
        rewrite <- Heq. apply list_elem_of_fmap. exists x. split; [done|].
        eapply elem_of_sublist; [done|apply (round_L_sublist Hround)].
  - intros i A' L' x HA' HL' Hx. rewrite Ha' in HA'. rewrite Hs' in HL'.
    destruct (decide (i < level)) as [Hlt|Hge].
    + rewrite lookup_app_l in HA' by lia. rewrite lookup_app_l in HL' by lia.
      destruct (Hlit i A' L' x HA' HL' Hx) as (a & Ha & He & Hp).
      exists a. split; [done|]. split; [done|].
      destruct (round_s_frame Hround (addr x)) as [-> _]; [|done].
      apply (graph_ok_s_bound pg L' x Hok); [|done].
      exact (lookup_elem_of _ _ _ HL').
    + assert (i = level) as ->.
      { apply lookup_lt_Some in HA'. rewrite length_app in HA'. simpl in HA'. lia. }
      rewrite <- Hla, snoc_lookup_length in HA'. injection HA' as <-.
      rewrite <- Hls, snoc_lookup_length in HL'. injection HL' as <-.
      destruct (round_L_producer Hround x Hx) as (a & Ha & He).
      exists a. split; [done|]. split; [done|].
      by apply (round_new_literal Hround).
Qed.

Lemma levels_wired_alloc pg sh gs :
  graph_ok pg → alloc_ext (s_heap pg) sh → levels_wired pg →
  levels_wired (with_goal_states gs (with_s_heap sh pg)).
Proof.
  intros Hok (Hle & Hold & _) [Hact Hlit].
  split; cbn [s_levels a_levels s_heap a_heap with_goal_states with_s_heap].
  - intros A a HA Ha. destruct (Hact A a HA Ha) as (Hc & Hp & Hpar).
    split; [done|]. split; [done|].
    intros p Hin. destruct (Hpar p Hin) as [Hlt Hother]. split; [lia|done].
  - intros i A L x HA HL Hx.
    destruct (Hlit i A L x HA HL Hx) as (a & Ha & He & Hp).
    exists a. split; [done|]. split; [done|].
    rewrite Hold; [done|].
    apply (graph_ok_s_bound pg L x Hok); [|done].
    exact (lookup_elem_of _ _ _ HL).
Qed.

Lemma levels_wired_initial pb fs0 serial_planning L0 pg0 :
  initial_of pb fs0 serial_planning L0 pg0 → levels_wired pg0.
Proof.
  intros Hini. split.
  - intros A a. rewrite (io_a_levels _ _ _ _ _ Hini). by intros []%elem_of_nil.
  - intros i A L x. by rewrite (io_a_levels _ _ _ _ _ Hini).
Qed.

Lemma levels_wired_built pb state serial_planning fuel pg :
  PlanningGraph_init pb state serial_planning fuel = Returned pg → levels_wired pg.
Proof.
  apply (PlanningGraph_init_inv levels_wired).
  - intros fs0 L0 pg0 _ Hini _. by eapply levels_wired_initial.
  - intros level pg0 prev A L pg1 pg3 pg' Hok _ _ Hla Hls Hround HJ.
    by eapply levels_wired_round.
  - intros pg1 sh gs Hok HJ Hext. by apply levels_wired_alloc.
Qed.

Lemma elem_of_pre_keys_iff (s : string) (b : bool) act :
  (s, b) ∈ pre_keys act ↔ (if b then s ∈ precond_pos act else s ∈ precond_neg act).
Proof.
  rewrite elem_of_pre_keys, !elem_of_lits. simpl. destruct b; intuition congruence.
Qed.

(** X15: the links of an action node of a built graph.  Its children are
    its effect nodes.  Its parents are nodes for exactly its precondition
    literals, each equal to a node of the literal level before the action
    level; but none of them is a node of a literal level of the graph: the
    parents are objects of their own. *)
Theorem action_node_links pb state serial_planning fuel pg :
  PlanningGraph_init pb state serial_planning fuel = Returned pg →
  ∀ i prev A a, s_levels pg !! i = Some prev → a_levels pg !! i = Some A → a ∈ A →
    children (deref (a_heap pg) (addr a)) = effnodes a ∧
    (∀ (s : string) (b : bool),
       (s, b) ∈ s_key <$> parents (deref (a_heap pg) (addr a)) ↔
       (if b then s ∈ precond_pos (action a) else s ∈ precond_neg (action a))) ∧
    (∀ p, p ∈ parents (deref (a_heap pg) (addr a)) →
       set_in p prev = true ∧
       ∀ L x, L ∈ s_levels pg → x ∈ L → addr x ≠ addr p).
Proof.
  intros Hrun i prev A a Hprev HA Ha.
  destruct (levels_wired_built _ _ _ _ _ Hrun) as [Hact _].
  destruct (Hact A a) as (Hc & Hp & Hpar); [by eapply lookup_elem_of|done|].
  split; [done|].
  change (s_key <$> parents (deref (a_heap pg) (addr a))) with
    (py_key <$> parents (deref (a_heap pg) (addr a))).
  rewrite Hp. split; [intros s b; apply elem_of_pre_keys_iff|].
  intros p Hin. split; [|by apply Hpar].
  destruct (levels_linked_built _ _ _ _ _ Hrun) as [[Hshape Hall] _].
  destruct (lookup_lt_is_Some_2 (s_levels pg) (S i)) as [L HL].
  { apply lookup_lt_Some in HA. lia. }
  destruct (Hall i prev A L Hprev HA HL) as (_ & Hacts & _).
  assert (action a ∈ action <$> A) as Hin' by (apply list_elem_of_fmap; eauto).
  rewrite Hacts in Hin'. apply next_actions_sound in Hin' as [_ Hen].
  apply set_in_key. apply (proj1 (enabled_spec _ _) Hen).
  rewrite <- Hp. apply list_elem_of_fmap. eauto.
Qed.

Lemma action_node_links_witness :
  children (deref (a_heap two_adds_graph) (addr (a_node two_adds_graph 1 2))) =
    effnodes (a_node two_adds_graph 1 2) ∧
  ∀ p, p ∈ parents (deref (a_heap two_adds_graph) (addr (a_node two_adds_graph 1 2))) →
    set_in p (s_level two_adds_graph 1) = true ∧
    ∀ L x, L ∈ s_levels two_adds_graph → x ∈ L → addr x ≠ addr p.
Proof.
  destruct (action_node_links two_adds "FF" true 2 two_adds_graph
              ltac:(vm_compute; reflexivity) 1
              (s_level two_adds_graph 1) (a_level two_adds_graph 1)
              (a_node two_adds_graph 1 2)) as (Hc & _ & Hp).
  - vm_compute. reflexivity.
  - vm_compute. reflexivity.
  - apply (lookup_elem_of _ 2). vm_compute. reflexivity.
  - exact (conj Hc Hp).
Defined.

(** X16: a node of a literal level of a built graph after the initial one
    has exactly one parent: the node of the action level before it whose
    effect node it is.  The other action nodes that produce the literal are
    not among its parents. *)
Theorem literal_node_has_one_parent pb state serial_planning fuel pg :
  PlanningGraph_init pb state serial_planning fuel = Returned pg →
  ∀ i A L x, a_levels pg !! i = Some A → s_levels pg !! S i = Some L → x ∈ L →
    ∃ a, a ∈ A ∧ x ∈ effnodes a ∧ parents (deref (s_heap pg) (addr x)) = [a].
Proof.
  intros Hrun. by destruct (levels_wired_built _ _ _ _ _ Hrun) as [_ Hlit].
Qed.

Lemma literal_node_has_one_parent_witness :
  ∃ a, a ∈ a_level two_adds_graph 1 ∧
       s_node two_adds_graph 2 0 ∈ effnodes a ∧
       parents (deref (s_heap two_adds_graph) (addr (s_node two_adds_graph 2 0))) = [a].
Proof.
  apply (literal_node_has_one_parent two_adds "FF" true 2 two_adds_graph
           ltac:(vm_compute; reflexivity) 1
           (a_level two_adds_graph 1) (s_level two_adds_graph 2)).
  - vm_compute. reflexivity.
  - vm_compute. reflexivity.
  - apply (lookup_elem_of _ 0). vm_compute. reflexivity.
Defined.

(** ** The marks between literals *)

Lemma existsb_ext_in {X} (f g : X → bool) (l : list X) :
  (∀ x, x ∈ l → f x = g x) → existsb f l = existsb g l.
Proof.
  induction l as [|x l IH]; intros Hext; [done|]. cbn [existsb].
  rewrite (Hext x) by left. rewrite IH; [done|]. intros y Hy. apply Hext. by right.
Qed.

Lemma existsb_swap {X Y} (f : X → Y → bool) (l1 : list X) (l2 : list Y) :
  existsb (λ a, existsb (f a) l2) l1 = existsb (λ b, existsb (λ a, f a b) l1) l2.
Proof.
  apply eq_true_iff_eq. rewrite !existsb_exists. split.
  - intros (a & Ha & (b & Hb & Hf)%existsb_exists).
    exists b. split; [done|]. apply existsb_exists. eauto.
  - intros (b & Hb & (a & Ha & Hf)%existsb_exists).
    exists a. split; [done|]. apply existsb_exists. eauto.
Qed.

Lemma produces_both_comm pg s1 s2 pa pb :
  produces_both pg s2 s1 pb pa = produces_both pg s1 s2 pa pb.
Proof.
  unfold produces_both.
  rewrite orb_comm. f_equal; apply andb_comm.
Qed.

(** [inconsistent_support_mutex] reads the parents of the two literal
    nodes and, of the heap of the action nodes, those parents only. *)
Lemma inconsistent_support_ext pg pg' s1 s2 :
  parents (deref (s_heap pg') (addr s1)) = parents (deref (s_heap pg) (addr s1)) →
  parents (deref (s_heap pg') (addr s2)) = parents (deref (s_heap pg) (addr s2)) →
  (∀ pa, pa ∈ parents (deref (s_heap pg) (addr s1)) ∨
         pa ∈ parents (deref (s_heap pg) (addr s2)) →
     deref (a_heap pg') (addr pa) = deref (a_heap pg) (addr pa)) →
  inconsistent_support_mutex pg' s1 s2 = inconsistent_support_mutex pg s1 s2.
Proof.
  intros H1 H2 Hderef. rewrite !inconsistent_support_mutex_spec, H1, H2.
  f_equal; [|f_equal]; apply existsb_ext_in; intros pa Hpa;
    apply existsb_ext_in; intros pb Hpb;
    unfold is_mutex, produces_both; by rewrite !Hderef by auto.
Qed.

Lemma inconsistent_support_comm pg s1 s2 :
  (∀ pa pb, pa ∈ parents (deref (s_heap pg) (addr s1)) →
            pb ∈ parents (deref (s_heap pg) (addr s2)) →
     is_mutex (a_heap pg) pa pb = is_mutex (a_heap pg) pb pa) →
  inconsistent_support_mutex pg s1 s2 = inconsistent_support_mutex pg s2 s1.
Proof.
  intros Hsym. rewrite !inconsistent_support_mutex_spec.
  rewrite (existsb_swap (λ pa pb, is_mutex (a_heap pg) pa pb)).
  rewrite (existsb_swap (λ pa pb, is_mutex (a_heap pg) pa pb &&
                                   produces_both pg s1 s2 pa pb)).
  f_equal; [|f_equal]; apply existsb_ext_in; intros pb Hpb;
    apply existsb_ext_in; intros pa Hpa.
  - by apply Hsym.
  - by rewrite Hsym, produces_both_comm.
Qed.

Lemma s_mutex_test_ext pg pg' s1 s2 :
  a_heap pg' = a_heap pg →
  (∀ i, parents (deref (s_heap pg') i) = parents (deref (s_heap pg) i)) →
  s_mutex_test pg' s1 s2 = s_mutex_test pg s1 s2.
Proof.
  intros Hah Hp. unfold s_mutex_test. f_equal.
  apply inconsistent_support_ext; [apply Hp..|]. intros pa _. by rewrite Hah.
Qed.

(** On a level of new nodes, for which the test is the same in either
    order, [update_s_mutex] marks a pair exactly when the negation test or
    the inconsistent-support test answers true. *)
Lemma update_s_mutex_exact L pg3 :
  NoDup (py_key <$> L) → NoDup (addr <$> L) →
  (∀ x, x ∈ L → mutex (deref (s_heap pg3) (addr x)) = []) →
  (∀ s1 s2, s1 ∈ L → s2 ∈ L → s_mutex_test pg3 s1 s2 = s_mutex_test pg3 s2 s1) →
  ∀ s1 s2, s1 ∈ L → s2 ∈ L → s1 ≠ s2 →
    is_mutex (s_heap (update_s_mutex L pg3)) s1 s2 = s_mutex_test pg3 s1 s2.
Proof.
  intros Hkey Haddr Hempty Hsym.
  assert (a_heap (update_s_mutex L pg3) = a_heap pg3 ∧
          (∀ i, parents (deref (s_heap (update_s_mutex L pg3)) i) =
                parents (deref (s_heap pg3) i)) ∧
          (∀ x m, x ∈ L → m ∈ mutex (deref (s_heap (update_s_mutex L pg3)) (addr x)) →
             m ∈ L ∧ s_mutex_test pg3 x m = true)) as (_ & _ & Hsound).
  { unfold update_s_mutex.
    apply (update_mutex_pairs s_mutex_test mutexify_s
      (λ pg', a_heap pg' = a_heap pg3 ∧
              (∀ i, parents (deref (s_heap pg') i) = parents (deref (s_heap pg3) i)) ∧
              (∀ x m, x ∈ L → m ∈ mutex (deref (s_heap pg') (addr x)) →
                 m ∈ L ∧ s_mutex_test pg3 x m = true))).
    - split; [done|]. split; [done|].
      intros x m Hx Hm. rewrite Hempty in Hm by done. by apply elem_of_nil in Hm.
    - intros pg' i j n1 n2 (Hah & Hp & Hm) Hi Hj Hlt Htest.
      assert (n1 ∈ L) as Hn1 by by eapply lookup_elem_of.
      assert (n2 ∈ L) as Hn2 by by eapply lookup_elem_of.
      rewrite (s_mutex_test_ext pg3 pg') in Htest by done.
      assert (addr n1 ≠ addr n2) as Hne.
      { intros Heq. assert (i = j); [|lia].
        eapply NoDup_lookup; [exact Haddr| |]; rewrite list_lookup_fmap.
        - by rewrite Hi.
        - rewrite Hj. simpl. by rewrite Heq. }
      split; [done|].
      cbn [s_heap mutexify_s with_s_heap]. split.
      + intros k. by rewrite mutexify_parents.
      + intros x m Hx Hin. rewrite mutexify_mutex in Hin by done.
        destruct (decide (addr n1 = addr x)) as [E1|E1].
        { assert (x = n1) as -> by (symmetry; by eapply NoDup_addr_inj).
          apply elem_of_set_add in Hin as [Hin|[_ ->]]; [by apply Hm|done]. }
        destruct (decide (addr n2 = addr x)) as [E2|E2].
        { assert (x = n2) as -> by (symmetry; by eapply NoDup_addr_inj).
          apply elem_of_set_add in Hin as [Hin|[_ ->]]; [by apply Hm|].
          split; [done|]. by rewrite Hsym. }
        by apply Hm. }
  assert (∀ k1 k2 s1 s2, L !! k1 = Some s1 → L !! k2 = Some s2 → k1 < k2 →
            s_mutex_test pg3 s1 s2 = true →
            is_mutex (s_heap (update_s_mutex L pg3)) s1 s2 = true ∧
            is_mutex (s_heap (update_s_mutex L pg3)) s2 s1 = true) as Hreach.
  { intros k1 k2 s1 s2 Hk1 Hk2 Hlt Htest. unfold update_s_mutex.
    apply (update_mutex_reaches s_mutex_test mutexify_s
             (λ pg', a_heap pg' = a_heap pg3 ∧
                     ∀ i, parents (deref (s_heap pg') i) = parents (deref (s_heap pg3) i))
             (λ pg', is_mutex (s_heap pg') s1 s2 = true ∧
                     is_mutex (s_heap pg') s2 s1 = true) L pg3 k1 k2 s1 s2);
      try done.
    - intros pg' a b [Hah Hp]. split; [done|].
      intros i. cbn [s_heap mutexify_s with_s_heap]. by rewrite mutexify_parents.
    - intros pg' [Hah Hp]. by rewrite (s_mutex_test_ext pg3 pg').
    - intros pg' _. apply (is_mutex_mutexify (s_heap pg') s1 s2).
    - intros pg' a b [H1 H2]. split; by apply is_mutex_mutexify_mono. }
  intros s1 s2 Hs1 Hs2 Hne. apply eq_true_iff_eq. split.
  - rewrite is_mutex_set_in, set_in_true. intros (m & Hm & Hk).
    destruct (Hsound s1 m Hs1 Hm) as [HmL Htest].
    by rewrite <- (NoDup_key_inj L m s2 Hkey HmL Hs2 Hk).
  - intros Htest.
    pose proof Hs1 as [k1 Hk1]%list_elem_of_lookup.
    pose proof Hs2 as [k2 Hk2]%list_elem_of_lookup.
    destruct (decide (k1 < k2)) as [Hlt|Hge].
    + by destruct (Hreach k1 k2 s1 s2 Hk1 Hk2 Hlt Htest).
    + rewrite Hsym in Htest by done.
      destruct (Hreach k2 k1 s2 s1 Hk2 Hk1) as [_ Hmut]; [|done|done].
      destruct (decide (k1 = k2)) as [->|]; [congruence|lia].
Qed.

Lemma s_mutex_test_comm_wired pg i L s1 s2 :
  graph_ok pg → levels_wired pg →
  length (s_levels pg) = S (length (a_levels pg)) →
  s_levels pg !! S i = Some L → s1 ∈ L → s2 ∈ L →
  s_mutex_test pg s1 s2 = s_mutex_test pg s2 s1.
Proof.
  intros [_ Haok] [_ Hlit] Hshape HL Hs1 Hs2.
  destruct (lookup_lt_is_Some_2 (a_levels pg) i) as [A HA].
  { apply lookup_lt_Some in HL. lia. }
  destruct (Hlit i A L s1 HA HL Hs1) as (a1 & Ha1 & _ & Hp1).
  destruct (Hlit i A L s2 HA HL Hs2) as (a2 & Ha2 & _ & Hp2).
  unfold s_mutex_test. rewrite negation_mutex_comm. f_equal.
  apply inconsistent_support_comm. rewrite Hp1, Hp2.
  intros pa pb ->%list_elem_of_singleton ->%list_elem_of_singleton.
  destruct (Haok A) as [HAok _]; [by eapply lookup_elem_of|].
  by apply (level_ok_sym _ A).
Qed.

Lemma literal_marks_built pb state serial_planning fuel pg :
  PlanningGraph_init pb state serial_planning fuel = Returned pg →
  ∀ i L s1 s2, s_levels pg !! S i = Some L → s1 ∈ L → s2 ∈ L → s1 ≠ s2 →
    is_mutex (s_heap pg) s1 s2 = s_mutex_test pg s1 s2.
Proof.
  intros Hrun.
  apply (PlanningGraph_init_inv
           (λ pg, levels_wired pg ∧
                  ∀ i L s1 s2, s_levels pg !! S i = Some L → s1 ∈ L → s2 ∈ L →
                    s1 ≠ s2 → is_mutex (s_heap pg) s1 s2 = s_mutex_test pg s1 s2)
           pb state serial_planning fuel pg); [| | |done].
  - intros fs0 L0 pg0 _ Hini _. split; [by eapply levels_wired_initial|].
    intros i L s1 s2. by rewrite (io_s_levels _ _ _ _ _ Hini).
  - intros level pg0 prev A L pg1 pg3 pg' Hok _ Hok' Hla Hls Hround [Hwired HJ].
    assert (levels_wired pg') as Hwired'
      by exact (levels_wired_round level pg0 prev A L pg1 pg3 pg' Hok Hla Hls Hround Hwired).
    split; [done|].
    intros i L' s1 s2 HL' Hs1 Hs2 Hne.
    destruct (round_levels Hround) as (Ha' & Hs' & _).
    pose proof HL' as HLpg'. rewrite Hs' in HL'.
    destruct (decide (S i < S level)) as [Hlt|Hge].
    + rewrite lookup_app_l in HL' by lia.
      assert (addr s1 < next_addr (s_heap pg0)) as Hb1.
      { apply (graph_ok_s_bound pg0 L' s1 Hok); [|done]. exact (lookup_elem_of _ _ _ HL'). }
      assert (addr s2 < next_addr (s_heap pg0)) as Hb2.
      { apply (graph_ok_s_bound pg0 L' s2 Hok); [|done]. exact (lookup_elem_of _ _ _ HL'). }
      destruct (round_s_frame Hround (addr s1) Hb1) as [Hp1 Hm1].
      destruct (round_s_frame Hround (addr s2) Hb2) as [Hp2 _].
      rewrite (is_mutex_frame (s_heap pg0)) by done.
      rewrite (HJ i L' s1 s2) by done.
      unfold s_mutex_test. f_equal. symmetry.
      apply inconsistent_support_ext; [done|done|].
      destruct (lookup_lt_is_Some_2 (a_levels pg0) i) as [Ai HAi]; [lia|].
      destruct Hwired as [_ Hlit].
      destruct (Hlit i Ai L' s1 HAi HL' Hs1) as (a1 & Ha1 & _ & Hpa1).
      destruct (Hlit i Ai L' s2 HAi HL' Hs2) as (a2 & Ha2 & _ & Hpa2).
      rewrite Hpa1, Hpa2.
      intros pa [->%list_elem_of_singleton| ->%list_elem_of_singleton];
        apply (round_a_frame Hround);
        (apply (graph_ok_a_bound pg0 Ai); [done| |done]);
        exact (lookup_elem_of _ _ _ HAi).
    + assert (S i = S level) as Hi.
      { apply lookup_lt_Some in HL'. rewrite length_app in HL'. simpl in HL'. lia. }
      rewrite Hi, <- Hls, snoc_lookup_length in HL'. injection HL' as <-.
      destruct (update_s_mutex_frame L pg3) as (_ & _ & _ & Hah4 & (_ & _ & Hpc4) & _).
      assert (∀ x y, s_mutex_test pg' x y = s_mutex_test pg3 x y) as Htest.
      { intros x y. rewrite (ro_result _ _ _ _ _ _ _ _ Hround).
        apply s_mutex_test_ext; [done|]. intros k. apply Hpc4. }
      rewrite Htest. rewrite (ro_result _ _ _ _ _ _ _ _ Hround).
      pose proof Hok' as [Hsok' _].
      destruct (Hsok' L) as [(HkL & HaL & _) _]; [exact (lookup_elem_of _ _ _ HLpg')|].
      apply update_s_mutex_exact; try done.
      * intros x Hx.
        destruct (round_action Hround)
          as (_ & _ & (_ & _ & Hmnew) & _ & _ & _ & [_ HfE] & _).
        destruct (update_a_mutex_frame A pg1) as (_ & _ & _ & Hsh2 & _).
        destruct (ro_literal_heap _ _ _ _ _ _ _ _ Hround) as [_ Hs3].
        rewrite Hs3. cbn [mutex with_parents]. rewrite Hsh2.
        destruct (HfE x) as [Hlo Hhi].
        { eapply elem_of_sublist; [done|apply (round_L_sublist Hround)]. }
        by apply Hmnew.
      * intros x y Hx Hy. rewrite <- !Htest.
        apply (s_mutex_test_comm_wired pg' level L); try done.
        -- rewrite Ha', Hs', !length_app. simpl. lia.
        -- by rewrite Hi in HLpg'.
  - intros pg1 sh gs Hok [Hwired HJ] Hext.
    split; [by apply levels_wired_alloc|].
    intros i L s1 s2 HL Hs1 Hs2 Hne.
    cbn [s_levels with_goal_states with_s_heap] in HL.
    destruct Hext as (_ & Hold & _).
    assert (addr s1 < next_addr (s_heap pg1)) as Hb1.
    { apply (graph_ok_s_bound pg1 L s1 Hok); [|done]. exact (lookup_elem_of _ _ _ HL). }
    assert (addr s2 < next_addr (s_heap pg1)) as Hb2.
    { apply (graph_ok_s_bound pg1 L s2 Hok); [|done]. exact (lookup_elem_of _ _ _ HL). }
    rewrite (is_mutex_frame (s_heap pg1))
      by (cbn [s_heap with_goal_states with_s_heap]; by rewrite Hold).
    rewrite (HJ i L s1 s2) by done.
    unfold s_mutex_test. f_equal. symmetry.
    apply inconsistent_support_ext;
      cbn [s_heap a_heap with_goal_states with_s_heap]; [by rewrite Hold..|done].
Qed.

Lemma built_graph_is_shaped pb state serial_planning fuel pg :
  PlanningGraph_init pb state serial_planning fuel = Returned pg →
  length (s_levels pg) = S (length (a_levels pg)).
Proof.
  intros Hrun. by destruct (levels_linked_built _ _ _ _ _ Hrun) as [[Hshape _] _].
Qed.

Lemma set_in_member {X K} `{PyKeyLaw X K} (x : X) (s : list X) :
  x ∈ s → set_in x s = true.
Proof. intros Hx. apply set_in_true. eauto. Qed.

(** X17: in a built graph two different nodes of one literal level after
    the initial one are mutex exactly when one of the tests of
    [update_s_mutex] answers true on the finished graph.  With [a1] and
    [a2] the one parent that each of the two nodes has, that is when
    the two literals are the two polarities of one symbol, or [a1] and [a2]
    are mutex and neither of them has both literals among its effects. *)
Theorem literal_marks_are_the_tests pb state serial_planning fuel pg :
  PlanningGraph_init pb state serial_planning fuel = Returned pg →
  ∀ i L s1 s2, s_levels pg !! S i = Some L → s1 ∈ L → s2 ∈ L → s1 ≠ s2 →
    is_mutex (s_heap pg) s1 s2 =
      negation_mutex s1 s2 || inconsistent_support_mutex pg s1 s2 ∧
    ∀ a1 a2,
      parents (deref (s_heap pg) (addr s1)) = [a1] →
      parents (deref (s_heap pg) (addr s2)) = [a2] →
      inconsistent_support_mutex pg s1 s2 =
        is_mutex (a_heap pg) a1 a2 &&
        negb (set_in s2 (effnodes a1)) && negb (set_in s1 (effnodes a2)).
Proof.
  intros Hrun i L s1 s2 HL Hs1 Hs2 Hne. split.
  - by apply (literal_marks_built _ _ _ _ _ Hrun i L).
  - intros a1 a2 Hp1 Hp2.
    destruct (levels_wired_built _ _ _ _ _ Hrun) as [Hact Hlit].
    pose proof (built_graph_is_shaped _ _ _ _ _ Hrun) as Hshape.
    destruct (lookup_lt_is_Some_2 (a_levels pg) i) as [A HA].
    { apply lookup_lt_Some in HL. lia. }
    destruct (Hlit i A L s1 HA HL Hs1) as (b1 & Hb1 & He1 & Hq1).
    destruct (Hlit i A L s2 HA HL Hs2) as (b2 & Hb2 & He2 & Hq2).
    assert (b1 = a1) as -> by congruence.
    assert (b2 = a2) as -> by congruence.
    destruct (Hact A a1) as (Hc1 & _); [exact (lookup_elem_of _ _ _ HA)|done|].
    destruct (Hact A a2) as (Hc2 & _); [exact (lookup_elem_of _ _ _ HA)|done|].
    rewrite inconsistent_support_mutex_spec, Hp1, Hp2. cbn [existsb].
    unfold produces_both. rewrite Hc1, Hc2.
    rewrite (set_in_member s1 (effnodes a1)), (set_in_member s2 (effnodes a2)) by done.
    by destruct (is_mutex (a_heap pg) a1 a2), (set_in s2 (effnodes a1)),
      (set_in s1 (effnodes a2)).
Qed.

Lemma literal_marks_are_the_tests_witness :
  is_mutex (s_heap two_adds_graph) (s_node two_adds_graph 2 0) (s_node two_adds_graph 2 1) =
    negation_mutex (s_node two_adds_graph 2 0) (s_node two_adds_graph 2 1) ||
    inconsistent_support_mutex two_adds_graph
      (s_node two_adds_graph 2 0) (s_node two_adds_graph 2 1).
Proof.
  exact (proj1 (literal_marks_are_the_tests two_adds "FF" true 2 two_adds_graph
                  ltac:(vm_compute; reflexivity) 1 (s_level two_adds_graph 2)
                  (s_node two_adds_graph 2 0) (s_node two_adds_graph 2 1)
                  ltac:(vm_compute; reflexivity)
                  ltac:(apply (lookup_elem_of _ 0); vm_compute; reflexivity)
                  ltac:(apply (lookup_elem_of _ 1); vm_compute; reflexivity)
                  ltac:(vm_compute; discriminate))).
Defined.

(** ** The inconsistent-support test on any two nodes *)

(** X18: what [inconsistent_support_mutex] answers on any two literal
    nodes: true exactly when some parent of the first is mutex with some
    parent of the second, and no such mutex pair has a member with both
    literals among its children.  In particular it answers false when one
    of the two nodes has no parent. *)
Theorem inconsistent_support_mutex_iff pg s1 s2 :
  (inconsistent_support_mutex pg s1 s2 = true ↔
     (∃ pa pb, pa ∈ parents (deref (s_heap pg) (addr s1)) ∧
               pb ∈ parents (deref (s_heap pg) (addr s2)) ∧
               is_mutex (a_heap pg) pa pb = true) ∧
     (∀ pa pb, pa ∈ parents (deref (s_heap pg) (addr s1)) →
               pb ∈ parents (deref (s_heap pg) (addr s2)) →
               is_mutex (a_heap pg) pa pb = true →
        (set_in s1 (children (deref (a_heap pg) (addr pa))) &&
         set_in s2 (children (deref (a_heap pg) (addr pa))) = false) ∧
        (set_in s1 (children (deref (a_heap pg) (addr pb))) &&
         set_in s2 (children (deref (a_heap pg) (addr pb))) = false))) ∧
  (parents (deref (s_heap pg) (addr s1)) = [] ∨
   parents (deref (s_heap pg) (addr s2)) = [] →
   inconsistent_support_mutex pg s1 s2 = false).
Proof.
  assert (inconsistent_support_mutex pg s1 s2 = true ↔
     (∃ pa pb, pa ∈ parents (deref (s_heap pg) (addr s1)) ∧
               pb ∈ parents (deref (s_heap pg) (addr s2)) ∧
               is_mutex (a_heap pg) pa pb = true) ∧
     (∀ pa pb, pa ∈ parents (deref (s_heap pg) (addr s1)) →
               pb ∈ parents (deref (s_heap pg) (addr s2)) →
               is_mutex (a_heap pg) pa pb = true →
        (set_in s1 (children (deref (a_heap pg) (addr pa))) &&
         set_in s2 (children (deref (a_heap pg) (addr pa))) = false) ∧
        (set_in s1 (children (deref (a_heap pg) (addr pb))) &&
         set_in s2 (children (deref (a_heap pg) (addr pb))) = false))) as Hiff.
  { rewrite inconsistent_support_mutex_spec, andb_true_iff, negb_true_iff. split.
    - intros [Hex Hnone]. split.
      + apply existsb_exists in Hex as (pa & Hpa%list_elem_of_In & Hex).
        apply existsb_exists in Hex as (pb & Hpb%list_elem_of_In & Hmut). eauto.
      + intros pa pb Hpa Hpb Hmut. apply orb_false_iff.
        apply not_true_iff_false. intros Hboth. apply not_true_iff_false in Hnone.
        apply Hnone. apply existsb_exists. exists pa.
        split; [by apply list_elem_of_In|]. apply existsb_exists. exists pb.
        split; [by apply list_elem_of_In|]. by rewrite Hmut.
    - intros [(pa & pb & Hpa & Hpb & Hmut) Hnone]. split.
      + apply existsb_exists. exists pa. split; [by apply list_elem_of_In|].
        apply existsb_exists. exists pb. split; [by apply list_elem_of_In|done].
      + apply not_true_iff_false. intros Hex.
        apply existsb_exists in Hex as (qa & Hqa%list_elem_of_In & Hex).
        apply existsb_exists in Hex as (qb & Hqb%list_elem_of_In & Hboth).
        apply andb_true_iff in Hboth as [Hm Hboth].
        destruct (Hnone qa qb Hqa Hqb Hm) as [H1 H2].
        unfold produces_both in Hboth. by rewrite H1, H2 in Hboth. }
  split; [done|].
  intros Hempty. apply not_true_iff_false. rewrite Hiff.
  intros [(pa & pb & Hpa & Hpb & _) _].
  destruct Hempty as [Hnil|Hnil]; rewrite Hnil in *; by eapply elem_of_nil.
Qed.

(** ** The constructor of an action node *)

Lemma elem_of_eff_keys_iff (s : string) (b : bool) act :
  (s, b) ∈ eff_keys act ↔ (if b then s ∈ effect_add act else s ∈ effect_rem act).
Proof.
  rewrite elem_of_eff_keys, !elem_of_lits. simpl. destruct b; intuition congruence.
Qed.

Lemma alloc_ext_parents_ext {P M} (st st' : Store P M) :
  alloc_ext st st' → parents_ext st st'.
Proof.
  intros (Hle & Hold & Hnew). split; [done|]. split.
  - intros i Hi. by rewrite Hold.
  - intros i Hlo Hhi. by rewrite Hnew.
Qed.

(** X19: the constructor of an action node.  [prenodes] holds one node
    for each precondition literal and [effnodes] one node for each effect
    literal of the action, however often and in whatever order the lists of
    the action name it.  All these nodes are new objects, the node itself is
    a new object, and all of them start without parents, children and mutex
    marks; no object that was there is changed. *)
Theorem PgNode_a_init_sets act (sh : SHeap) (ah : AHeap) :
  action (PgNode_a_init act sh ah).1.1 = act ∧
  NoDup (s_key <$> prenodes (PgNode_a_init act sh ah).1.1) ∧
  NoDup (s_key <$> effnodes (PgNode_a_init act sh ah).1.1) ∧
  (∀ (s : string) (b : bool),
     (s, b) ∈ s_key <$> prenodes (PgNode_a_init act sh ah).1.1 ↔
     (if b then s ∈ precond_pos act else s ∈ precond_neg act)) ∧
  (∀ (s : string) (b : bool),
     (s, b) ∈ s_key <$> effnodes (PgNode_a_init act sh ah).1.1 ↔
     (if b then s ∈ effect_add act else s ∈ effect_rem act)) ∧
  (∀ n, n ∈ prenodes (PgNode_a_init act sh ah).1.1 ++
            effnodes (PgNode_a_init act sh ah).1.1 →
     next_addr sh ≤ addr n < next_addr (PgNode_a_init act sh ah).1.2) ∧
  addr (PgNode_a_init act sh ah).1.1 = next_addr ah ∧
  alloc_ext sh (PgNode_a_init act sh ah).1.2 ∧
  alloc_ext ah (PgNode_a_init act sh ah).2.
Proof.
  unfold PgNode_a_init. cbn [alloc].
  destruct (precond_s_nodes_spec act sh) as (_ & Hfr1 & Hk1).
  pose proof (add_s_nodes_alloc false (precond_neg act)
                (add_s_nodes true (precond_pos act) ([], sh)).1
                (add_s_nodes true (precond_pos act) ([], sh)).2) as Ha1.
  pose proof (add_s_nodes_alloc true (precond_pos act) [] sh) as Ha0.
  assert (alloc_ext sh (precond_s_nodes act sh).2) as Hext1.
  { unfold precond_s_nodes. eapply alloc_ext_trans; [exact Ha0|].
    by destruct (add_s_nodes true (precond_pos act) ([], sh)). }
  destruct (precond_s_nodes act sh) as [pre sh1]. cbn [fst snd] in Hfr1, Hk1, Hext1.
  destruct (effect_s_nodes_spec act sh1) as (_ & Hfr2 & Hk2).
  pose proof (add_s_nodes_alloc false (effect_rem act)
                (add_s_nodes true (effect_add act) ([], sh1)).1
                (add_s_nodes true (effect_add act) ([], sh1)).2) as Hb1.
  pose proof (add_s_nodes_alloc true (effect_add act) [] sh1) as Hb0.
  assert (alloc_ext sh1 (effect_s_nodes act sh1).2) as Hext2.
  { unfold effect_s_nodes. eapply alloc_ext_trans; [exact Hb0|].
    by destruct (add_s_nodes true (effect_add act) ([], sh1)). }
  destruct (effect_s_nodes act sh1) as [eff sh2]. cbn [fst snd] in Hfr2, Hk2, Hext2.
  cbn [fst snd action prenodes effnodes addr PgNode_a_addr a_addr].
  change (s_key <$> pre) with (py_key <$> pre).
  change (s_key <$> eff) with (py_key <$> eff).
  rewrite Hk1, Hk2.
  split; [done|]. split; [apply pre_keys_NoDup|]. split; [apply eff_keys_NoDup|].
  split; [intros s b; apply elem_of_pre_keys_iff|].
  split; [intros s b; apply elem_of_eff_keys_iff|].
  split; [|split; [done|split]].
  - intros n [Hn|Hn]%elem_of_app.
    + destruct Hfr1 as [_ Hb]. destruct (Hb n Hn). destruct Hext2 as [Hle _]. lia.
    + destruct Hfr2 as [_ Hb]. destruct (Hb n Hn). destruct Hext1 as [Hle _]. lia.
  - by eapply alloc_ext_trans.
  - apply (alloc_ext_alloc ah).
Qed.

(** ** The level sum as a sum of level costs *)

Lemma first_level_find g levels i :
  is_pos g = true →
  first_level g levels i =
    (λ p, i + p.1) <$> list_find (λ L, (symbol g, true) ∈ s_key <$> L) levels.
Proof.
  intros Hpos. revert i. induction levels as [|L rest IH]; intros i; [done|].
  cbn [first_level]. simpl list_find.
  assert (set_in g L = true ↔ (symbol g, true) ∈ s_key <$> L) as Hin.
  { rewrite set_in_key. unfold py_key, PgNode_s_key, s_key at 1. by rewrite Hpos. }
  destruct (decide ((symbol g, true) ∈ s_key <$> L)) as [Hyes|Hno].
  - rewrite (proj2 Hin Hyes). simpl. f_equal. lia.
  - destruct (set_in g L) eqn:E; [by destruct Hno; apply Hin|].
    rewrite IH. destruct (list_find _ rest) as [[k x]|]; simpl; [|done].
    f_equal. lia.
Qed.

Lemma level_sum_costs (levels : list (list PgNode_s)) (goals : list PgNode_s) (acc : nat) :
  (∀ g, g ∈ goals → is_pos g = true) →
  fold_left (λ level_sum goal_fluent,
               match first_level goal_fluent levels 0 with
               | Some i => level_sum + i
               | None => level_sum
               end) goals acc =
  acc + sum_list_with (level_cost levels) (symbol <$> goals).
Proof.
  revert acc. induction goals as [|g goals IH]; intros acc Hpos; cbn [fold_left].
  - simpl. lia.
  - rewrite IH by (intros g' Hg'; apply Hpos; by right).
    rewrite fmap_cons. cbn [sum_list_with].
    rewrite first_level_find by (apply Hpos; left).
    unfold level_cost. destruct (list_find _ levels) as [[k x]|]; simpl; lia.
Qed.

Lemma add_goal_keys (goals : list string) (acc : list PgNode_s * SHeap) :
  py_key <$> (fold_left add_goal goals acc).1 =
    set_update (py_key <$> acc.1) (lits true goals).
Proof.
  revert acc. induction goals as [|s goals IH]; intros acc; [done|].
  cbn [fold_left]. rewrite IH. unfold add_goal, PgNode_s_init.
  cbn [alloc fst snd]. by rewrite (set_add_fmap literal_key_id).
Qed.

Lemma goal_keys_symbols (goals : list string) :
  fst <$> set_update [] (lits true goals) ≡ₚ remove_dups goals.
Proof.
  assert (∀ x : literal, x ∈ set_update [] (lits true goals) ↔
            x.2 = true ∧ x.1 ∈ goals) as Hin.
  { intros x. rewrite lit_elem_of_set_update, elem_of_lits, elem_of_nil. tauto. }
  apply NoDup_Permutation.
  - apply NoDup_fmap_2_strong; [|apply lit_set_update_NoDup; constructor].
    intros [s1 b1] [s2 b2] [Hb1 _]%Hin [Hb2 _]%Hin Heq. simpl in *. congruence.
  - apply NoDup_remove_dups.
  - intros s. rewrite elem_of_remove_dups, list_elem_of_fmap. split.
    + intros (x & -> & [_ Hx]%Hin). done.
    + intros Hs. exists (s, true). split; [done|]. by apply Hin.
Qed.

(** X20: the level sum of a built graph is the sum of the level costs of
    the distinct goal literals of the problem: a goal that the problem lists
    twice counts once, and the level cost of a goal is the index of the
    first literal level that holds it as a positive literal, or 0 when no
    level holds it. *)
Theorem h_levelsum_is_sum_of_level_costs pb state serial_planning fuel pg :
  PlanningGraph_init pb state serial_planning fuel = Returned pg →
  h_levelsum pg = sum_list_with (level_cost (s_levels pg)) (remove_dups (goal pb)).
Proof.
  unfold PlanningGraph_init.
  destruct (decode_state state (state_map pb)) as [fs0|]; [|done].
  destruct (create_graph fuel _) as [pg1| |]; [|done..].
  cbn [and_then]. intros [= <-].
  unfold h_levelsum. cbn [s_levels goal_states with_goal_states with_s_heap].
  set (goals := fold_left add_goal (goal pb) ([], s_heap pg1)).
  assert (py_key <$> set_update [] goals.1 = set_update [] (lits true (goal pb))) as Hkeys.
  { rewrite (set_update_fmap literal_key_id). unfold goals. rewrite add_goal_keys.
    apply lit_set_update_nil, lit_set_update_NoDup. constructor. }
  rewrite level_sum_costs.
  - rewrite Nat.add_0_l. rewrite <- goal_keys_symbols, <- Hkeys.
    rewrite <- list_fmap_compose. done.
  - intros g Hg.
    assert (py_key g ∈ py_key <$> set_update [] goals.1) as Hin
      by (apply list_elem_of_fmap; eauto).
    rewrite Hkeys, lit_elem_of_set_update, elem_of_lits, elem_of_nil in Hin.
    by destruct Hin as [[]|[? _]].
Qed.

Lemma h_levelsum_is_sum_of_level_costs_witness :
  h_levelsum two_adds_graph =
    sum_list_with (level_cost (s_levels two_adds_graph)) (remove_dups (goal two_adds)).
Proof.
  apply (h_levelsum_is_sum_of_level_costs two_adds "FF" true 2 two_adds_graph).
  vm_compute. reflexivity.
Defined.

(** ** Node equality and hashing *)

Lemma cached_or_same (fresh : Z) (cache : option Z) :
  cache = None ∨ cache = Some fresh → cached_or cache fresh = fresh.
Proof.
  intros [-> | ->]; [done|]. unfold cached_or. by destruct (fresh =? 0)%Z.
Qed.

Lemma s_hash_cache_valid hash_expr (self : PgNode_s) calls :
  s_hash_cache hash_expr self calls = None ∨
  s_hash_cache hash_expr self calls =
    Some (Z.lxor (hash_expr (symbol self)) (hash_bool (is_pos self))).
Proof.
  induction calls as [|calls IH]; [by left|]. right.
  unfold s_hash_cache in *. rewrite Nat.iter_succ.
  unfold PgNode_s_hash at 1. cbn [snd]. by rewrite cached_or_same.
Qed.

Lemma a_hash_cache_valid hash_expr hash_args (self : PgNode_a) calls :
  a_hash_cache hash_expr hash_args self calls = None ∨
  a_hash_cache hash_expr hash_args self calls =
    Some (Z.lxor (hash_expr (name (action self))) (hash_args (args (action self)))).
Proof.
  induction calls as [|calls IH]; [by left|]. right.
  unfold a_hash_cache in *. rewrite Nat.iter_succ.
  unfold PgNode_a_hash at 1. cbn [snd]. by rewrite cached_or_same.
Qed.

(** X21: [__hash__] agrees with [__eq__], for both node classes and
    whatever Python's [hash] is: two nodes that are equal have the same
    hash, however often [__hash__] was called on either of them before, so
    the hash that a node caches never goes stale; and every call on a node
    gives the same value. *)
Theorem equal_nodes_hash_alike hash_expr hash_args :
  (∀ (n1 n2 : PgNode_s) k1 k2, py_eq n1 n2 = true →
     (PgNode_s_hash hash_expr n1 (s_hash_cache hash_expr n1 k1)).1 =
     (PgNode_s_hash hash_expr n2 (s_hash_cache hash_expr n2 k2)).1) ∧
  (∀ (n1 n2 : PgNode_a) k1 k2, py_eq n1 n2 = true →
     (PgNode_a_hash hash_expr hash_args n1 (a_hash_cache hash_expr hash_args n1 k1)).1 =
     (PgNode_a_hash hash_expr hash_args n2 (a_hash_cache hash_expr hash_args n2 k2)).1).
Proof.
  split; intros n1 n2 k1 k2 Heq.
  - unfold PgNode_s_hash. cbn [fst].
    rewrite !cached_or_same by apply s_hash_cache_valid.
    apply py_eq_key in Heq. injection Heq as -> ->. done.
  - unfold PgNode_a_hash. cbn [fst].
    rewrite !cached_or_same by apply a_hash_cache_valid.
    apply py_eq_key in Heq. injection Heq as -> -> _. done.
Qed.

(** ** Index errors *)

(** X22: [add_action_level] and [add_literal_level] append the new, empty
    level before they look at the level next to it.  [add_action_level] at
    a level for which there is no literal level raises IndexError, and
    [add_literal_level] on a graph without action levels raises IndexError
    at any level; in both cases the graph is left with the empty level
    appended. *)
Theorem level_index_errors :
  (∀ level pg, length (s_levels pg) ≤ level →
     add_action_level level pg =
       Raised IndexError (with_a_levels (a_levels pg ++ [[]]) pg)) ∧
  (∀ level pg, a_levels pg = [] →
     add_literal_level level pg =
       Raised IndexError (with_s_levels (s_levels pg ++ [[]]) pg)).
Proof.
  split; intros level pg Hlen.
  - unfold add_action_level. cbn [s_levels with_a_levels].
    by rewrite lookup_ge_None_2.
  - unfold add_literal_level. cbn [a_levels with_s_levels]. rewrite Hlen.
    unfold py_index. cbn [length]. rewrite lookup_nil.
    by repeat case_match.
Qed.

(** ** Levels and their objects *)

(** X23: the mutex set of a node of a level of a built graph holds nodes
    of that level only, each another node of the level than the node
    itself. *)
Theorem mutex_only_between_siblings pb state serial_planning fuel pg :
  PlanningGraph_init pb state serial_planning fuel = Returned pg →
  (∀ L x m, L ∈ s_levels pg → x ∈ L → m ∈ mutex (deref (s_heap pg) (addr x)) →
     m ∈ L ∧ m ≠ x) ∧
  (∀ A x m, A ∈ a_levels pg → x ∈ A → m ∈ mutex (deref (a_heap pg) (addr x)) →
     m ∈ A ∧ m ≠ x).
Proof.
  intros Hrun. destruct (PlanningGraph_init_ok _ _ _ _ _ Hrun) as [[Hs Ha] _].
  split.
  - intros L x m HL Hx Hm. destruct (Hs L HL) as [(_ & _ & Hmut) _].
    destruct (Hmut x m Hx Hm) as (HmL & Hne & _). split; [done|]. by intros ->.
  - intros A x m HA Hx Hm. destruct (Ha A HA) as [(_ & _ & Hmut) _].
    destruct (Hmut x m Hx Hm) as (HmA & Hne & _). split; [done|]. by intros ->.
Qed.

Lemma mutex_only_between_siblings_witness :
  PlanningGraph_init two_adds "FF" true 2 = Returned two_adds_graph ∧
  (∀ L x m, L ∈ s_levels two_adds_graph → x ∈ L →
     m ∈ mutex (deref (s_heap two_adds_graph) (addr x)) → m ∈ L ∧ m ≠ x) ∧
  (∀ A x m, A ∈ a_levels two_adds_graph → x ∈ A →
     m ∈ mutex (deref (a_heap two_adds_graph) (addr x)) → m ∈ A ∧ m ≠ x).
Proof.
  split; [vm_compute; reflexivity|].
  apply (mutex_only_between_siblings two_adds "FF" true 2).
  vm_compute. reflexivity.
Defined.

Lemma levels_apart_snoc {M} `{HasAddr M} (Ls : list (list M)) (L : list M) bound :
  levels_apart Ls →
  (∀ L' x, L' ∈ Ls → x ∈ L' → addr x < bound) →
  (∀ y, y ∈ L → bound ≤ addr y) →
  levels_apart (Ls ++ [L]).
Proof.
  intros Hapart Hold Hnew i j Li Lj x y Hi Hj Hlt Hx Hy.
  apply lookup_lt_Some in Hj as Hjlt. rewrite length_app in Hjlt. simpl in Hjlt.
  rewrite lookup_app_l in Hi by lia.
  destruct (decide (j < length Ls)) as [Hin|Hout].
  - rewrite lookup_app_l in Hj by lia. exact (Hapart i j Li Lj x y Hi Hj Hlt Hx Hy).
  - rewrite lookup_app_r in Hj by lia.
    replace (j - length Ls) with 0 in Hj by lia. injection Hj as <-.
    specialize (Hold Li x (lookup_elem_of _ _ _ Hi) Hx). specialize (Hnew y Hy). lia.
Qed.

Lemma levels_apart_built pb state serial_planning fuel pg :
  PlanningGraph_init pb state serial_planning fuel = Returned pg →
  levels_apart (s_levels pg) ∧ levels_apart (a_levels pg).
Proof.
  apply (PlanningGraph_init_inv
           (λ pg, levels_apart (s_levels pg) ∧ levels_apart (a_levels pg))).
  - intros fs0 L0 pg0 _ Hini _.
    rewrite (io_s_levels _ _ _ _ _ Hini), (io_a_levels _ _ _ _ _ Hini).
    split; intros i j Li Lj x y Hi Hj Hlt.
    + destruct j; [lia|done].
    + done.
  - intros level pg0 prev A L pg1 pg3 pg' Hok _ _ Hla Hls Hround [Hs Ha].
    destruct (round_levels Hround) as (-> & -> & _).
    destruct (round_action Hround) as (_ & _ & _ & _ & _ & [_ HfA] & [_ HfE] & _).
    split.
    + apply (levels_apart_snoc _ _ (next_addr (s_heap pg0))); [done| |].
      * intros L' x HL' Hx. by eapply graph_ok_s_bound.
      * intros y Hy. apply HfE.
        eapply elem_of_sublist; [done|apply (round_L_sublist Hround)].
    + apply (levels_apart_snoc _ _ (next_addr (a_heap pg0))); [done| |].
      * intros A' x HA' Hx. by eapply graph_ok_a_bound.
      * intros y Hy. by apply HfA.
  - intros pg1 sh gs _ HJ _. done.
Qed.

(** X24: no two levels of a built graph share a node object: a literal
    that is in several literal levels has a node of its own in each of
    them, and an action likewise. *)
Theorem levels_share_no_node pb state serial_planning fuel pg :
  PlanningGraph_init pb state serial_planning fuel = Returned pg →
  (∀ i j Li Lj x y, s_levels pg !! i = Some Li → s_levels pg !! j = Some Lj →
     i ≠ j → x ∈ Li → y ∈ Lj → addr x ≠ addr y) ∧
  (∀ i j Ai Aj x y, a_levels pg !! i = Some Ai → a_levels pg !! j = Some Aj →
     i ≠ j → x ∈ Ai → y ∈ Aj → addr x ≠ addr y).
Proof.
  intros Hrun. destruct (levels_apart_built _ _ _ _ _ Hrun) as [Hs Ha].
  split; intros i j Li Lj x y Hi Hj Hne Hx Hy.
  - destruct (decide (i < j)).
    + assert (addr x < addr y) by by eapply (Hs i j). lia.
    + assert (addr y < addr x) by (eapply (Hs j i); [done|done|lia|done|done]). lia.
  - destruct (decide (i < j)).
    + assert (addr x < addr y) by by eapply (Ha i j). lia.
    + assert (addr y < addr x) by (eapply (Ha j i); [done|done|lia|done|done]). lia.
Qed.

Lemma levels_share_no_node_witness :
  PlanningGraph_init two_adds "FF" true 2 = Returned two_adds_graph ∧
  (∀ i j Li Lj x y,
     s_levels two_adds_graph !! i = Some Li → s_levels two_adds_graph !! j = Some Lj →
     i ≠ j → x ∈ Li → y ∈ Lj → addr x ≠ addr y).
Proof.
  split; [vm_compute; reflexivity|].
  apply (levels_share_no_node two_adds "FF" true 2).
  vm_compute. reflexivity.
Defined.

(** ** The children of the literal nodes of a built graph *)

Lemma lit_elem_of_set_update_nil (k : action_id) (ks : list action_id) :
  k ∈ set_update [] ks ↔ k ∈ ks.
Proof.
  assert (∀ l : list action_id, set_in k l = true ↔ k ∈ l) as Hin.
  { intros l. rewrite set_in_true. split.
    - intros (y & Hy & Heq). rewrite !action_id_key_id in Heq. by subst.
    - intros Hk. by exists k. }
  rewrite <- !Hin, set_in_set_update. done.
Qed.

Lemma levels_fed_round level pg prev A L pg1 pg3 pg' :
  graph_ok pg → length (a_levels pg) = level → length (s_levels pg) = S level →
  round_of level pg prev A L pg1 pg3 pg' →
  levels_apart (s_levels pg) → levels_fed pg → levels_fed pg'.
Proof.
  intros Hok Hla Hls Hround Hapart Hfed i Li s HLi Hs.
  destruct (round_levels Hround) as (Ha' & Hs' & _).
  destruct (round_action Hround) as (_ & _ & _ & _ & _ & _ & [_ HfE] & Hper & Hacts).
  destruct (ro_action_children _ _ _ _ _ _ _ _ Hround) as (Hc1 & Hc2 & Hc3).
  pose proof (ro_prev _ _ _ _ _ _ _ _ Hround) as Hprev.
  rewrite (round_s_children Hround). rewrite Ha'. rewrite Hs' in HLi.
  destruct (decide (i < level)) as [Hlt|Hge].
  - rewrite lookup_app_l in HLi by lia. rewrite lookup_app_l by lia.
    rewrite Hc1.
    + by apply (Hfed i Li s).
    + intros (y & Heq & Hy)%list_elem_of_fmap.
      assert (addr s < addr y) by by eapply (Hapart i level Li prev).
      lia.
    + apply (graph_ok_s_bound pg Li s Hok); [|done].
      exact (lookup_elem_of _ _ _ HLi).
  - destruct (decide (i = level)) as [->|Hne].
    + rewrite lookup_app_l in HLi by lia.
      assert (Li = prev) as -> by congruence.
      rewrite lookup_app_r by lia. replace (level - length (a_levels pg)) with 0 by lia.
      cbn [lookup list_lookup].
      specialize (Hfed level prev s Hprev Hs).
      rewrite (lookup_ge_None_2 (a_levels pg) level) in Hfed by lia.
      destruct (Hc3 s Hs) as [Hk Hsound]. rewrite Hfed in Hk, Hsound.
      assert (∀ x : PgNode_a, is_persistent x = persistent (action x) →
                py_key x = act_key (action x)) as Hkey.
      { intros x Hx. unfold py_key, PgNode_a_key, a_key, act_key. by rewrite Hx. }
      split.
      * intros a Ha Hpre. apply set_in_key. rewrite Hk.
        apply lit_elem_of_set_update_nil.
        destruct (Hper a Ha) as [Hpa _]. rewrite (Hkey a Hpa).
        apply list_elem_of_fmap. exists (action a). split; [done|].
        assert (action a ∈ action <$> A) as Hin by (apply list_elem_of_fmap; eauto).
        rewrite Hacts in Hin. apply next_actions_sound in Hin as [Hin Hen].
        apply list_elem_of_filter. by split.
      * intros c Hc.
        destruct (Hsound c Hc) as [[]%elem_of_nil|(Hin & [Hen Hpre] & Hpc)].
        split; [done|]. apply set_in_key. rewrite (Hkey c Hpc).
        rewrite (a_level_keys A Hper), Hacts.
        change (act_key (action c)) with (py_key (action c)).
        apply set_in_key. by apply next_actions_covers.
    + apply lookup_lt_Some in HLi as Hlen. rewrite length_app in Hlen. simpl in Hlen.
      assert (i = S level) as -> by lia.
      rewrite lookup_app_r in HLi by lia.
      replace (S level - length (s_levels pg)) with 0 in HLi by lia.
      injection HLi as <-.
      rewrite lookup_ge_None_2 by (rewrite length_app; simpl; lia).
      assert (s ∈ A ≫= effnodes) as Hin.
      { eapply elem_of_sublist; [exact Hs|apply (round_L_sublist Hround)]. }
      destruct (HfE s Hin). by apply Hc2.
Qed.

Lemma levels_fed_built pb state serial_planning fuel pg :
  PlanningGraph_init pb state serial_planning fuel = Returned pg → levels_fed pg.
Proof.
  intros Hrun.
  cut (levels_apart (s_levels pg) ∧ levels_fed pg); [by intros [_ ?]|].
  revert Hrun.
  apply (PlanningGraph_init_inv (λ pg, levels_apart (s_levels pg) ∧ levels_fed pg)).
  - intros fs0 L0 pg0 _ Hini _. split.
    + rewrite (io_s_levels _ _ _ _ _ Hini). intros i j Li Lj x y Hi Hj Hlt.
      destruct j; [lia|done].
    + intros i L s HL Hs. rewrite (io_a_levels _ _ _ _ _ Hini).
      cbn [lookup list_lookup]. by rewrite (io_s_heap _ _ _ _ _ Hini).
  - intros level pg0 prev A L pg1 pg3 pg' Hok _ _ Hla Hls Hround [Hapart Hfed].
    split; [|by eapply levels_fed_round].
    destruct (round_levels Hround) as (_ & -> & _).
    destruct (round_action Hround) as (_ & _ & _ & _ & _ & _ & [_ HfE] & _).
    apply (levels_apart_snoc _ _ (next_addr (s_heap pg0))); [done| |].
    + intros L' x HL' Hx. by eapply graph_ok_s_bound.
    + intros y Hy. apply HfE.
      eapply elem_of_sublist; [done|apply (round_L_sublist Hround)].
  - intros pg1 sh gs Hok [Hapart Hfed] (Hle & Hold & _). split; [done|].
    intros i L s HL Hs.
    cbn [s_levels a_levels s_heap with_goal_states with_s_heap] in *.
    rewrite Hold; [by apply (Hfed i L s)|].
    apply (graph_ok_s_bound pg1 L s Hok); [|done].
    exact (lookup_elem_of _ _ _ HL).
Qed.

Lemma precondition_of_keys (s : PgNode_s) act :
  precondition_of s act ↔ py_key s ∈ pre_keys act.
Proof. symmetry. apply (elem_of_pre_keys_iff (symbol s) (is_pos s)). Qed.

(** X25: the children of a literal node of a built graph.  A node of a
    literal level that has an action level after it has a child equal to
    every node of that action level whose action has the literal as a
    precondition, and each of its children is the node of an action with
    the literal as a precondition and equal to a node of that level.  A
    node of the last literal level has no children. *)
Theorem literal_node_children pb state serial_planning fuel pg :
  PlanningGraph_init pb state serial_planning fuel = Returned pg →
  ∀ i L s, s_levels pg !! i = Some L → s ∈ L →
    (∀ A, a_levels pg !! i = Some A →
       (∀ a, a ∈ A → precondition_of s (action a) →
          set_in a (children (deref (s_heap pg) (addr s))) = true) ∧
       (∀ c, c ∈ children (deref (s_heap pg) (addr s)) →
          precondition_of s (action c) ∧ set_in c A = true)) ∧
    (a_levels pg !! i = None → children (deref (s_heap pg) (addr s)) = []).
Proof.
  intros Hrun i L s HL Hs.
  pose proof (levels_fed_built _ _ _ _ _ Hrun i L s HL Hs) as Hfed.
  split.
  - intros A HA. rewrite HA in Hfed. destruct Hfed as [Hall Hsound]. split.
    + intros a Ha Hpre. apply Hall; [done|]. by apply precondition_of_keys.
    + intros c Hc. destruct (Hsound c Hc) as [Hpre Hin].
      split; [by apply precondition_of_keys|done].
  - intros HA. by rewrite HA in Hfed.
Qed.

Lemma literal_node_children_witness :
  (∀ c, c ∈ children (deref (s_heap two_adds_graph) (addr (s_node two_adds_graph 0 0))) →
     precondition_of (s_node two_adds_graph 0 0) (action c) ∧
     set_in c (a_level two_adds_graph 0) = true) ∧
  children (deref (s_heap two_adds_graph) (addr (s_node two_adds_graph 2 0))) = [].
Proof.
  split.
  - exact (proj2 (proj1 (literal_node_children two_adds "FF" true 2 two_adds_graph
                    ltac:(vm_compute; reflexivity) 0
                    (s_level two_adds_graph 0) (s_node two_adds_graph 0 0)
                    ltac:(vm_compute; reflexivity)
                    ltac:(apply (lookup_elem_of _ 0); vm_compute; reflexivity))
                  (a_level two_adds_graph 0) ltac:(vm_compute; reflexivity))).
  - exact (proj2 (literal_node_children two_adds "FF" true 2 two_adds_graph
             ltac:(vm_compute; reflexivity) 2
             (s_level two_adds_graph 2) (s_node two_adds_graph 2 0)
             ltac:(vm_compute; reflexivity)
             ltac:(apply (lookup_elem_of _ 0); vm_compute; reflexivity))
            ltac:(vm_compute; reflexivity)).
Defined.
